(** * The card-game engine [createGameLogic] (game/gameLogic.js)

    A shallow embedding of the game-state engine and the properties of
    its operations: round execution, scoring, undo history, and state
    export / import.

    The engine is a JavaScript closure over three variables ([players],
    [currentRound], [stateHistory]).  Its roster is an array of objects
    that the engine mutates in place and hands out by reference, so the
    embedding keeps an explicit store of objects, with references
    between them, and threads it through every operation. *)

From Stdlib Require Import ZArith String List Lia Bool.
From Stdlib Require Import Permutation Sorted.
From stdpp Require Import base list.
Import ListNotations.

Set Warnings "-register-all".

Local Open Scope string_scope.
Local Open Scope list_scope.
Local Open Scope Z_scope.

(** ** Numbers *)

(** A JavaScript number is an IEEE 754 double.  [Int z] is the integer
    [z], [Frac m e] is [m / 2^e]; a double is a number [Int z] or
    [Frac m e] whose value has a 53-bit significand and an exponent in
    range, [NaN], or an infinity.  The two zeros are one number here:
    [===], the comparisons, [ToBoolean], the sum with 1 and JSON do not
    tell them apart, and the program never divides. *)
Inductive number : Type :=
| Int (z : Z)
| Frac (m : Z) (e : positive)
| NaN
| Inf (negative : bool).

Definition finite (n : number) : bool :=
  match n with
  | Int _ | Frac _ _ => true
  | NaN | Inf _ => false
  end.

(** [a === b] on numbers. *)
Definition number_eqb (a b : number) : bool :=
  match a, b with
  | Int x, Int y => x =? y
  | Int x, Frac m e | Frac m e, Int x => x * 2 ^ Z.pos e =? m
  | Frac m e, Frac m' e' => m * 2 ^ Z.pos e' =? m' * 2 ^ Z.pos e
  | Inf s, Inf t => Bool.eqb s t
  | _, _ => false
  end.

(** [a < b] on numbers; any comparison with NaN is false. *)
Definition number_ltb (a b : number) : bool :=
  match a, b with
  | Int x, Int y => x <? y
  | Int x, Frac m e => x * 2 ^ Z.pos e <? m
  | Frac m e, Int y => m <? y * 2 ^ Z.pos e
  | Frac m e, Frac m' e' => m * 2 ^ Z.pos e' <? m' * 2 ^ Z.pos e
  | Inf true, (Int _ | Frac _ _) => true
  | Inf true, Inf false => true
  | (Int _ | Frac _ _), Inf false => true
  | _, _ => false
  end.

(** [a <= b] on numbers; any comparison with NaN is false. *)
Definition number_leb (a b : number) : bool :=
  match a, b with
  | Int x, Int y => x <=? y
  | Int x, Frac m e => x * 2 ^ Z.pos e <=? m
  | Frac m e, Int y => m <=? y * 2 ^ Z.pos e
  | Frac m e, Frac m' e' => m * 2 ^ Z.pos e' <=? m' * 2 ^ Z.pos e
  | Inf s, Inf t => Bool.eqb s t || s
  | Inf true, (Int _ | Frac _ _) => true
  | (Int _ | Frac _ _), Inf false => true
  | _, _ => false
  end.

(** [m / 2^k] rounded to the nearest integer, a tie going to the even
    one ([0 <= m], [0 <= k]). *)
Definition round_nearest_even (m k : Z) : Z :=
  let q := m / 2 ^ k in
  match 2 * (m mod 2 ^ k) ?= 2 ^ k with
  | Lt => q
  | Gt => q + 1
  | Eq => if Z.even q then q else q + 1
  end.

Fixpoint trailing_zeros (p : positive) : Z :=
  match p with
  | xO p' => 1 + trailing_zeros p'
  | _ => 0
  end.

(** The number [m * 2^e], written with the least denominator. *)
Definition dyadic (m e : Z) : number :=
  if 0 <=? e then Int (m * 2 ^ e)
  else match m with
       | Z0 => Int 0
       | Zpos p | Zneg p =>
           let t := Z.min (trailing_zeros p) (- e) in
           if e + t =? 0 then Int (m / 2 ^ t)
           else Frac (m / 2 ^ t) (Z.to_pos (- (e + t)))
       end.

(** The double nearest to [m * 2^e]: the value is rounded to 53
    significant bits, or to a multiple of [2^-1074] when it is smaller
    than [2^-1022], a tie going to the even significand; a result of
    [2^1024] or more is an infinity. *)
Definition round_double (m e : Z) : number :=
  let a := Z.abs m in
  let k := Z.max 0 (Z.max (Z.log2 a + 1 - 53) (- 1074 - e)) in
  let a' := round_nearest_even a k in
  if (0 <? a') && (1024 <=? Z.log2 a' + (e + k)) then Inf (m <? 0)
  else dyadic (Z.sgn m * a') (e + k).

(** [a + b] *)
Definition number_add (a b : number) : number :=
  match a, b with
  | NaN, _ | _, NaN => NaN
  | Inf s, Inf t => if Bool.eqb s t then Inf s else NaN
  | Inf s, _ | _, Inf s => Inf s
  | Int x, Int y => round_double (x + y) 0
  | Int x, Frac m e | Frac m e, Int x =>
      round_double (x * 2 ^ Z.pos e + m) (- Z.pos e)
  | Frac m e, Frac m' e' =>
      round_double (m * 2 ^ Z.pos e' + m' * 2 ^ Z.pos e) (- Z.pos e - Z.pos e')
  end.

Definition is_zero (n : number) : bool :=
  match n with
  | Int z => z =? 0
  | Frac m _ => m =? 0
  | _ => false
  end.

Definition is_negative (n : number) : bool :=
  match n with
  | Int z => z <? 0
  | Frac m _ => m <? 0
  | Inf s => s
  | NaN => false
  end.

(** [a * b] *)
Definition number_mul (a b : number) : number :=
  match a, b with
  | NaN, _ | _, NaN => NaN
  | Inf s, x | x, Inf s =>
      if is_zero x then NaN else Inf (xorb s (is_negative x))
  | Int x, Int y => round_double (x * y) 0
  | Int x, Frac m e | Frac m e, Int x => round_double (x * m) (- Z.pos e)
  | Frac m e, Frac m' e' => round_double (m * m') (- Z.pos e - Z.pos e')
  end.

(** [Math.floor(a)] *)
Definition number_floor (a : number) : number :=
  match a with
  | Frac m e => Int (m / 2 ^ Z.pos e)
  | _ => a
  end.

(** A double that is at least 0 and less than 1. *)
Definition in_unit (n : number) : bool :=
  match n with
  | Int z => z =? 0
  | Frac m e =>
      (0 <? m) && (m <? 2 ^ Z.pos e) && (m <? 2 ^ 53) && (Z.pos e <=? 1074)
  | _ => false
  end.

(** What [Math.random()] returns: any double in [0, 1). *)
Record random_number : Type := mkRandom {
  as_number : number;
  in_range : in_unit as_number = true
}.

(** The integers that doubles count one by one: from [-2^53] to
    [2^53].  Adding 1 to [2^53] gives [2^53] again. *)
Definition counted (z : Z) : bool := (- 2 ^ 53 <=? z) && (z <=? 2 ^ 53).

(** [r <= b], for a number [r] that is an integer or [-Infinity]. *)
Definition below (b : Z) (r : number) : Prop :=
  match r with
  | Int z => z <= b
  | Inf true => True
  | _ => False
  end.

(** ** JavaScript values *)

(** A reference to an object of the store. *)
Definition loc := nat.

(** A value is a primitive or a reference to an object.  Two references
    are the same object exactly when they are the same location. *)
Inductive value : Type :=
| VUndefined
| VNull
| VBool (b : bool)
| VNum (n : number)
| VStr (s : string)
| VBigInt (z : Z)
| VSymbol (id : nat)
| VRef (l : loc).

(** The objects of the store: arrays (their elements, and no other
    property), plain objects (their own data properties in enumeration
    order; no accessor, nothing inherited but [Object.prototype]), and
    functions (with no property of their own besides the built-in
    ones).  Objects are extensible and their properties writable. *)
Inductive object : Type :=
| Arr (elements : list value)
| Obj (props : list (string * value))
| Fun.

(** How a call completes.  [Throws] is an exception leaving the engine
    ([TypeError], or [SyntaxError] from [JSON.parse]); [Unsupported]
    marks what this embedding does not describe: the coercion of an
    object or of a string to a number, properties added to arrays or to
    functions, indexed properties of plain objects, [toJSON] methods,
    references that point outside the store. *)
Inductive outcome (A : Type) : Type :=
| Returns (a : A)
| Throws
| Unsupported.
Arguments Returns {A} a.
Arguments Throws {A}.
Arguments Unsupported {A}.

Definition obind {A B} (o : outcome A) (k : A -> outcome B) : outcome B :=
  match o with
  | Returns a => k a
  | Throws => Throws
  | Unsupported => Unsupported
  end.

Declare Scope js_scope.
Delimit Scope js_scope with js.
Notation "x <~ c ;; k" := (obind c (fun x => k))
  (at level 100, c at next level, right associativity) : js_scope.
Local Open Scope js_scope.

(** ToBoolean. *)
Definition truthy (v : value) : bool :=
  match v with
  | VUndefined | VNull => false
  | VBool b => b
  | VNum NaN => false
  | VNum (Inf _) => true
  | VNum n => negb (is_zero n)
  | VStr s => negb (String.eqb s EmptyString)
  | VBigInt z => negb (z =? 0)
  | VSymbol _ | VRef _ => true
  end.

(** [typeof v === 'number'] *)
Definition is_number (v : value) : bool :=
  match v with VNum _ => true | _ => false end.

Definition or_undefined (o : option value) : value :=
  match o with
  | Some v => v
  | None => VUndefined
  end.

Fixpoint assoc {A} (k : string) (props : list (string * A)) : option A :=
  match props with
  | [] => None
  | (k', v) :: rest => if String.eqb k k' then Some v else assoc k rest
  end.

(** [obj[k] = x] on the property list of a plain object: an existing
    property keeps its place, a new one goes last. *)
Fixpoint set_prop {A} (k : string) (x : A) (props : list (string * A))
  : list (string * A) :=
  match props with
  | [] => [(k, x)]
  | (k', v) :: rest =>
      if String.eqb k k' then (k', x) :: rest else (k', v) :: set_prop k x rest
  end.

(** [v.k] in the store [h], for one of the names the engine reads
    ([players], [currentRound], [cardHeld], [score]): none of them is
    defined on a primitive, on an array or on a function, and reading
    from [null] or [undefined] raises. *)
Definition get (h : list object) (v : value) (k : string) : outcome value :=
  match v with
  | VUndefined | VNull => Throws
  | VRef l =>
      match h !! l with
      | Some (Obj props) => Returns (or_undefined (assoc k props))
      | Some (Arr _) | Some Fun => Returns VUndefined
      | None => Unsupported
      end
  | _ => Returns VUndefined
  end.

(** The sequence a [for ... of] loop runs over. *)
Definition chars (s : string) : list value :=
  map (fun a => VStr (String a EmptyString)) (list_ascii_of_string s).

Definition iterate (h : list object) (v : value) : outcome (list value) :=
  match v with
  | VRef l =>
      match h !! l with
      | Some (Arr els) => Returns els
      | Some _ => Throws
      | None => Unsupported
      end
  | VStr s => Returns (chars s)
  | _ => Throws
  end.

(** [v[i]] for an integer [i]. *)
Definition index (h : list object) (v : value) (i : Z) : outcome value :=
  match v with
  | VUndefined | VNull => Throws
  | VRef l =>
      match h !! l with
      | Some (Arr els) =>
          Returns (if i <? 0 then VUndefined else or_undefined (els !! Z.to_nat i))
      | Some _ => Unsupported
      | None => Unsupported
      end
  | VStr s =>
      Returns (if i <? 0 then VUndefined else or_undefined (chars s !! Z.to_nat i))
  | _ => Returns VUndefined
  end.

(** ToNumber on primitives. *)
Definition to_number (v : value) : outcome number :=
  match v with
  | VUndefined => Returns NaN
  | VNull => Returns (Int 0)
  | VBool b => Returns (Int (if b then 1 else 0))
  | VNum n => Returns n
  | VBigInt _ | VSymbol _ => Throws
  | VStr _ | VRef _ => Unsupported
  end.

(** The operand of a comparison: a BigInt is compared by its value. *)
Definition to_numeric (v : value) : outcome number :=
  match v with
  | VBigInt z => Returns (Int z)
  | _ => to_number v
  end.

(** [a > b] *)
Definition gt (a b : value) : outcome bool :=
  x <~ to_numeric a ;; y <~ to_numeric b ;; Returns (number_ltb y x).

(** [a === b] *)
Definition strict_eq (a b : value) : bool :=
  match a, b with
  | VUndefined, VUndefined | VNull, VNull => true
  | VBool x, VBool y => Bool.eqb x y
  | VNum x, VNum y => number_eqb x y
  | VStr x, VStr y => String.eqb x y
  | VBigInt x, VBigInt y => x =? y
  | VSymbol x, VSymbol y => Nat.eqb x y
  | VRef x, VRef y => Nat.eqb x y
  | _, _ => false
  end.

(** [a + b] with a number on the right. *)
Definition plus (a : value) (b : number) : outcome value :=
  x <~ to_number a ;; Returns (VNum (number_add x b)).

(** ** JSON *)

(** A JSON text, as the tree it denotes. *)
Inductive json : Type :=
| JNull
| JBool (b : bool)
| JNum (n : number)
| JStr (s : string)
| JArr (elements : list json)
| JObj (members : list (string * json)).

Definition or_null (j : option json) : json :=
  match j with
  | Some x => x
  | None => JNull
  end.

Definition on_path (l : loc) (path : list loc) : bool := existsb (Nat.eqb l) path.

(** The object has a method [toJSON]. *)
Definition has_toJSON (h : list object) (props : list (string * value)) : bool :=
  match assoc "toJSON" props with
  | Some (VRef f) => match h !! f with Some Fun => true | _ => false end
  | _ => false
  end.

Section Serialize.

(** The text of an element or of a property value; [None] is
    [undefined]. *)
Variable visit : value -> outcome (option json).

(** In an array, what has no text is written [null]. *)
Fixpoint stringify_elements (els : list value) : outcome (list json) :=
  match els with
  | [] => Returns []
  | e :: rest =>
      j <~ visit e ;;
      js <~ stringify_elements rest ;;
      Returns (or_null j :: js)
  end.

(** In an object, a property whose value has no text is left out. *)
Fixpoint stringify_members (props : list (string * value))
  : outcome (list (string * json)) :=
  match props with
  | [] => Returns []
  | (k, x) :: rest =>
      j <~ visit x ;;
      ms <~ stringify_members rest ;;
      Returns (match j with
               | Some t => (k, t) :: ms
               | None => ms
               end)
  end.

End Serialize.

(** [JSON.stringify(v)] in the store [h]; [path] holds the objects
    being written, an object met again inside itself is a cycle.
    [undefined], a function and a symbol have no text, a non-finite
    number is written [null], a BigInt raises.  [fuel] bounds the
    depth, which is at most the number of objects in the store. *)
Fixpoint stringify_fuel (fuel : nat) (h : list object) (path : list loc) (v : value)
  : outcome (option json) :=
  match v with
  | VUndefined | VSymbol _ => Returns None
  | VNull => Returns (Some JNull)
  | VBool b => Returns (Some (JBool b))
  | VNum n => Returns (Some (if finite n then JNum n else JNull))
  | VStr s => Returns (Some (JStr s))
  | VBigInt _ => Throws
  | VRef l =>
      match h !! l with
      | None => Unsupported
      | Some Fun => Returns None
      | Some o =>
          if on_path l path then Throws
          else match fuel with
               | O => Unsupported
               | S fuel' =>
                   match o with
                   | Arr els =>
                       js <~ stringify_elements (stringify_fuel fuel' h (l :: path)) els ;;
                       Returns (Some (JArr js))
                   | Obj props =>
                       if has_toJSON h props then Unsupported
                       else
                         ms <~ stringify_members (stringify_fuel fuel' h (l :: path)) props ;;
                         Returns (Some (JObj ms))
                   | Fun => Returns None
                   end
               end
      end
  end.

Definition stringify (h : list object) (v : value) : outcome (option json) :=
  stringify_fuel (length h) h [] v.

Section Parse.

Variable build : json -> list object -> value * list object.

Fixpoint build_elements (js : list json) (h : list object)
  : list value * list object :=
  match js with
  | [] => ([], h)
  | j :: rest =>
      let (v, h1) := build j h in
      let (vs, h2) := build_elements rest h1 in
      (v :: vs, h2)
  end.

Fixpoint build_members (ms : list (string * json)) (props : list (string * value))
    (h : list object) : list (string * value) * list object :=
  match ms with
  | [] => (props, h)
  | (k, j) :: rest =>
      let (v, h1) := build j h in
      build_members rest (set_prop k v props) h1
  end.

End Parse.

(** [JSON.parse(text)]: the value, and the store with the new objects
    it is made of. *)
Fixpoint build (j : json) (h : list object) : value * list object :=
  match j with
  | JNull => (VNull, h)
  | JBool b => (VBool b, h)
  | JNum n => (VNum n, h)
  | JStr s => (VStr s, h)
  | JArr js =>
      let (vs, h') := build_elements build js h in
      (VRef (length h'), h' ++ [Arr vs])
  | JObj ms =>
      let (props, h') := build_members build ms [] h in
      (VRef (length h'), h' ++ [Obj props])
  end.

Fixpoint distinct_keys (ks : list string) : bool :=
  match ks with
  | [] => true
  | k :: rest => negb (existsb (String.eqb k) rest) && distinct_keys rest
  end.

(** The texts of objects as the language has them: an object has no
    property twice, and [JSON.stringify] writes no number that is not
    finite. *)
Fixpoint canonical (j : json) : bool :=
  match j with
  | JNum n => finite n
  | JArr js => forallb canonical js
  | JObj ms =>
      distinct_keys (map fst ms)
      && forallb (fun m : string * json => canonical (snd m)) ms
  | _ => true
  end.

(** ** The engine and its store *)

Record state : Type := mkState {
  heap : list object;
  randomCalls : nat;          (* Math.random() calls made so far *)
  players : value;            (* let players *)
  currentRound : number;      (* let currentRound *)
  stateHistory : list value   (* let stateHistory, top of the stack first *)
}.

Definition set_heap (h : list object) (s : state) : state :=
  mkState h (randomCalls s) (players s) (currentRound s) (stateHistory s).
Definition set_randomCalls (n : nat) (s : state) : state :=
  mkState (heap s) n (players s) (currentRound s) (stateHistory s).
Definition set_players (v : value) (s : state) : state :=
  mkState (heap s) (randomCalls s) v (currentRound s) (stateHistory s).
Definition set_currentRound (n : number) (s : state) : state :=
  mkState (heap s) (randomCalls s) (players s) n (stateHistory s).
Definition set_stateHistory (h : list value) (s : state) : state :=
  mkState (heap s) (randomCalls s) (players s) (currentRound s) h.

(** Commands: a state transformer that returns or raises; what was
    written before an exception stays written. *)
Definition M (A : Type) : Type := state -> outcome A * state.

Definition ret {A} (a : A) : M A := fun s => (Returns a, s).

Definition bind {A B} (c : M A) (k : A -> M B) : M B :=
  fun s =>
    match c s with
    | (Returns a, s') => k a s'
    | (Throws, s') => (Throws, s')
    | (Unsupported, s') => (Unsupported, s')
    end.

Notation "x <- c ;; k" := (bind c (fun x => k))
  (at level 100, c at next level, right associativity) : js_scope.
Notation "c ;;; k" := (bind c (fun _ => k))
  (at level 100, right associativity) : js_scope.

Definition gets {A} (f : state -> A) : M A := fun s => (Returns (f s), s).
Definition modify (f : state -> state) : M unit := fun s => (Returns tt, f s).

(** An operation that reads the store. *)
Definition reads {A} (f : list object -> outcome A) : M A :=
  fun s => (f (heap s), s).

(** A new object. *)
Definition alloc (o : object) : M value :=
  fun s => (Returns (VRef (length (heap s))), set_heap (heap s ++ [o]) s).

(** [v.k = x] in strict mode (the file is an ES module): the property
    of the object is written in place; on [null], [undefined] and on a
    primitive it is a [TypeError]. *)
Definition put (v : value) (k : string) (x : value) : M unit :=
  fun s =>
    match v with
    | VRef l =>
        match heap s !! l with
        | Some (Obj props) =>
            (Returns tt, set_heap (<[l := Obj (set_prop k x props)]> (heap s)) s)
        | _ => (Unsupported, s)
        end
    | _ => (Throws, s)
    end.

(** [for (const x of v) body] *)
Fixpoint for_each (els : list value) (body : value -> M unit) : M unit :=
  match els with
  | [] => ret tt
  | x :: rest => body x ;;; for_each rest body
  end.

Definition for_of (v : value) (body : value -> M unit) : M unit :=
  els <- reads (fun h => iterate h v) ;;
  for_each els body.

(** [JSON.parse(JSON.stringify(v))]; [JSON.parse(undefined)] raises. *)
Definition json_copy (v : value) : M value :=
  fun s =>
    match stringify (heap s) v with
    | Returns (Some text) =>
        let (copy, h') := build text (heap s) in
        (Returns copy, set_heap h' s)
    | Returns None => (Throws, s)
    | Throws => (Throws, s)
    | Unsupported => (Unsupported, s)
    end.

(** ** Constants *)

Record Player : Type := mkPlayer {
  name : string;
  cardHeld : option Z;     (* null before the first draw *)
  score : Z
}.

Definition card_value (c : option Z) : value :=
  match c with
  | None => VNull
  | Some z => VNum (Int z)
  end.

(** A player object, with its properties in the order of the literals
    of the source. *)
Definition player_object (p : Player) : object :=
  Obj [("name", VStr (name p));
       ("cardHeld", card_value (cardHeld p));
       ("score", VNum (Int (score p)))].

Definition card_json (c : option Z) : json :=
  match c with
  | None => JNull
  | Some z => JNum (Int z)
  end.

Definition player_json (p : Player) : json :=
  JObj [("name", JStr (name p));
        ("cardHeld", card_json (cardHeld p));
        ("score", JNum (Int (score p)))].

Definition roster_json (ps : list Player) : json :=
  JArr (map player_json ps).

Definition initialRoster : list Player :=
  [ mkPlayer "Player 1" None 0;
    mkPlayer "Player 2" None 0;
    mkPlayer "Player 3" None 0;
    mkPlayer "Player 4" None 0 ].

(** [JSON.stringify(initialPlayers)]: the array literal is private to
    the module and is never written, so its text is a constant. *)
Definition initialPlayers : json := roster_json initialRoster.

Definition DECK_SIZE : Z := 40.
Definition MAX_CARD_VALUE : Z := 12.
Definition POINTS_PER_SCORE : Z := 1.
Definition NUM_PLAYERS : Z := Z.of_nat (length initialRoster).
Definition TOTAL_ROUNDS : Z := DECK_SIZE / NUM_PLAYERS.

(** ** Operations of the engine *)

(** The object [{players, currentRound, totalRounds}]. *)
Definition snapshot_object (ps : value) (round : number) : object :=
  Obj [("players", ps);
       ("currentRound", VNum round);
       ("totalRounds", VNum (Int TOTAL_ROUNDS))].

(** The arguments [playerIndex] and [newName] are an integer and a
    string.  A property is read once where the source reads it twice:
    it is a data property, and nothing is written in between. *)
Definition modifyPlayerName (playerIndex : Z) (newName : string) : M unit :=
  ps <- gets players ;;
  player <- reads (fun h => index h ps playerIndex) ;;
  if truthy player && negb (String.eqb newName EmptyString) then
    put player "name" (VStr newName)
  else ret tt.

Definition getGameState : M value :=
  ps <- gets players ;;
  copy <- json_copy ps ;;
  round <- gets currentRound ;;
  alloc (snapshot_object copy round).

(** The argument is a value of the caller, in the store as it is at the
    time of the call; it is only read. *)
Definition setGameState (st : value) : M bool :=
  if truthy st then
    ps <- reads (fun h => get h st "players") ;;
    if truthy ps then
      round <- reads (fun h => get h st "currentRound") ;;
      match round with
      | VNum n =>
          copy <- json_copy ps ;;
          modify (set_players copy) ;;;
          modify (set_currentRound n) ;;;
          ret true
      | _ => ret false
      end
    else ret false
  else ret false.

Definition undoLastRound : M bool :=
  history <- gets stateHistory ;;
  match history with
  | previousState :: rest =>
      modify (set_stateHistory rest) ;;;
      _ <- setGameState previousState ;;
      ret true
  | [] => ret false
  end.

Definition resetGame : M unit :=
  fun s =>
    let (copy, h') := build initialPlayers (heap s) in
    (Returns tt, mkState h' (randomCalls s) copy (Int 0) []).

Definition getPlayers (s : state) : value := players s.
Definition getTotalRounds (s : state) : number := Int TOTAL_ROUNDS.
Definition getCurrentRound (s : state) : number := currentRound s.

(** First loop of [resolveRound]: the body, for the value
    [biggestCardOfRound] has when it is entered. *)
Definition biggerCard (biggestCardOfRound player : value) : M value :=
  card <- reads (fun h => get h player "cardHeld") ;;
  b <- reads (fun _ => gt card biggestCardOfRound) ;;
  ret (if b then card else biggestCardOfRound).

Fixpoint biggestCard (els : list value) (biggestCardOfRound : value) : M value :=
  match els with
  | [] => ret biggestCardOfRound
  | player :: rest =>
      b <- biggerCard biggestCardOfRound player ;;
      biggestCard rest b
  end.

(** Second loop of [resolveRound]: the body. *)
Definition awardPoints (biggestCardOfRound player : value) : M unit :=
  card <- reads (fun h => get h player "cardHeld") ;;
  if strict_eq card biggestCardOfRound then
    sc <- reads (fun h => get h player "score") ;;
    sc' <- reads (fun _ => plus sc (Int POINTS_PER_SCORE)) ;;
    put player "score" sc'
  else ret tt.

Definition resolveRound : M unit :=
  ps <- gets players ;;
  els <- reads (fun h => iterate h ps) ;;
  biggestCardOfRound <- biggestCard els (VNum (Int 0)) ;;
  ps' <- gets players ;;
  for_of ps' (awardPoints biggestCardOfRound) ;;;
  modify (fun s => set_currentRound (number_add (currentRound s) (Int 1)) s).

Section Engine.

(** [random k] is the result of the [k]-th call of [Math.random()]. *)
Variable random : nat -> random_number.

Definition Math_random : M number :=
  fun s => (Returns (as_number (random (randomCalls s))),
            set_randomCalls (S (randomCalls s)) s).

(** [Math.floor(Math.random() * MAX_CARD_VALUE) + 1] *)
Definition newCard : M value :=
  r <- Math_random ;;
  ret (VNum (number_add (number_floor (number_mul r (Int MAX_CARD_VALUE))) (Int 1))).

Definition drawCard (player : value) : M unit :=
  card <- newCard ;;
  put player "cardHeld" card.

Definition drawCards : M unit :=
  ps <- gets players ;;
  for_of ps drawCard.

Definition runRound : M bool :=
  round <- gets currentRound ;;
  if number_ltb round (Int TOTAL_ROUNDS) then
    snapshot <- getGameState ;;
    modify (fun s => set_stateHistory (snapshot :: stateHistory s) s) ;;;
    drawCards ;;;
    resolveRound ;;;
    ret true
  else ret false.

(** The [while] loop, with a bound on the number of iterations; [None]
    when the bound is reached before the loop ends. *)
Fixpoint runGameLoop (fuel : nat) (s : state) : option (outcome value * state) :=
  if number_ltb (currentRound s) (Int TOTAL_ROUNDS) then
    match fuel with
    | O => None
    | S fuel' =>
        match runRound s with
        | (Returns _, s') => runGameLoop fuel' s'
        | (Throws, s') => Some (Throws, s')
        | (Unsupported, s') => Some (Unsupported, s')
        end
    end
  else Some (Returns (players s), s).

End Engine.

(** [createGameLogic(savedState)] in a store [h], after [calls] calls of
    [Math.random()]: the state of the engine it returns.  A missing
    argument is [null]. *)
Definition createGameLogic (savedState : value) (h : list object) (calls : nat)
  : outcome state :=
  let savedState := match savedState with VUndefined => VNull | v => v end in
  let fresh_game : M unit :=
    fun s => let (copy, h') := build initialPlayers (heap s) in
             (Returns tt, mkState h' (randomCalls s) copy (Int 0) (stateHistory s)) in
  let load : M unit :=
    if truthy savedState then
      ps <- reads (fun h => get h savedState "players") ;;
      if truthy ps then
        round <- reads (fun h => get h savedState "currentRound") ;;
        match round with
        | VNum n =>
            copy <- json_copy ps ;;
            modify (set_players copy) ;;;
            modify (set_currentRound n)
        | _ => fresh_game
        end
      else fresh_game
    else fresh_game in
  match load (mkState h calls VUndefined NaN []) with
  | (Returns _, s) => Returns s
  | (Throws, _) => Throws
  | (Unsupported, _) => Unsupported
  end.

(** ** The engine on rosters of Player records *)

(** The operations above work on any value the engine has adopted as its
    roster.  On a roster that is an array of [Player] records they
    amount to the functions of this section, which the properties below
    are stated with. *)

(** [score += POINTS_PER_SCORE] on an integer score. *)
Definition add_points (z : Z) : Z :=
  match number_add (Int z) (Int POINTS_PER_SCORE) with
  | Int z' => z'
  | _ => z
  end.

(** [null > n] compares 0 with [n]. *)
Definition cardNumber (p : Player) : Z :=
  match cardHeld p with
  | Some c => c
  | None => 0
  end.

(** [biggestCardOfRound] after the first loop of [resolveRound]. *)
Fixpoint biggest (ps : list Player) (b : Z) : Z :=
  match ps with
  | [] => b
  | p :: rest => biggest rest (if b <? cardNumber p then cardNumber p else b)
  end.

(** [player.cardHeld === m] *)
Definition wins (m : Z) (p : Player) : bool :=
  match cardHeld p with
  | Some c => c =? m
  | None => false
  end.

(** The second loop of [resolveRound]. *)
Definition award (m : Z) (ps : list Player) : list Player :=
  map (fun p => if wins m p
                then mkPlayer (name p) (cardHeld p) (add_points (score p))
                else p) ps.

Section Rounds.

Variable random : nat -> random_number.

(** The card drawn by the [k]-th call of [Math.random()]. *)
Definition card_number (k : nat) : number :=
  number_add (number_floor (number_mul (as_number (random k)) (Int MAX_CARD_VALUE)))
             (Int 1).

Definition card (k : nat) : Z :=
  match card_number k with
  | Int z => z
  | _ => 0
  end.

(** [drawCards]: one card each, in roster order, starting with call [k]. *)
Fixpoint deal (k : nat) (ps : list Player) : list Player :=
  match ps with
  | [] => []
  | p :: rest => mkPlayer (name p) (Some (card k)) (score p) :: deal (S k) rest
  end.

(** The roster after [drawCards(); resolveRound()]. *)
Definition playedRound (k : nat) (ps : list Player) : list Player :=
  award (biggest (deal k ps) 0) (deal k ps).

(** The rosters after each of [m] successive rounds. *)
Fixpoint playedRounds (m : nat) (k : nat) (ps : list Player) : list (list Player) :=
  match m with
  | O => []
  | S m' =>
      playedRound k ps
        :: playedRounds m' (k + length ps)%nat (playedRound k ps)
  end.

End Rounds.

(** [players[i].name = n], under the guard of [modifyPlayerName]. *)
Definition rename (i : Z) (n : string) (ps : list Player) : list Player :=
  if (i <? 0) || String.eqb n EmptyString then ps
  else match ps !! Z.to_nat i with
       | Some p => <[Z.to_nat i := mkPlayer n (cardHeld p) (score p)]> ps
       | None => ps
       end.

(** [m] is the highest card held in [ps]. *)
Definition maximum (m : Z) (ps : list Player) : Prop :=
  (exists p, In p ps /\ cardHeld p = Some m) /\
  (forall p c, In p ps -> cardHeld p = Some c -> c <= m).

(** The number of players holding card [m]. *)
Definition holders (m : Z) (ps : list Player) : Z :=
  Z.of_nat (length (List.filter (wins m) ps)).

(** The number of tied leaders of a round, from the roster after it. *)
Definition leaders (ps : list Player) : Z := holders (biggest ps 0) ps.

Definition total (ps : list Player) : Z :=
  fold_right (fun p acc => score p + acc) 0 ps.

Fixpoint sumZ (l : list Z) : Z :=
  match l with
  | [] => 0
  | x :: rest => x + sumZ rest
  end.

(** ** Game states *)

(** The state of a game: the roster, the round, and the snapshots on the
    undo stack (latest first). *)
Record game : Type := mkGame {
  roster : list Player;
  round : number;
  history : list (list Player * number)
}.

Definition read_card (v : value) : option (option Z) :=
  match v with
  | VNull => Some None
  | VNum (Int c) => Some (Some c)
  | _ => None
  end.

(** The Player record that an object holds: the three properties of the
    literals of the source, in their order, the score being an integer
    that doubles count exactly. *)
Definition read_player (o : object) : option Player :=
  match o with
  | Obj [(k1, VStr n); (k2, c); (k3, VNum (Int sc))] =>
      if String.eqb k1 "name" && String.eqb k2 "cardHeld" && String.eqb k3 "score"
         && counted sc
      then match read_card c with
           | Some c' => Some (mkPlayer n c' sc)
           | None => None
           end
      else None
  | _ => None
  end.

Fixpoint read_players (h : list object) (els : list value) : option (list Player) :=
  match els with
  | [] => Some []
  | VRef l :: rest =>
      match h !! l with
      | Some o =>
          match read_player o, read_players h rest with
          | Some p, Some ps => Some (p :: ps)
          | _, _ => None
          end
      | None => None
      end
  | _ :: _ => None
  end.

(** The objects that a list of values refers to. *)
Fixpoint refs_of (vs : list value) : list loc :=
  match vs with
  | [] => []
  | VRef l :: rest => l :: refs_of rest
  | _ :: rest => refs_of rest
  end.

Fixpoint distinct (ls : list loc) : bool :=
  match ls with
  | [] => true
  | l :: rest => negb (on_path l rest) && distinct rest
  end.

(** The objects that the elements of the array [v] refer to: the ones
    the engine writes to. *)
Definition player_cells (h : list object) (v : value) : list loc :=
  match v with
  | VRef l =>
      match h !! l with
      | Some (Arr els) => refs_of els
      | _ => []
      end
  | _ => []
  end.

(** The Player records that the array [v] holds: its elements are
    references to as many objects, each holding a Player record. *)
Definition read_roster (h : list object) (v : value) : option (list Player) :=
  match v with
  | VRef l =>
      match h !! l with
      | Some (Arr els) =>
          if distinct (refs_of els) then read_players h els else None
      | _ => None
      end
  | _ => None
  end.

(** The roster of the engine holds the Player records [ps]. *)
Definition roster_is (s : state) (ps : list Player) : Prop :=
  read_roster (heap s) (players s) = Some ps.

(** The game state that an object [{players, currentRound, totalRounds}]
    holds. *)
Definition read_snapshot (h : list object) (v : value) : option (list Player * number) :=
  match v with
  | VRef l =>
      match h !! l with
      | Some (Obj [(k1, ps); (k2, VNum r); (k3, VNum (Int t))]) =>
          if String.eqb k1 "players" && String.eqb k2 "currentRound"
             && String.eqb k3 "totalRounds" && (t =? TOTAL_ROUNDS)
          then match read_roster h ps with
               | Some r' => Some (r', r)
               | None => None
               end
          else None
      | _ => None
      end
  | _ => None
  end.

Definition snapshot_cells (h : list object) (v : value) : list loc :=
  match v with
  | VRef l =>
      match h !! l with
      | Some (Obj props) => player_cells h (or_undefined (assoc "players" props))
      | _ => []
      end
  | _ => []
  end.

Fixpoint read_history (h : list object) (vs : list value)
  : option (list (list Player * number)) :=
  match vs with
  | [] => Some []
  | v :: rest =>
      match read_snapshot h v, read_history h rest with
      | Some snap, Some snaps => Some (snap :: snaps)
      | _, _ => None
      end
  end.

Definition disjoint (xs ys : list loc) : bool :=
  forallb (fun x => negb (on_path x ys)) xs.

(** The game state the engine is in: its roster holds Player records,
    its history holds snapshot objects, and no snapshot shares a player
    object with the roster. *)
Definition read_game (s : state) : option game :=
  match read_roster (heap s) (players s), read_history (heap s) (stateHistory s) with
  | Some ps, Some snaps =>
      if forallb (fun v => disjoint (player_cells (heap s) (players s))
                                    (snapshot_cells (heap s) v))
                 (stateHistory s)
      then Some (mkGame ps (currentRound s) snaps)
      else None
  | _, _ => None
  end.

Definition represents (s : state) (g : game) : Prop := read_game s = Some g.

(** The game state after a round whose first card comes from call [k],
    and after [m] rounds. *)
Definition nextGame (random : nat -> random_number) (k : nat) (g : game) : game :=
  mkGame (playedRound random k (roster g))
         (number_add (round g) (Int 1))
         ((roster g, round g) :: history g).

Fixpoint nextGames (random : nat -> random_number) (m : nat) (k : nat) (g : game)
  : game :=
  match m with
  | O => g
  | S m' => nextGames random m' (k + length (roster g))%nat (nextGame random k g)
  end.

(** Everybody holds a card, of value at least 1. *)
Definition all_hold (ps : list Player) : Prop :=
  Forall (fun p => exists c, cardHeld p = Some c /\ 1 <= c) ps.

(** Nobody holds a card. *)
Definition no_cards (ps : list Player) : Prop :=
  Forall (fun p => cardHeld p = None) ps.

(** The rosters of a game played from the fresh roster, in its [n]-th
    round: [NUM_PLAYERS] players, each with a score between 0 and [n],
    the scores adding up to at least [n]; cards, when held, between 1
    and [MAX_CARD_VALUE]; after the first round everybody holds one, and
    before it nobody does. *)
Definition scored_roster (n : Z) (ps : list Player) : Prop :=
  Z.of_nat (length ps) = NUM_PLAYERS /\
  Forall (fun p => 0 <= score p <= n * POINTS_PER_SCORE) ps /\
  n * POINTS_PER_SCORE <= total ps <= n * NUM_PLAYERS * POINTS_PER_SCORE /\
  Forall (fun p => forall c, cardHeld p = Some c -> 1 <= c <= MAX_CARD_VALUE) ps /\
  (0 < n -> Forall (fun p => cardHeld p <> None) ps) /\
  (n = 0 -> no_cards ps).

(** The undo stack of such a game, under the roster [ps] that followed
    its latest snapshot: one snapshot per round, and each round gave one
    point to each of its tied leaders. *)
Fixpoint scored_history (snaps : list (list Player * number)) (n : Z)
    (ps : list Player) : Prop :=
  match snaps with
  | [] => n = 0
  | (qs, r) :: rest =>
      r = Int (n - 1) /\ scored_roster (n - 1) qs /\
      total ps = total qs + POINTS_PER_SCORE * leaders ps /\
      scored_history rest (n - 1) qs
  end.

(** A game played from a fresh roster. *)
Definition scored (g : game) : Prop :=
  exists n : Z,
    round g = Int n /\ 0 <= n <= TOTAL_ROUNDS /\
    scored_roster n (roster g) /\
    scored_history (history g) n (roster g).


(** ** What the caller does *)

(** The caller writes to an object it holds a reference to: the object
    at [l] becomes [o]. *)
Definition write (l : loc) (o : object) (s : state) : state :=
  set_heap (<[l := o]> (heap s)) s.

Fixpoint writes (ws : list (loc * object)) (s : state) : state :=
  match ws with
  | [] => s
  | (l, o) :: rest => writes rest (write l o s)
  end.

(** The values an object holds. *)
Definition object_values (o : object) : list value :=
  match o with
  | Arr els => els
  | Obj props => map snd props
  | Fun => []
  end.

(** [reach h v l]: the object at [l] is [v], or is reached from [v]
    through the properties and elements of objects. *)
Inductive reach (h : list object) : value -> loc -> Prop :=
| reach_here l : (l < length h)%nat -> reach h (VRef l) l
| reach_step l o v l' :
    h !! l = Some o -> In v (object_values o) -> reach h v l' ->
    reach h (VRef l) l'.

(** A value of an object literal, made by the caller: [None] is
    [undefined]. *)
Definition literal (lit : option json) (s : state) : value * state :=
  match lit with
  | None => (VUndefined, s)
  | Some j => let (v, h') := build j (heap s) in (v, set_heap h' s)
  end.

(** [st.k] in the store [h], where [st] is not [null] or [undefined]. *)
Definition field (h : list object) (st : value) (k : string) : value :=
  match get h st k with
  | Returns v => v
  | _ => VUndefined
  end.

(** The check of [setGameState] and of [createGameLogic]:
    [state && state.players && typeof state.currentRound === 'number'] *)
Definition well_formed (h : list object) (st : value) : bool :=
  truthy st && truthy (field h st "players") && is_number (field h st "currentRound").

(** [st] is an object with a property [k]. *)
Definition has_field (h : list object) (st : value) (k : string) : Prop :=
  exists l props x, st = VRef l /\ h !! l = Some (Obj props) /\ assoc k props = Some x.

(** The states that the test suite expects to be rejected:
    [null], [undefined], [{}], [{players: []}], [{currentRound: 0}],
    [{players: [], currentRound: 'invalid'}]. *)
Definition invalidStates : list (option json) :=
  [ Some JNull;
    None;
    Some (JObj []);
    Some (JObj [("players", JArr [])]);
    Some (JObj [("currentRound", JNum (Int 0))]);
    Some (JObj [("players", JArr []); ("currentRound", JStr "invalid")]) ].

(** ** Sequences of calls *)

(** A call of the engine, or the caller making an object. *)
Inductive call : Type :=
| ModifyPlayerName (playerIndex : Z) (newName : string)
| RunRound
| UndoLastRound
| RunGameLoop
| GetGameState
| SetGameState (st : value)
| ResetGame
| NewObject (o : object).

Definition is_import (c : call) : bool :=
  match c with SetGameState _ => true | _ => false end.

(** A call completes when it returns or raises. *)
Definition completes {A} (o : outcome A) : Prop :=
  match o with
  | Unsupported => False
  | _ => True
  end.

Section Calls.

Variable random : nat -> random_number.

(** [step c s s']: the call [c] in state [s] returns or raises, and
    leaves [s']. *)
Inductive step : call -> state -> state -> Prop :=
| step_modifyPlayerName i n s o s' :
    modifyPlayerName i n s = (o, s') -> completes o -> step (ModifyPlayerName i n) s s'
| step_runRound s o s' :
    runRound random s = (o, s') -> completes o -> step RunRound s s'
| step_undoLastRound s o s' :
    undoLastRound s = (o, s') -> completes o -> step UndoLastRound s s'
| step_runGameLoop fuel s o s' :
    runGameLoop random fuel s = Some (o, s') -> completes o -> step RunGameLoop s s'
| step_getGameState s o s' :
    getGameState s = (o, s') -> completes o -> step GetGameState s s'
| step_setGameState st s o s' :
    setGameState st s = (o, s') -> completes o -> step (SetGameState st) s s'
| step_resetGame s o s' :
    resetGame s = (o, s') -> completes o -> step ResetGame s s'
| step_newObject obj s :
    step (NewObject obj) s (set_heap (heap s ++ [obj]) s).

(** The states of an engine made by [createGameLogic()], after any
    sequence of calls among those [allowed]. *)
Inductive reachable (allowed : call -> bool) : state -> Prop :=
| reachable_fresh h calls s :
    createGameLogic VUndefined h calls = Returns s -> reachable allowed s
| reachable_step c s s' :
    reachable allowed s -> allowed c = true -> step c s s' ->
    reachable allowed s'.

(** A sequence of calls. *)
Inductive steps : list call -> state -> state -> Prop :=
| steps_nil s : steps [] s s
| steps_cons c cs s s' s'' :
    step c s s' -> steps cs s' s'' -> steps (c :: cs) s s''.

(** [n] calls of [runRound]; the results of the calls, first call first,
    and the final state. *)
Fixpoint runRounds (n : nat) (s : state) : outcome (list bool) * state :=
  match n with
  | O => (Returns [], s)
  | S n' =>
      match runRound random s with
      | (Returns b, s') =>
          match runRounds n' s' with
          | (Returns bs, s'') => (Returns (b :: bs), s'')
          | other => other
          end
      | (Throws, s') => (Throws, s')
      | (Unsupported, s') => (Unsupported, s')
      end
  end.

End Calls.

Definition any_call (c : call) : bool := true.
Definition no_import (c : call) : bool := negb (is_import c).

(** [n] calls of [undoLastRound]; the results of the calls, first call
    first, and the final state. *)
Fixpoint undoRounds (n : nat) (s : state) : outcome (list bool) * state :=
  match n with
  | O => (Returns [], s)
  | S n' =>
      match undoLastRound s with
      | (Returns b, s') =>
          match undoRounds n' s' with
          | (Returns bs, s'') => (Returns (b :: bs), s'')
          | other => other
          end
      | (Throws, s') => (Throws, s')
      | (Unsupported, s') => (Unsupported, s')
      end
  end.

(** From [s] to [s'] the store has only grown; every object of [s]
    that is not one of the player objects of its roster is as it was;
    and the roster of [s'], array and player objects, is made of the
    objects of the roster of [s] or of new objects. *)
Definition leaves_others (s s' : state) : Prop :=
  (length (heap s) <= length (heap s'))%nat /\
  (forall l : loc, (l < length (heap s))%nat ->
                   ~ In l (player_cells (heap s) (players s)) ->
                   heap s' !! l = heap s !! l) /\
  (forall l : loc, In l (player_cells (heap s') (players s')) ->
                   (l < length (heap s))%nat ->
                   In l (player_cells (heap s) (players s))) /\
  (forall l : loc, players s' = VRef l -> (l < length (heap s))%nat ->
                   players s = VRef l).

(** The objects of a roster: the array and the player objects. *)
Definition roster_cells (h : list object) (v : value) : list loc :=
  match v with
  | VRef l => l :: player_cells h v
  | _ => []
  end.

(** [l] holds the Player record [p]. *)
Definition cell (h : list object) (l : loc) (p : Player) : Prop :=
  h !! l = Some (player_object p) /\ counted (score p) = true.

(** [v] holds the roster [ps] in the store [h], and [ls] are its player
    objects. *)
Definition roster_at (h : list object) (v : value) (ls : list loc) (ps : list Player)
  : Prop :=
  exists l : loc,
    v = VRef l /\
    h !! l = Some (Arr (map VRef ls)) /\
    List.NoDup ls /\
    Forall2 (cell h) ls ps.

(** [v] is a snapshot object holding the roster [ps] and the round [r],
    and none of its player objects is among [ls]. *)
Definition snapshot_at (h : list object) (ls : list loc) (v : value)
    (snap : list Player * number) : Prop :=
  exists (l : loc) (pv : value) (ls' : list loc),
    v = VRef l /\
    h !! l = Some (snapshot_object pv (snd snap)) /\
    roster_at h pv ls' (fst snap) /\
    (forall x : loc, In x ls -> ~ In x ls').

(** The objects that [JSON.parse] adds to the store [h] for the text of
    the roster [ps]: the player objects, then the array. *)
Definition copied (h : list object) (ps : list Player) : list object :=
  map player_object ps ++ [Arr (map VRef (seq (length h) (length ps)))].

(** The objects that [getGameState] adds to the store [h] on the roster
    [ps] in round [r]: a copy of the roster, then the snapshot object. *)
Definition exported (h : list object) (ps : list Player) (r : number) : list object :=
  copied h ps ++ [snapshot_object (VRef (length h + length ps)%nat) r].

(** Every score is below [2^53]: [score += POINTS_PER_SCORE] is the sum
    of integers. *)
Definition can_score (ps : list Player) : Prop :=
  Forall (fun p => score p < 2 ^ 53) ps.

(** [st] is not a reference that points outside the store. *)
Definition in_store (h : list object) (v : value) : Prop :=
  match v with
  | VRef l => (l < length h)%nat
  | _ => True
  end.

(** [players[i].k] *)
Definition player_field (s : state) (i : Z) (k : string) : outcome value :=
  player <~ index (heap s) (players s) i ;;
  get (heap s) player k.

(** A value that is not a reference to an object outside [a .. b-1]. *)
Definition fresh_value (a b : nat) (v : value) : Prop :=
  match v with
  | VRef l => (a <= l < b)%nat
  | _ => True
  end.

(** The objects [news] hold no reference to an object outside
    [a .. b-1]. *)
Definition closed_in (a b : nat) (news : list object) : Prop :=
  Forall (fun o => Forall (fresh_value a b) (object_values o)) news.

(** A primitive that JSON writes and reads back as it is. *)
Definition plain (v : value) : bool :=
  match v with
  | VBool _ | VStr _ => true
  | VNum n => finite n
  | _ => false
  end.

(** What [setGameState(st)] and [createGameLogic(st)] do with a state
    that passes their check, by the text of [st.players]: with a text,
    the roster parsed from it is adopted with the counter [n]; without
    one ([JSON.stringify] returns [undefined], or raises on a BigInt or
    on a cycle) the call raises. *)
Definition adopted (h : list object) (ps : value) : outcome (value * list object) :=
  match stringify h ps with
  | Returns (Some text) => Returns (build text h)
  | Returns None => Throws
  | Throws => Throws
  | Unsupported => Unsupported
  end.

(** ** The scoreboard (App.js, assignment.js) *)

(** The game state that [syncState] sets, from the round it reads:
    [newRound >= totalRounds && totalRounds > 0], else [newRound > 0],
    else. *)
Definition gameStateOf (newRound totalRounds : number) : string :=
  if number_leb totalRounds newRound && number_ltb (Int 0) totalRounds
  then "finished"
  else if number_ltb (Int 0) newRound then "playing"
  else "ready".

Definition syncState (s : state) : string :=
  gameStateOf (getCurrentRound s) (getTotalRounds s).

Section Sort.

Context {A : Type}.
Variable key : A -> Z.

(** [xs.sort((a, b) => key(b) - key(a))] on a copy of the array.  The
    sort of an array is stable, and with this comparator its result does
    not depend on the algorithm; it is computed here by insertion. *)
Fixpoint insertDescending (x : A) (sorted : list A) : list A :=
  match sorted with
  | [] => [x]
  | y :: rest =>
      if key x <? key y then y :: insertDescending x rest
      else x :: y :: rest
  end.

Definition sortDescending (xs : list A) : list A :=
  fold_right insertDescending [] xs.

End Sort.

(** [[...players].sort((a, b) => b.score - a.score)] of [Scoreboard]. *)
Definition sortedPlayers (ps : list Player) : list Player :=
  sortDescending score ps.

(** ** The first script (assignment.js) *)

Definition legacyPlayers : list Player :=
  [ mkPlayer "bob" None 0;
    mkPlayer "asd" None 0;
    mkPlayer "dsa" None 0;
    mkPlayer "bocxzb" None 0 ].

Definition deckOfCards : nat := 40.

(** [players[player].cardHeld = null] for every player. *)
Definition clearCards (ps : list Player) : list Player :=
  map (fun p => mkPlayer (name p) None (score p)) ps.

Section Script.

Variable random : nat -> random_number.

(** The body of the game loop for one value of [startOfDraw], the first
    card coming from call [k]: everybody draws, the round is scored when
    [startOfDraw % players.length === 0], and the cards are cleared.
    ([Math.random() * 12] is [Math.random() * MAX_CARD_VALUE], and
    [pointsPerScore] is [POINTS_PER_SCORE].) *)
Definition scriptDraw (startOfDraw k : nat) (ps : list Player) : list Player :=
  let dealt := deal random k ps in
  clearCards
    (if negb (length ps =? 0)%nat && (startOfDraw mod length ps =? 0)%nat
     then award (biggest dealt 0) dealt
     else dealt).

(** [n] iterations of the loop, from [startOfDraw]. *)
Fixpoint scriptLoop (n : nat) (startOfDraw k : nat) (ps : list Player)
  : list Player :=
  match n with
  | O => ps
  | S n' =>
      scriptLoop n' (S startOfDraw) (k + length ps)%nat (scriptDraw startOfDraw k ps)
  end.

(** The roster when the loop ends. *)
Definition scriptGame : list Player := scriptLoop deckOfCards 0 0 legacyPlayers.

(** The rosters dealt and scored in the iterations that score, in
    order (before their cards are cleared). *)
Fixpoint scriptRounds (n : nat) (startOfDraw k : nat) (ps : list Player)
  : list (list Player) :=
  match n with
  | O => []
  | S n' =>
      let rest := scriptRounds n' (S startOfDraw) (k + length ps)%nat
                    (scriptDraw startOfDraw k ps) in
      if negb (length ps =? 0)%nat && (startOfDraw mod length ps =? 0)%nat
      then playedRound random k ps :: rest
      else rest
  end.

End Script.

(** [sortable]: the pairs [[name, score]], and their sort by
    [b[1] - a[1]] in [displayHighestRank]. *)
Definition ranking (ps : list Player) : list (string * Z) :=
  sortDescending snd (map (fun p => (name p, score p)) ps).

(** ** What a command leaves alone *)

(** Every run of the command [c] takes a state to a state related to it
    by [R], whether it returns or raises. *)
Definition preserves {A} (R : state -> state -> Prop) (c : M A) : Prop :=
  forall (s : state) (o : outcome A) (s' : state), c s = (o, s') -> R s s'.

(** From [s] to [s'] only objects among [ls] were written, and none of
    them is an array or has become one; the roster variable is the
    same. *)
Definition touches (ls : list loc) (s s' : state) : Prop :=
  players s' = players s /\
  length (heap s') = length (heap s) /\
  (forall l : loc, ~ In l ls -> heap s' !! l = heap s !! l) /\
  (forall (l : loc) (els : list value),
      heap s' !! l = Some (Arr els) <-> heap s !! l = Some (Arr els)).

(** [leaves_others], for an engine whose roster is not a reference that
    points outside the store. *)
Definition kept (s s' : state) : Prop :=
  in_store (heap s) (players s) ->
  leaves_others s s' /\ in_store (heap s') (players s').

(** [e.players[i].k], for an object [e] that [getGameState] returned. *)
Definition exported_field (h : list object) (e : value) (i : Z) (k : string)
  : outcome value :=
  ps <~ get h e "players" ;;
  player <~ index h ps i ;;
  get h player k.

(** ** Runs of calls *)

Section Runs.

Variable random : nat -> random_number.

(** The state after the call [c] in state [s]; [None] when the call
    does not complete within the model.  The loop is given
    [TOTAL_ROUNDS] iterations. *)
Definition perform (c : call) (s : state) : option state :=
  let finish {A : Type} (r : outcome A * state) : option state :=
    match fst r with
    | Unsupported => None
    | _ => Some (snd r)
    end in
  match c with
  | ModifyPlayerName i n => finish (modifyPlayerName i n s)
  | RunRound => finish (runRound random s)
  | UndoLastRound => finish (undoLastRound s)
  | RunGameLoop =>
      match runGameLoop random (Z.to_nat TOTAL_ROUNDS) s with
      | Some r => finish r
      | None => None
      end
  | GetGameState => finish (getGameState s)
  | SetGameState st => finish (setGameState st s)
  | ResetGame => finish (resetGame s)
  | NewObject o => Some (set_heap (heap s ++ [o]) s)
  end.

Fixpoint performs (cs : list call) (s : state) : option state :=
  match cs with
  | [] => Some s
  | c :: rest =>
      match perform c s with
      | Some s' => performs rest s'
      | None => None
      end
  end.

End Runs.

(** ** Sample engines *)

(** A generator that always returns 0: everybody draws card 1. *)
Definition always_zero : nat -> random_number := fun _ => mkRandom (Int 0) eq_refl.

(** A generator that returns, in turn: the largest double below 1, the
    double nearest to 1/3, 0 and 1/2.  The cards are 12, 5, 1 and 7. *)
Definition four_doubles : nat -> random_number :=
  fun k =>
    match (k mod 4)%nat with
    | 0%nat => mkRandom (Frac (2 ^ 53 - 1) 53) eq_refl
    | 1%nat => mkRandom (Frac 6004799503160661 54) eq_refl
    | 2%nat => mkRandom (Int 0) eq_refl
    | _ => mkRandom (Frac 1 1) eq_refl
    end.

(** A generator that returns 0 in the iterations of the first script
    that score, and 1/2 in the others. *)
Definition half_when_discarded : nat -> random_number :=
  fun k => if ((k / 4) mod 4 =? 0)%nat then mkRandom (Int 0) eq_refl
           else mkRandom (Frac 1 1) eq_refl.

(** The engine [createGameLogic()] in an empty store: the player
    objects are at 0 to 3 and the roster array at 4. *)
Definition fresh_engine : state :=
  match createGameLogic VUndefined [] 0 with
  | Returns s => s
  | _ => mkState [] 0 VUndefined NaN []
  end.

(** The fresh engine after the calls [cs]. *)
Definition engine_after (random : nat -> random_number) (cs : list call) : state :=
  match performs random cs fresh_engine with
  | Some s => s
  | None => fresh_engine
  end.

Local Open Scope js_scope.

(** * Properties *)

Lemma TOTAL_ROUNDS_value : TOTAL_ROUNDS = 10.
Proof. reflexivity. Qed.

(** ** Arithmetic on doubles *)

Lemma round_nearest_even_exact (m : Z) : round_nearest_even m 0 = m.
Proof.
  unfold round_nearest_even. change (2 ^ 0) with 1.
  rewrite Z.mod_1_r, Z.div_1_r. reflexivity.
Qed.

(** Rounding moves a number by half a unit at most. *)
Lemma round_nearest_even_bounds (m k : Z) :
  0 <= m -> 0 <= k ->
  m / 2 ^ k <= round_nearest_even m k /\
  2 * (round_nearest_even m k * 2 ^ k) <= 2 * m + 2 ^ k.
Proof.
  intros Hm Hk. unfold round_nearest_even.
  assert (Hp : 0 < 2 ^ k) by (apply Z.pow_pos_nonneg; lia).
  pose proof (Z.div_mod m (2 ^ k) ltac:(lia)) as Hdiv.
  pose proof (Z.mod_pos_bound m (2 ^ k) Hp) as Hmod.
  set (q := m / 2 ^ k) in *. set (r := m mod 2 ^ k) in *.
  destruct (Z.compare_spec (2 * r) (2 ^ k)); [destruct (Z.even q)| |]; split; nia.
Qed.

Lemma trailing_zeros_nonneg (p : positive) : 0 <= trailing_zeros p.
Proof. induction p; cbn [trailing_zeros]; lia. Qed.

(** The integer part of [m * 2^e]. *)
Lemma number_floor_dyadic (m e : Z) :
  number_floor (dyadic m e)
  = Int (if 0 <=? e then m * 2 ^ e else m / 2 ^ (- e)).
Proof.
  unfold dyadic. destruct (Z.leb_spec 0 e) as [He|He]; [reflexivity|].
  assert (Hgen : forall p : positive, m = Z.pos p \/ m = Z.neg p ->
    number_floor
      (let t := Z.min (trailing_zeros p) (- e) in
       if e + t =? 0 then Int (m / 2 ^ t)
       else Frac (m / 2 ^ t) (Z.to_pos (- (e + t))))
    = Int (m / 2 ^ (- e))).
  { intros p _. cbv zeta. pose proof (trailing_zeros_nonneg p) as Ht.
    set (t := Z.min (trailing_zeros p) (- e)).
    assert (0 <= t <= - e) by (subst t; lia).
    destruct (Z.eqb_spec (e + t) 0) as [H0|H0]; cbn [number_floor].
    - f_equal. f_equal. f_equal. lia.
    - f_equal. rewrite Z2Pos.id by lia.
      rewrite Z.div_div by (try apply Z.pow_pos_nonneg; lia).
      rewrite <- Z.pow_add_r by lia. f_equal. f_equal. lia. }
  destruct m as [|p|p]; [now rewrite Z.div_0_l by (apply Z.pow_nonzero; lia)| |];
    apply Hgen; auto.
Qed.

Lemma round_double_small (m : Z) : Z.abs m < 2 ^ 53 -> round_double m 0 = Int m.
Proof.
  intros Hm. unfold round_double.
  assert (Hlog : Z.log2 (Z.abs m) < 53).
  { destruct (Z.eq_dec (Z.abs m) 0) as [-> | Hne]; [reflexivity|].
    apply Z.log2_lt_pow2; lia. }
  replace (Z.max 0 (Z.max (Z.log2 (Z.abs m) + 1 - 53) (- 1074 - 0))) with 0 by lia.
  rewrite round_nearest_even_exact.
  assert (Hlog' : (1024 <=? Z.log2 (Z.abs m) + (0 + 0)) = false)
    by (apply Z.leb_gt; pose proof (Z.log2_nonneg (Z.abs m)); lia).
  rewrite Hlog', andb_false_r. unfold dyadic. cbn [Z.add Z.leb Z.compare].
  rewrite (Z.mul_comm (Z.sgn m)), Z.abs_sgn. f_equal. change (2 ^ 0) with 1. lia.
Qed.

(** Sums of integers are exact up to [2^53]. *)
Lemma number_add_Int (x y : Z) :
  Z.abs (x + y) <= 2 ^ 53 -> number_add (Int x) (Int y) = Int (x + y).
Proof.
  intros H. cbn [number_add].
  destruct (Z.eq_dec (x + y) (2 ^ 53)) as [-> | Hhi]; [reflexivity|].
  destruct (Z.eq_dec (x + y) (- 2 ^ 53)) as [-> | Hlo]; [reflexivity|].
  apply round_double_small. lia.
Qed.

Lemma counted_spec (z : Z) : counted z = true <-> - 2 ^ 53 <= z <= 2 ^ 53.
Proof. unfold counted. rewrite andb_true_iff, !Z.leb_le. reflexivity. Qed.

(** [score += POINTS_PER_SCORE] adds the points to a score below
    [2^53], and leaves a score of [2^53] as it is. *)
Lemma add_points_spec (z : Z) :
  counted z = true ->
  number_add (Int z) (Int POINTS_PER_SCORE) = Int (add_points z) /\
  counted (add_points z) = true /\
  (z < 2 ^ 53 -> add_points z = z + POINTS_PER_SCORE) /\
  (z = 2 ^ 53 -> add_points z = z).
Proof.
  rewrite counted_spec. intros Hz. unfold add_points, POINTS_PER_SCORE.
  destruct (Z.eq_dec z (2 ^ 53)) as [-> | Hne].
  - repeat split; try reflexivity. lia.
  - rewrite number_add_Int by lia. repeat split; try lia.
    apply counted_spec. lia.
Qed.

(** Below [-2^53] a sum with 1 stays below [-2^53]. *)
Lemma number_add_one_below (z b : Z) :
  z <= b -> b + 1 <= 2 ^ 53 ->
  below (Z.max (b + 1) (- 2 ^ 53)) (number_add (Int z) (Int 1)).
Proof.
  intros Hz Hb.
  destruct (Z.le_gt_cases (- 2 ^ 53) (z + 1)) as [Hlo|Hlo].
  { rewrite number_add_Int by lia. cbn [below]. lia. }
  cbn [number_add]. unfold round_double.
  set (a := Z.abs (z + 1)). assert (Ha : 2 ^ 53 < a) by (subst a; lia).
  assert (Hapos : 0 < a) by lia.
  pose proof (Z.log2_spec a Hapos) as [Hl1 Hl2].
  assert (HL : 53 <= Z.log2 a).
  { apply Z.log2_le_pow2; lia. }
  set (L := Z.log2 a) in *.
  replace (Z.max 0 (Z.max (L + 1 - 53) (- 1074 - 0))) with (L - 52) by lia.
  pose proof (round_nearest_even_bounds a (L - 52) ltac:(lia) ltac:(lia)) as [Hq _].
  set (a' := round_nearest_even a (L - 52)) in *.
  assert (Hp : 0 < 2 ^ (L - 52)) by (apply Z.pow_pos_nonneg; lia).
  assert (Ha' : 2 ^ 52 <= a').
  { etransitivity; [|exact Hq]. apply Z.div_le_lower_bound; [lia|].
    rewrite Z.mul_comm, <- Z.pow_add_r by lia.
    replace (52 + (L - 52)) with L by lia. exact Hl1. }
  replace (z + 1 <? 0) with true by (symmetry; apply Z.ltb_lt; lia).
  destruct (_ && _); [exact I|].
  unfold dyadic. replace (0 <=? 0 + (L - 52)) with true by (symmetry; apply Z.leb_le; lia).
  cbn [below]. replace (Z.sgn (z + 1)) with (-1) by (symmetry; apply Z.sgn_neg; lia).
  replace (0 + (L - 52)) with (L - 52) by lia.
  assert (2 ^ 53 <= a' * 2 ^ (L - 52)).
  { change (2 ^ 53) with (2 ^ 52 * 2 ^ 1).
    apply Z.mul_le_mono_nonneg; try lia.
    apply Z.pow_le_mono_r; lia. }
  lia.
Qed.

(** The card drawn: [Math.floor(r * MAX_CARD_VALUE) + 1] for a double
    [r] in [0, 1), the product being rounded to a double. *)
Lemma newCard_range (r : number) :
  in_unit r = true ->
  exists c : Z,
    number_add (number_floor (number_mul r (Int MAX_CARD_VALUE))) (Int 1) = Int c /\
    1 <= c <= MAX_CARD_VALUE.
Proof.
  unfold MAX_CARD_VALUE. destruct r as [z|m e| |]; cbn [in_unit]; try discriminate.
  { intros Hz. apply Z.eqb_eq in Hz. subst z. exists 1. split; [reflexivity | lia]. }
  intros H. apply andb_prop in H as [H He]. apply andb_prop in H as [H H53].
  apply andb_prop in H as [H0 H1].
  apply Z.ltb_lt in H0, H1, H53. apply Z.leb_le in He.
  cbn [number_mul]. set (E := Z.pos e) in *. assert (HE : 0 < E) by (subst E; lia).
  unfold round_double. rewrite Z.abs_eq by lia.
  set (a := 12 * m). assert (Ha : 0 < a) by (subst a; lia).
  pose proof (Z.log2_spec a Ha) as [Hl1 Hl2].
  assert (HL : Z.log2 a < 57).
  { apply Z.log2_lt_pow2; [lia|]. subst a. change (2 ^ 57) with (16 * 2 ^ 53). lia. }
  pose proof (Z.log2_nonneg a) as HL0.
  set (L := Z.log2 a) in *.
  set (k := Z.max 0 (Z.max (L + 1 - 53) (- 1074 - - E))).
  assert (Hk : 0 <= k <= 4) by (subst k; lia).
  pose proof (round_nearest_even_bounds a k ltac:(lia) ltac:(lia)) as [Hq Hhalf].
  set (a' := round_nearest_even a k) in *.
  assert (Hpk : 0 < 2 ^ k) by (apply Z.pow_pos_nonneg; lia).
  assert (Hpk4 : 2 ^ k <= 16).
  { change 16 with (2 ^ 4). apply Z.pow_le_mono_r; lia. }
  assert (HpE : 0 < 2 ^ E) by (apply Z.pow_pos_nonneg; lia).
  assert (Ha'0 : 0 <= a').
  { etransitivity; [|exact Hq]. apply Z.div_pos; lia. }
  assert (Hkey : a' * 2 ^ k < 12 * 2 ^ E) by (subst a; nia).
  assert (Hover : (0 <? a') && (1024 <=? Z.log2 a' + (- E + k)) = false).
  { destruct (Z.ltb_spec 0 a') as [Hpos|]; [|reflexivity]. cbn [andb].
    apply Z.leb_gt. destruct (Z.lt_ge_cases (Z.log2 a' + (- E + k)) 1024) as [|Hbig];
      [assumption | exfalso].
    pose proof (Z.log2_spec a' Hpos) as [Hl1' _].
    pose proof (Z.log2_nonneg a') as HL0'.
    assert (2 ^ (1024 + E) <= a' * 2 ^ k).
    { replace (1024 + E) with ((1024 + E - k) + k) by lia.
      rewrite Z.pow_add_r by lia.
      apply Z.mul_le_mono_nonneg_r; [lia|].
      etransitivity; [|exact Hl1']. apply Z.pow_le_mono_r; lia. }
    rewrite Z.pow_add_r in H by lia.
    assert (12 < 2 ^ 1024) by (now vm_compute).
    nia. }
  rewrite Hover. replace (Z.sgn a) with 1 by (symmetry; apply Z.sgn_pos; lia).
  rewrite Z.mul_1_l, number_floor_dyadic.
  assert (Hf : 0 <= (if 0 <=? - E + k then a' * 2 ^ (- E + k)
                     else a' / 2 ^ (- (- E + k))) <= 11).
  { destruct (Z.leb_spec 0 (- E + k)) as [Hge|Hlt].
    - assert (Hp : 0 < 2 ^ (- E + k)) by (apply Z.pow_pos_nonneg; lia).
      assert (Heq : a' * 2 ^ k = a' * 2 ^ (- E + k) * 2 ^ E).
      { rewrite <- Z.mul_assoc, <- Z.pow_add_r by lia. do 2 f_equal. lia. }
      nia.
    - replace (- (- E + k)) with (E - k) by lia.
      assert (Hp : 0 < 2 ^ (E - k)) by (apply Z.pow_pos_nonneg; lia).
      assert (Heq : 2 ^ E = 2 ^ (E - k) * 2 ^ k).
      { rewrite <- Z.pow_add_r by lia. f_equal. lia. }
      split; [apply Z.div_pos; lia|].
      assert (a' / 2 ^ (E - k) < 12); [|lia].
      apply Z.div_lt_upper_bound; [lia|]. nia. }
  eexists. split; [apply number_add_Int|]; lia.
Qed.

(** ** Player records in the store *)

Lemma read_player_object (p : Player) :
  counted (score p) = true -> read_player (player_object p) = Some p.
Proof.
  intros H. destruct p as [n [c|] sc]; cbn in *; now rewrite H.
Qed.

Lemma read_player_inv (o : object) (p : Player) :
  read_player o = Some p -> o = player_object p /\ counted (score p) = true.
Proof.
  destruct o as [els|props|]; try discriminate.
  destruct props as [|[k1 v1] [|[k2 v2] [|[k3 v3] [|]]]]; try discriminate;
    cbn [read_player]; destruct v1; try discriminate;
    destruct v3 as [| | |[sc| | |]| | | |]; try discriminate.
  destruct (String.eqb_spec k1 "name") as [->|]; [|discriminate].
  destruct (String.eqb_spec k2 "cardHeld") as [->|]; [|discriminate].
  destruct (String.eqb_spec k3 "score") as [->|]; [|discriminate].
  cbn [andb]. destruct (counted sc) eqn:Hsc; [|discriminate].
  destruct v2 as [| | |[c| | |]| | | |]; try discriminate;
    intros [= <-]; split; reflexivity || assumption.
Qed.

Lemma on_path_spec (l : loc) (path : list loc) : on_path l path = true <-> In l path.
Proof.
  unfold on_path. rewrite existsb_exists. split.
  - intros (x & Hx & Heq). apply Nat.eqb_eq in Heq. now subst.
  - intros H. exists l. split; [assumption | apply Nat.eqb_refl].
Qed.

Lemma on_path_false (l : loc) (path : list loc) : on_path l path = false <-> ~ In l path.
Proof.
  rewrite <- on_path_spec. destruct (on_path l path).
  - split; [discriminate | intros H; exfalso; now apply H].
  - split; [intros _ H; discriminate | reflexivity].
Qed.

Lemma distinct_spec (ls : list loc) : distinct ls = true <-> List.NoDup ls.
Proof.
  induction ls as [|l ls IH]; cbn [distinct].
  - split; [constructor | reflexivity].
  - rewrite andb_true_iff, negb_true_iff, on_path_false, IH. split.
    + intros [H1 H2]. now constructor.
    + intros H. inversion H; subst. auto.
Qed.

Lemma disjoint_spec (xs ys : list loc) :
  disjoint xs ys = true <-> forall x : loc, In x xs -> ~ In x ys.
Proof.
  unfold disjoint. rewrite forallb_forall. split.
  - intros H x Hx. apply on_path_false. specialize (H x Hx).
    now apply negb_true_iff in H.
  - intros H x Hx. apply negb_true_iff, on_path_false. auto.
Qed.

Lemma refs_of_refs (ls : list loc) : refs_of (map VRef ls) = ls.
Proof. induction ls as [|l ls IH]; cbn; congruence. Qed.

Lemma read_players_inv (h : list object) (els : list value) (ps : list Player) :
  read_players h els = Some ps ->
  els = map VRef (refs_of els) /\ Forall2 (cell h) (refs_of els) ps.
Proof.
  revert ps. induction els as [|e els IH]; intros ps; cbn [read_players].
  - intros [= <-]. split; [reflexivity | constructor].
  - destruct e; try discriminate.
    destruct (h !! l) as [o|] eqn:Hl; [|discriminate].
    destruct (read_player o) as [p|] eqn:Hp; [|discriminate].
    destruct (read_players h els) as [ps'|]; [|discriminate].
    intros [= <-]. destruct (IH ps' eq_refl) as [Hels Hall].
    apply read_player_inv in Hp as [-> Hc].
    cbn [refs_of map]. split; [now rewrite <- Hels|].
    constructor; [now split | assumption].
Qed.

Lemma read_players_intro (h : list object) (ls : list loc) (ps : list Player) :
  Forall2 (cell h) ls ps -> read_players h (map VRef ls) = Some ps.
Proof.
  induction 1 as [|l p ls ps [Hl Hc] _ IH]; [reflexivity|].
  cbn [map read_players]. now rewrite Hl, (read_player_object p Hc), IH.
Qed.

(** What [read_roster] reads. *)
Lemma read_roster_inv (h : list object) (v : value) (ps : list Player) :
  read_roster h v = Some ps -> roster_at h v (player_cells h v) ps.
Proof.
  unfold read_roster, roster_at, player_cells. destruct v; try discriminate.
  destruct (h !! l) as [[els| |]|] eqn:Hl; try discriminate.
  destruct (distinct (refs_of els)) eqn:Hd; [|discriminate].
  intros H. apply read_players_inv in H as [Hels Hall].
  exists l. split; [reflexivity|]. split; [now rewrite <- Hels|].
  split; [now apply distinct_spec | assumption].
Qed.

Lemma read_roster_intro (h : list object) (v : value) (ls : list loc) (ps : list Player) :
  roster_at h v ls ps -> read_roster h v = Some ps /\ player_cells h v = ls.
Proof.
  intros (l & -> & Hl & Hnd & Hall). unfold read_roster, player_cells.
  rewrite Hl, refs_of_refs. apply distinct_spec in Hnd. rewrite Hnd.
  split; [now apply read_players_intro | reflexivity].
Qed.

Lemma roster_at_length (h : list object) (v : value) (ls : list loc) (ps : list Player) :
  roster_at h v ls ps -> length ls = length ps.
Proof. intros (l & _ & _ & _ & Hall). eapply Forall2_length; eassumption. Qed.

Lemma cells_In (h : list object) (ls : list loc) (ps : list Player) (x : loc) :
  Forall2 (cell h) ls ps -> In x ls -> exists p, h !! x = Some (player_object p).
Proof.
  induction 1 as [|l p ls ps [Hl _] _ IH]; [intros []|].
  intros [<- | Hin]; eauto.
Qed.

Lemma cells_valid (h : list object) (ls : list loc) (ps : list Player) (x : loc) :
  Forall2 (cell h) ls ps -> In x ls -> (x < length h)%nat.
Proof.
  intros Hall Hin. destruct (cells_In h ls ps x Hall Hin) as [p Hp].
  eapply lookup_lt_Some; eassumption.
Qed.

(** Cells that are not written keep their records. *)
Lemma cells_frame (h h' : list object) (ls : list loc) (ps : list Player) :
  Forall2 (cell h) ls ps ->
  (forall x : loc, In x ls -> h' !! x = h !! x) ->
  Forall2 (cell h') ls ps.
Proof.
  induction 1 as [|l p ls ps [Hl Hc] _ IH]; intros Hframe; constructor.
  - split; [|assumption]. rewrite Hframe; [assumption | now left].
  - apply IH. intros x Hx. apply Hframe. now right.
Qed.

Lemma roster_at_frame (h h' : list object) (v : value) (ls : list loc)
    (ps : list Player) :
  roster_at h v ls ps ->
  (forall x : loc, In x (roster_cells h v) -> h' !! x = h !! x) ->
  roster_at h' v ls ps.
Proof.
  intros Hr Hframe. pose proof (read_roster_intro _ _ _ _ Hr) as [_ Hcells].
  destruct Hr as (l & -> & Hl & Hnd & Hall).
  cbn [roster_cells] in Hframe. rewrite Hcells in Hframe.
  exists l. split; [reflexivity|]. split; [rewrite Hframe; [assumption | now left]|].
  split; [assumption|]. apply (cells_frame h); [assumption|].
  intros x Hx. apply Hframe. now right.
Qed.

(** A snapshot object and the player objects of a roster are different
    objects. *)
Lemma snapshot_not_player (pv : value) (r : number) (p : Player) :
  snapshot_object pv r <> player_object p.
Proof. discriminate. Qed.

Lemma roster_at_valid (h : list object) (v : value) (ls : list loc) (ps : list Player)
    (x : loc) :
  roster_at h v ls ps -> In x (roster_cells h v) -> (x < length h)%nat.
Proof.
  intros Hr Hx. pose proof (read_roster_intro _ _ _ _ Hr) as [_ Hcells].
  destruct Hr as (l & -> & Hl & Hnd & Hall). cbn [roster_cells] in Hx.
  rewrite Hcells in Hx. destruct Hx as [<- | Hx].
  - eapply lookup_lt_Some; eassumption.
  - eapply cells_valid; eassumption.
Qed.

(** A snapshot is untouched by what is written to the player objects
    [ls] of the roster, and by what is added to the store. *)
Lemma snapshot_at_frame (h h' : list object) (ls ls2 : list loc) (ps : list Player)
    (v : value) (snap : list Player * number) :
  snapshot_at h ls v snap ->
  Forall2 (cell h) ls ps ->
  (forall x : loc, (x < length h)%nat -> ~ In x ls -> h' !! x = h !! x) ->
  (forall x : loc, In x ls2 -> In x ls \/ (length h <= x)%nat) ->
  snapshot_at h' ls2 v snap.
Proof.
  intros (l & pv & ls' & -> & Hl & Hr & Hdisj) Hcells Hframe Hls2.
  pose proof (read_roster_intro _ _ _ _ Hr) as [_ Hpc].
  assert (Hl' : h' !! l = h !! l).
  { apply Hframe; [eapply lookup_lt_Some; eassumption|].
    intros Hin. destruct (cells_In _ _ _ _ Hcells Hin) as [p Hp].
    rewrite Hp in Hl. injection Hl as Hl. now destruct p. }
  exists l, pv, ls'. split; [reflexivity|]. split; [congruence|]. split.
  - apply (roster_at_frame h); [assumption|]. intros x Hx.
    apply Hframe; [eapply roster_at_valid; eassumption|].
    destruct Hr as (la & -> & Hla & _ & Hall). cbn [roster_cells] in Hx.
    rewrite Hpc in Hx. destruct Hx as [<- | Hx].
    + intros Hin. destruct (cells_In _ _ _ _ Hcells Hin) as [p Hp].
      rewrite Hp in Hla. discriminate.
    + intros Hin. exact (Hdisj x Hin Hx).
  - intros x Hx Hx'. destruct (Hls2 x Hx) as [Hin | Hnew]; [exact (Hdisj x Hin Hx')|].
    assert (x < length h)%nat; [|lia].
    destruct Hr as (la & _ & _ & _ & Hall). eapply (cells_valid h ls'); eassumption.
Qed.

(** ** The game state of the engine *)

Lemma read_snapshot_inv (h : list object) (v : value) (snap : list Player * number) :
  read_snapshot h v = Some snap ->
  exists (l : loc) (pv : value),
    v = VRef l /\ h !! l = Some (snapshot_object pv (snd snap)) /\
    read_roster h pv = Some (fst snap) /\ snapshot_cells h v = player_cells h pv.
Proof.
  unfold read_snapshot, snapshot_cells. destruct v; try discriminate.
  destruct (h !! l) as [[els|props|]|] eqn:Hl; try discriminate.
  destruct props as [|[k1 v1] [|[k2 v2] [|[k3 v3] [|]]]];
    try (intros H; cbn in H; discriminate H).
  - destruct v2; discriminate.
  - destruct v2 as [| | |r| | | |]; try discriminate;
      destruct v3 as [| | |[t| | |]| | | |]; try discriminate.
    destruct (String.eqb_spec k1 "players") as [->|]; [|discriminate].
    destruct (String.eqb_spec k2 "currentRound") as [->|]; [|discriminate].
    destruct (String.eqb_spec k3 "totalRounds") as [->|]; [|discriminate].
    cbn [andb]. destruct (Z.eqb_spec t TOTAL_ROUNDS) as [->|]; [|discriminate].
    destruct (read_roster h v1) as [ps|] eqn:Hps; [|discriminate].
    intros [= <-]. exists l, v1. auto.
  - destruct v2; try discriminate. destruct v3 as [| | |[t| | |]| | | |]; discriminate.
Qed.

Lemma read_snapshot_intro (h : list object) (l : loc) (pv : value) (ps : list Player)
    (r : number) :
  h !! l = Some (snapshot_object pv r) ->
  read_roster h pv = Some ps ->
  read_snapshot h (VRef l) = Some (ps, r) /\ snapshot_cells h (VRef l) = player_cells h pv.
Proof.
  intros Hl Hps. unfold read_snapshot, snapshot_cells. rewrite Hl.
  unfold snapshot_object. cbn. rewrite Z.eqb_refl, Hps. auto.
Qed.

Lemma represents_inv (s : state) (g : game) :
  represents s g ->
  roster_at (heap s) (players s) (player_cells (heap s) (players s)) (roster g) /\
  currentRound s = round g /\
  Forall2 (snapshot_at (heap s) (player_cells (heap s) (players s)))
          (stateHistory s) (history g).
Proof.
  unfold represents, read_game.
  destruct (read_roster (heap s) (players s)) as [ps|] eqn:Hps; [|discriminate].
  destruct (read_history (heap s) (stateHistory s)) as [snaps|] eqn:Hsnaps;
    [|discriminate].
  destruct (forallb _ _) eqn:Hall; [|discriminate].
  intros [= <-]. cbn [roster round history].
  split; [now apply read_roster_inv|]. split; [reflexivity|].
  rewrite forallb_forall in Hall.
  revert snaps Hsnaps Hall. generalize (player_cells (heap s) (players s)) as ls.
  intros ls. induction (stateHistory s) as [|v vs IH]; intros snaps; cbn [read_history].
  - intros [= <-] _. constructor.
  - destruct (read_snapshot (heap s) v) as [snap|] eqn:Hsnap; [|discriminate].
    destruct (read_history (heap s) vs) as [snaps'|]; [|discriminate].
    intros [= <-] Hall. constructor.
    + apply read_snapshot_inv in Hsnap as (l & pv & -> & Hl & Hr & Hcells).
      exists l, pv, (player_cells (heap s) pv).
      split; [reflexivity|]. split; [assumption|].
      split; [now apply read_roster_inv|].
      apply disjoint_spec. rewrite <- Hcells. apply Hall. now left.
    + apply IH; [reflexivity|]. intros x Hx. apply Hall. now right.
Qed.

Lemma represents_intro (s : state) (ls : list loc) (ps : list Player)
    (snaps : list (list Player * number)) :
  roster_at (heap s) (players s) ls ps ->
  Forall2 (snapshot_at (heap s) ls) (stateHistory s) snaps ->
  represents s (mkGame ps (currentRound s) snaps).
Proof.
  intros Hr Hsnaps. unfold represents, read_game.
  destruct (read_roster_intro _ _ _ _ Hr) as [-> ->].
  assert (H : read_history (heap s) (stateHistory s) = Some snaps /\
              forallb (fun v => disjoint ls (snapshot_cells (heap s) v)) (stateHistory s)
              = true).
  { induction Hsnaps as [|v [ps' r] vs snaps' Hv _ [IH1 IH2]]; [now split|].
    destruct Hv as (l & pv & ls' & -> & Hl & Hr' & Hdisj).
    destruct (read_roster_intro _ _ _ _ Hr') as [Hread Hcells].
    destruct (read_snapshot_intro _ _ _ _ _ Hl Hread) as [Hsnap Hsc].
    cbn [read_history forallb]. rewrite Hsnap, IH1, IH2, Hsc, Hcells.
    split; [reflexivity|]. rewrite andb_true_r. now apply disjoint_spec. }
  destruct H as [-> ->]. reflexivity.
Qed.

Lemma represents_roster (s : state) (g : game) :
  represents s g -> roster_is s (roster g).
Proof.
  intros H. apply represents_inv in H as (Hr & _).
  now apply read_roster_intro in Hr as [Hr _].
Qed.

Lemma represents_round (s : state) (g : game) :
  represents s g -> currentRound s = round g.
Proof. intros H. now apply represents_inv in H as (_ & Hr & _). Qed.

Lemma represents_history_length (s : state) (g : game) :
  represents s g -> length (stateHistory s) = length (history g).
Proof.
  intros H. apply represents_inv in H as (_ & _ & Hh).
  eapply Forall2_length; eassumption.
Qed.

Lemma state_eta (s : state) :
  mkState (heap s) (randomCalls s) (players s) (currentRound s) (stateHistory s) = s.
Proof. now destruct s. Qed.

(** ** JSON copies of rosters *)

Lemma stringify_player (fuel : nat) (h : list object) (path : list loc) (p : Player) :
  stringify_members (stringify_fuel fuel h path)
    [("name", VStr (name p)); ("cardHeld", card_value (cardHeld p));
     ("score", VNum (Int (score p)))]
  = Returns [("name", JStr (name p)); ("cardHeld", card_json (cardHeld p));
             ("score", JNum (Int (score p)))].
Proof. destruct p as [n [c|] sc]; destruct fuel; reflexivity. Qed.

Lemma stringify_fuel_array (fuel : nat) (h : list object) (path : list loc) (l : loc)
    (els : list value) :
  h !! l = Some (Arr els) -> on_path l path = false ->
  stringify_fuel (S fuel) h path (VRef l)
  = (js <~ stringify_elements (stringify_fuel fuel h (l :: path)) els ;;
     Returns (Some (JArr js))).
Proof. intros H1 H2. cbn [stringify_fuel]. now rewrite H1, H2. Qed.

Lemma stringify_fuel_object (fuel : nat) (h : list object) (path : list loc) (l : loc)
    (props : list (string * value)) :
  h !! l = Some (Obj props) -> on_path l path = false -> has_toJSON h props = false ->
  stringify_fuel (S fuel) h path (VRef l)
  = (ms <~ stringify_members (stringify_fuel fuel h (l :: path)) props ;;
     Returns (Some (JObj ms))).
Proof. intros H1 H2 H3. cbn [stringify_fuel]. now rewrite H1, H2, H3. Qed.

Lemma stringify_players (fuel : nat) (h : list object) (l : loc) (ls : list loc)
    (ps : list Player) :
  Forall2 (cell h) ls ps -> ~ In l ls ->
  stringify_elements (stringify_fuel (S fuel) h [l]) (map VRef ls)
  = Returns (map player_json ps).
Proof.
  induction 1 as [|li p ls ps [Hli _] _ IH]; intros Hl; [reflexivity|].
  cbn [map stringify_elements]. rewrite IH by (intros H; apply Hl; now right).
  rewrite (stringify_fuel_object fuel h [l] li _ Hli).
  - now rewrite stringify_player.
  - apply on_path_false. intros [-> | []]. apply Hl. now left.
  - reflexivity.
Qed.

(** The text of a roster of Player records. *)
Lemma stringify_roster (h : list object) (v : value) (ls : list loc) (ps : list Player) :
  roster_at h v ls ps -> stringify h v = Returns (Some (roster_json ps)).
Proof.
  intros (l & -> & Hl & Hnd & Hall). unfold stringify.
  assert (Hnot : ~ In l ls).
  { intros Hin. destruct (cells_In _ _ _ _ Hall Hin) as [p Hp].
    rewrite Hp in Hl. discriminate. }
  assert (Hlen : (l < length h)%nat) by (eapply lookup_lt_Some; eassumption).
  destruct (length h) as [|[|fuel]] eqn:Hh; [lia| |].
  - (* one object in the store: the roster is empty *)
    assert (l = 0%nat) by lia. subst l. destruct Hall as [|li p ls ps [Hli _] _].
    + rewrite (stringify_fuel_array 0%nat h [] 0%nat _ Hl eq_refl). reflexivity.
    + exfalso. assert (li < length h)%nat by (eapply lookup_lt_Some; eassumption).
      assert (li = 0%nat) by lia. subst li. apply Hnot. now left.
  - rewrite (stringify_fuel_array (S fuel) h [] l _ Hl eq_refl).
    now rewrite (stringify_players fuel h l ls ps Hall Hnot).
Qed.

Lemma build_player (p : Player) (h : list object) :
  build (player_json p) h = (VRef (length h), h ++ [player_object p]).
Proof. destruct p as [n [c|] sc]; reflexivity. Qed.

Lemma build_players (ps : list Player) (h : list object) :
  build_elements build (map player_json ps) h
  = (map VRef (seq (length h) (length ps)), h ++ map player_object ps).
Proof.
  revert h. induction ps as [|p ps IH]; intros h.
  - cbn. now rewrite app_nil_r.
  - cbn [map build_elements length seq]. rewrite build_player, IH.
    rewrite length_app. cbn [length]. rewrite <- app_assoc. cbn [app].
    now replace (length h + 1)%nat with (S (length h)) by lia.
Qed.

(** The roster parsed from the text of Player records: new player
    objects, then a new array of references to them. *)
Lemma build_roster (ps : list Player) (h : list object) :
  build (roster_json ps) h
  = (VRef (length h + length ps)%nat,
     h ++ map player_object ps ++ [Arr (map VRef (seq (length h) (length ps)))]).
Proof.
  unfold roster_json. cbn [build]. rewrite build_players.
  rewrite length_app, length_map, <- app_assoc. reflexivity.
Qed.

Lemma seq_cells (h : list object) (ps : list Player) (rest : list object) :
  Forall (fun p => counted (score p) = true) ps ->
  Forall2 (cell (h ++ map player_object ps ++ rest)) (seq (length h) (length ps)) ps.
Proof.
  revert h. induction ps as [|p ps IH]; intros h Hc; [constructor|].
  inversion Hc as [|? ? Hp Hps]; subst. cbn [length seq map]. constructor.
  - split; [|assumption]. rewrite lookup_app_r by lia.
    now rewrite Nat.sub_diag.
  - specialize (IH (h ++ [player_object p]) Hps).
    rewrite length_app in IH. cbn [length] in IH.
    replace (length h + 1)%nat with (S (length h)) in IH by lia.
    rewrite <- app_assoc in IH. exact IH.
Qed.

(** The store after [JSON.parse] of the text of a roster, and whatever
    is added after it. *)
Lemma roster_at_built (h : list object) (ps : list Player) (rest : list object) :
  Forall (fun p => counted (score p) = true) ps ->
  roster_at (h ++ map player_object ps
               ++ [Arr (map VRef (seq (length h) (length ps)))] ++ rest)
            (VRef (length h + length ps)%nat)
            (seq (length h) (length ps)) ps.
Proof.
  intros Hc. exists (length h + length ps)%nat. split; [reflexivity|].
  split; [|split; [apply List.seq_NoDup | now apply seq_cells]].
  rewrite lookup_app_r by lia. rewrite lookup_app_r by (rewrite length_map; lia).
  rewrite length_map.
  now replace (length h + length ps - length h - length ps)%nat with 0%nat by lia.
Qed.

Lemma roster_at_counted (h : list object) (v : value) (ls : list loc) (ps : list Player) :
  roster_at h v ls ps -> Forall (fun p => counted (score p) = true) ps.
Proof.
  intros (l & _ & _ & _ & Hall). induction Hall as [|li p ls ps [_ Hc] _ IH];
    constructor; assumption.
Qed.

(** [JSON.parse(JSON.stringify(v))] of a roster of Player records. *)
Lemma json_copy_roster (s : state) (v : value) (ls : list loc) (ps : list Player) :
  roster_at (heap s) v ls ps ->
  json_copy v s
  = (Returns (VRef (length (heap s) + length ps)%nat),
     set_heap (heap s ++ map player_object ps
                 ++ [Arr (map VRef (seq (length (heap s)) (length ps)))]) s).
Proof.
  intros Hr. unfold json_copy. rewrite (stringify_roster _ _ _ _ Hr).
  now rewrite build_roster.
Qed.

(** ** The operations on rosters of Player records *)

(** Unfolds the sequencing of commands. *)
Ltac run :=
  unfold bind, gets, modify, reads, ret, alloc,
    set_heap, set_players, set_currentRound, set_stateHistory, set_randomCalls;
  cbn [heap randomCalls players currentRound stateHistory].

Lemma roster_at_iterate (h : list object) (v : value) (ls : list loc) (ps : list Player) :
  roster_at h v ls ps -> iterate h v = Returns (map VRef ls).
Proof. intros (l & -> & Hl & _). cbn. now rewrite Hl. Qed.

Lemma roster_at_not_array (h : list object) (l : loc) (ls : list loc) (ps : list Player) :
  roster_at h (VRef l) ls ps -> ~ In l ls.
Proof.
  intros (l' & [= <-] & Hl & _ & Hall) Hin.
  destruct (cells_In _ _ _ _ Hall Hin) as [p Hp]. rewrite Hp in Hl. discriminate.
Qed.

(** A roster whose player objects have been written to. *)
Lemma roster_at_written (h h' : list object) (v : value) (ls : list loc)
    (ps ps' : list Player) :
  roster_at h v ls ps ->
  (forall x : loc, ~ In x ls -> h' !! x = h !! x) ->
  Forall2 (cell h') ls ps' ->
  roster_at h' v ls ps'.
Proof.
  intros Hr Hframe Hcells. pose proof Hr as (l & -> & Hl & Hnd & Hall).
  exists l. split; [reflexivity|]. split; [|split; assumption].
  rewrite Hframe; [assumption | eapply roster_at_not_array; eassumption].
Qed.

Lemma get_cardHeld (h : list object) (l : loc) (p : Player) :
  h !! l = Some (player_object p) ->
  get h (VRef l) "cardHeld" = Returns (card_value (cardHeld p)).
Proof. intros H. cbn [get]. now rewrite H. Qed.

Lemma get_score (h : list object) (l : loc) (p : Player) :
  h !! l = Some (player_object p) ->
  get h (VRef l) "score" = Returns (VNum (Int (score p))).
Proof. intros H. cbn [get]. now rewrite H. Qed.

Lemma biggest_lower_bound (ps : list Player) (b : Z) : b <= biggest ps b.
Proof.
  revert b. induction ps as [|p ps IH]; intros b; cbn [biggest]; [lia|].
  destruct (Z.ltb_spec b (cardNumber p)); etransitivity; [| apply IH | | apply IH]; lia.
Qed.

Lemma biggestCard_typed (ls : list loc) (ps : list Player) (b : Z) (s : state) :
  Forall2 (cell (heap s)) ls ps ->
  0 <= b ->
  biggestCard (map VRef ls) (VNum (Int b)) s = (Returns (VNum (Int (biggest ps b))), s).
Proof.
  intros Hall. revert b. induction Hall as [|l p ls ps [Hl _] _ IH]; intros b Hb;
    [reflexivity|].
  cbn [map biggestCard biggest]. unfold bind at 1, biggerCard. run.
  rewrite (get_cardHeld _ _ _ Hl). unfold cardNumber.
  destruct (cardHeld p) as [c|]; cbn [card_value gt to_numeric to_number obind number_ltb].
  - destruct (Z.ltb_spec b c); apply IH; lia.
  - destruct (Z.ltb_spec b 0); [lia|]. now apply IH.
Qed.

Lemma put_player (s : state) (l : loc) (p : Player) (k : string) (x : value)
    (p' : Player) :
  heap s !! l = Some (player_object p) ->
  Obj (set_prop k x [("name", VStr (name p)); ("cardHeld", card_value (cardHeld p));
                     ("score", VNum (Int (score p)))]) = player_object p' ->
  put (VRef l) k x s
  = (Returns tt, set_heap (<[l := player_object p']> (heap s)) s).
Proof. intros Hl Hp. unfold put. rewrite Hl. unfold player_object at 1. now rewrite Hp. Qed.

Lemma awardPoints_cell (s : state) (l : loc) (p : Player) (m : Z) :
  cell (heap s) l p ->
  awardPoints (VNum (Int m)) (VRef l) s
  = (Returns tt,
     set_heap (<[l := player_object
                        (if wins m p
                         then mkPlayer (name p) (cardHeld p) (add_points (score p))
                         else p)]> (heap s)) s).
Proof.
  intros [Hl Hc]. unfold awardPoints. unfold bind at 1, reads.
  rewrite (get_cardHeld _ _ _ Hl). unfold wins.
  assert (Hsame : set_heap (<[l := player_object p]> (heap s)) s = s).
  { unfold set_heap. rewrite list_insert_id by assumption. apply state_eta. }
  destruct (cardHeld p) as [c|] eqn:Hcard; cbn [card_value strict_eq number_eqb].
  - destruct (c =? m).
    + unfold bind at 1, reads. rewrite (get_score _ _ _ Hl).
      unfold bind at 1, reads. cbn [plus to_number obind].
      destruct (add_points_spec _ Hc) as (-> & _).
      apply (put_player s l p); [assumption|]. unfold player_object. cbn.
      now rewrite Hcard.
    + unfold ret. now rewrite Hsame.
  - unfold ret. now rewrite Hsame.
Qed.

Lemma award_counted (m : Z) (p : Player) :
  counted (score p) = true ->
  counted (score (if wins m p
                  then mkPlayer (name p) (cardHeld p) (add_points (score p))
                  else p)) = true.
Proof.
  intros Hc. destruct (wins m p); [|assumption]. cbn.
  now destruct (add_points_spec _ Hc) as (_ & H & _).
Qed.

(** The second loop of [resolveRound] on the player objects [ls]. *)
Lemma awardPoints_typed (ls : list loc) (ps : list Player) (m : Z) (s : state) :
  Forall2 (cell (heap s)) ls ps ->
  List.NoDup ls ->
  exists h',
    for_each (map VRef ls) (awardPoints (VNum (Int m))) s
    = (Returns tt, set_heap h' s) /\
    length h' = length (heap s) /\
    (forall x : loc, ~ In x ls -> h' !! x = heap s !! x) /\
    Forall2 (cell h') ls (award m ps).
Proof.
  revert ps s. induction ls as [|l ls IH]; intros ps s Hall Hnd.
  - inversion Hall; subst. exists (heap s). unfold set_heap. rewrite state_eta.
    repeat split; constructor.
  - inversion Hall as [|? p ? ps' Hcell Hrest]; subst.
    inversion Hnd as [|? ? Hl Hnd']; subst.
    cbn [map for_each]. unfold bind at 1. rewrite (awardPoints_cell _ _ _ _ Hcell).
    set (p' := if wins m p then _ else p).
    set (s1 := set_heap _ s).
    assert (Hlen : (l < length (heap s))%nat)
      by (destruct Hcell; eapply lookup_lt_Some; eassumption).
    assert (Hrest1 : Forall2 (cell (heap s1)) ls ps').
    { apply (cells_frame (heap s)); [assumption|]. intros x Hx. subst s1. cbn.
      apply list_lookup_insert_ne. intros ->. contradiction. }
    destruct (IH ps' s1 Hrest1 Hnd') as (h' & Hrun & Hlen' & Hframe & Hcells).
    exists h'. rewrite Hrun. split; [reflexivity|].
    split; [rewrite Hlen'; subst s1; cbn; now rewrite length_insert|].
    split.
    + intros x Hx. rewrite Hframe by (intros H; apply Hx; now right).
      subst s1. cbn. apply list_lookup_insert_ne. intros ->. apply Hx. now left.
    + cbn [award map]. constructor; [|exact Hcells].
      split; [|apply award_counted; now destruct Hcell].
      rewrite Hframe by assumption. subst s1. cbn.
      now apply list_lookup_insert_eq.
Qed.

Section Refinement.

Variable random : nat -> random_number.

Lemma card_number_card (k : nat) :
  card_number random k = Int (card random k) /\
  1 <= card random k <= MAX_CARD_VALUE.
Proof.
  destruct (newCard_range _ (in_range (random k))) as (c & Hc & Hrange).
  unfold card. fold (card_number random k) in Hc. now rewrite Hc.
Qed.

Lemma drawCard_cell (s : state) (l : loc) (p : Player) :
  heap s !! l = Some (player_object p) ->
  drawCard random (VRef l) s
  = (Returns tt,
     mkState (<[l := player_object
                        (mkPlayer (name p) (Some (card random (randomCalls s))) (score p))]>
                (heap s))
             (S (randomCalls s)) (players s) (currentRound s) (stateHistory s)).
Proof.
  intros Hl. unfold drawCard, newCard. unfold bind at 1. unfold bind at 1, Math_random.
  unfold ret at 1. fold (card_number random (randomCalls s)).
  destruct (card_number_card (randomCalls s)) as [-> _].
  rewrite (put_player _ l p "cardHeld" _
             (mkPlayer (name p) (Some (card random (randomCalls s))) (score p)));
    [reflexivity | assumption | reflexivity].
Qed.

(** [drawCards] on the player objects [ls]. *)
Lemma drawCards_typed (ls : list loc) (ps : list Player) (s : state) :
  Forall2 (cell (heap s)) ls ps ->
  List.NoDup ls ->
  exists h',
    for_each (map VRef ls) (drawCard random) s
    = (Returns tt, mkState h' (randomCalls s + length ps)%nat (players s)
                           (currentRound s) (stateHistory s)) /\
    length h' = length (heap s) /\
    (forall x : loc, ~ In x ls -> h' !! x = heap s !! x) /\
    Forall2 (cell h') ls (deal random (randomCalls s) ps).
Proof.
  revert ps s. induction ls as [|l ls IH]; intros ps s Hall Hnd.
  - inversion Hall; subst. exists (heap s). cbn [length]. rewrite Nat.add_0_r, state_eta.
    repeat split; constructor.
  - inversion Hall as [|? p ? ps' [Hcell Hc] Hrest]; subst.
    inversion Hnd as [|? ? Hl Hnd']; subst.
    cbn [map for_each]. unfold bind at 1. rewrite (drawCard_cell _ _ _ Hcell).
    set (s1 := mkState _ _ _ _ _).
    assert (Hlen : (l < length (heap s))%nat) by (eapply lookup_lt_Some; eassumption).
    assert (Hrest1 : Forall2 (cell (heap s1)) ls ps').
    { apply (cells_frame (heap s)); [assumption|]. intros x Hx. subst s1. cbn.
      apply list_lookup_insert_ne. intros ->. contradiction. }
    destruct (IH ps' s1 Hrest1 Hnd') as (h' & Hrun & Hlen' & Hframe & Hcells).
    exists h'. rewrite Hrun. subst s1. cbn [randomCalls players currentRound stateHistory heap] in *.
    split; [do 2 f_equal; cbn [length]; lia|].
    split; [now rewrite Hlen', length_insert|].
    split.
    + intros x Hx. rewrite Hframe by (intros H; apply Hx; now right).
      apply list_lookup_insert_ne. intros ->. apply Hx. now left.
    + cbn [deal]. constructor; [|exact Hcells].
      split; [|exact Hc]. rewrite Hframe by assumption.
      now apply list_lookup_insert_eq.
Qed.

End Refinement.

(** *** The objects added by an export *)

Lemma copied_length (h : list object) (ps : list Player) :
  length (copied h ps) = S (length ps).
Proof. unfold copied. rewrite length_app, length_map. cbn. lia. Qed.

Lemma exported_length (h : list object) (ps : list Player) (r : number) :
  length (exported h ps r) = S (S (length ps)).
Proof. unfold exported. rewrite length_app, copied_length. cbn. lia. Qed.

Lemma roster_at_copied (h : list object) (ps : list Player) (rest : list object) :
  Forall (fun p => counted (score p) = true) ps ->
  roster_at (h ++ copied h ps ++ rest) (VRef (length h + length ps)%nat)
            (seq (length h) (length ps)) ps.
Proof.
  intros Hc. unfold copied. rewrite <- !app_assoc. now apply roster_at_built.
Qed.

Lemma snapshot_at_exported (h : list object) (ps : list Player) (r : number)
    (rest : list object) (ls : list loc) :
  Forall (fun p => counted (score p) = true) ps ->
  (forall x : loc, In x ls -> (x < length h)%nat) ->
  snapshot_at (h ++ exported h ps r ++ rest) ls
              (VRef (length h + length ps + 1)%nat) (ps, r).
Proof.
  intros Hc Hls.
  exists (length h + length ps + 1)%nat, (VRef (length h + length ps)%nat),
         (seq (length h) (length ps)).
  split; [reflexivity|]. split; [|split].
  - unfold exported. rewrite <- app_assoc.
    rewrite lookup_app_r by lia. rewrite lookup_app_r by (rewrite copied_length; lia).
    rewrite copied_length.
    now replace (length h + length ps + 1 - length h - S (length ps))%nat with 0%nat by lia.
  - unfold exported. rewrite <- app_assoc. now apply roster_at_copied.
  - intros x Hx Hseq. apply in_seq in Hseq. specialize (Hls x Hx). lia.
Qed.

Lemma getGameState_typed (s : state) (ls : list loc) (ps : list Player) :
  roster_at (heap s) (players s) ls ps ->
  getGameState s
  = (Returns (VRef (length (heap s) + length ps + 1)%nat),
     set_heap (heap s ++ exported (heap s) ps (currentRound s)) s).
Proof.
  intros Hr. unfold getGameState. unfold bind at 1, gets. unfold bind at 1.
  rewrite (json_copy_roster _ _ _ _ Hr). run.
  unfold exported. rewrite length_app. fold (copied (heap s) ps).
  rewrite copied_length, app_assoc. do 3 f_equal. lia.
Qed.

Lemma setGameState_snapshot (s : state) (e : loc) (pv : value) (ls : list loc)
    (ps : list Player) (r : number) :
  heap s !! e = Some (snapshot_object pv r) ->
  roster_at (heap s) pv ls ps ->
  setGameState (VRef e) s
  = (Returns true,
     mkState (heap s ++ copied (heap s) ps) (randomCalls s)
             (VRef (length (heap s) + length ps)%nat) r (stateHistory s)).
Proof.
  intros He Hr. unfold setGameState. cbn [truthy]. unfold bind at 1, reads.
  cbn [get]. rewrite He. cbn [snapshot_object assoc String.eqb Ascii.eqb Bool.eqb or_undefined].
  assert (Hpv : truthy pv = true) by (destruct Hr as (l & -> & _); reflexivity).
  rewrite Hpv. unfold bind at 1, reads. cbn [get]. rewrite He.
  cbn [snapshot_object assoc String.eqb Ascii.eqb Bool.eqb or_undefined].
  unfold bind at 1. rewrite (json_copy_roster _ _ _ _ Hr). reflexivity.
Qed.

Lemma resolveRound_typed (s : state) (ls : list loc) (ps : list Player) :
  roster_at (heap s) (players s) ls ps ->
  exists h',
    resolveRound s
    = (Returns tt, mkState h' (randomCalls s) (players s)
                           (number_add (currentRound s) (Int 1)) (stateHistory s)) /\
    length h' = length (heap s) /\
    (forall x : loc, ~ In x ls -> h' !! x = heap s !! x) /\
    Forall2 (cell h') ls (award (biggest ps 0) ps).
Proof.
  intros Hr. pose proof Hr as (l & Hp & Hl & Hnd & Hall).
  unfold resolveRound. unfold bind at 1, gets. unfold bind at 1, reads.
  rewrite (roster_at_iterate _ _ _ _ Hr). unfold bind at 1.
  rewrite (biggestCard_typed ls ps 0 s Hall) by lia.
  unfold bind at 1, gets. unfold bind at 1, for_of. unfold bind at 1, reads.
  rewrite (roster_at_iterate _ _ _ _ Hr).
  destruct (awardPoints_typed ls ps (biggest ps 0) s Hall Hnd)
    as (h' & -> & Hlen & Hframe & Hcells).
  exists h'. split; [reflexivity|]. auto.
Qed.

Section Round.

Variable random : nat -> random_number.

Lemma runRound_stops (s : state) :
  number_ltb (currentRound s) (Int TOTAL_ROUNDS) = false ->
  runRound random s = (Returns false, s).
Proof. intros H. unfold runRound. run. now rewrite H. Qed.

(** A round on a roster of Player records: the state it leaves. *)
Lemma runRound_typed (s : state) (ls : list loc) (ps : list Player) :
  roster_at (heap s) (players s) ls ps ->
  number_ltb (currentRound s) (Int TOTAL_ROUNDS) = true ->
  exists h',
    runRound random s
    = (Returns true,
       mkState h' (randomCalls s + length ps)%nat (players s)
               (number_add (currentRound s) (Int 1))
               (VRef (length (heap s) + length ps + 1)%nat :: stateHistory s)) /\
    length h' = (length (heap s) + S (S (length ps)))%nat /\
    (forall x : loc, ~ In x ls ->
                     h' !! x = (heap s ++ exported (heap s) ps (currentRound s)) !! x) /\
    Forall2 (cell h') ls (playedRound random (randomCalls s) ps).
Proof.
  intros Hr Hlt. unfold runRound. unfold bind at 1, gets. rewrite Hlt.
  unfold bind at 1. rewrite (getGameState_typed _ _ _ Hr).
  unfold bind at 1, modify.
  set (s1 := set_stateHistory _ _).
  assert (Hr1 : roster_at (heap s1) (players s1) ls ps).
  { subst s1. cbn. apply (roster_at_frame (heap s)); [assumption|].
    intros x Hx. apply lookup_app_l. eapply roster_at_valid; eassumption. }
  pose proof Hr1 as (l & Hp & Hl & Hnd & Hall).
  unfold bind at 1, drawCards. unfold bind at 1, gets. unfold for_of.
  unfold bind at 1, reads. rewrite (roster_at_iterate _ _ _ _ Hr1).
  destruct (drawCards_typed random ls ps s1 Hall Hnd)
    as (h2 & -> & Hlen2 & Hframe2 & Hcells2).
  set (s2 := mkState h2 _ _ _ _).
  assert (Hr2 : roster_at (heap s2) (players s2) ls (deal random (randomCalls s) ps)).
  { subst s2. cbn. apply (roster_at_written (heap s1) h2 _ ls ps); assumption. }
  unfold bind at 1.
  destruct (resolveRound_typed s2 ls _ Hr2) as (h3 & -> & Hlen3 & Hframe3 & Hcells3).
  unfold ret. exists h3. subst s2 s1. cbn in *.
  split; [reflexivity|].
  split; [rewrite Hlen3, Hlen2, length_app, exported_length; lia|].
  split; [|exact Hcells3].
  intros x Hx. now rewrite Hframe3, Hframe2.
Qed.

Lemma runRound_represents (s : state) (g : game) :
  represents s g ->
  number_ltb (round g) (Int TOTAL_ROUNDS) = true ->
  exists s',
    runRound random s = (Returns true, s') /\
    represents s' (nextGame random (randomCalls s) g) /\
    randomCalls s' = (randomCalls s + length (roster g))%nat /\
    players s' = players s /\
    stateHistory s'
    = VRef (length (heap s) + length (roster g) + 1)%nat :: stateHistory s /\
    (length (heap s) <= length (heap s'))%nat /\
    (forall x : loc, (x < length (heap s))%nat ->
                     ~ In x (player_cells (heap s) (players s)) ->
                     heap s' !! x = heap s !! x).
Proof.
  intros Hrep Hlt. pose proof (represents_inv _ _ Hrep) as (Hr & Hround & Hhist).
  set (ls := player_cells (heap s) (players s)) in *.
  rewrite <- Hround in Hlt.
  destruct (runRound_typed s ls (roster g) Hr Hlt) as (h' & Hrun & Hlen & Hframe & Hcells).
  eexists. split; [exact Hrun|]. cbn [randomCalls players stateHistory heap].
  pose proof Hr as (l & Hp & Hl & Hnd & Hall).
  assert (Hvalid : forall x : loc, In x ls -> (x < length (heap s))%nat).
  { intros x Hx. eapply cells_valid; eassumption. }
  assert (Hold : forall x : loc, (x < length (heap s))%nat -> ~ In x ls ->
                                 h' !! x = heap s !! x).
  { intros x Hx Hnot. rewrite Hframe by assumption. now apply lookup_app_l. }
  assert (Hcounted := roster_at_counted _ _ _ _ Hr).
  split; [|repeat split; try reflexivity; try assumption; lia].
  unfold nextGame. rewrite <- Hround.
  apply (represents_intro (mkState h' _ _ _ _) ls); cbn [heap players stateHistory].
  - apply (roster_at_written (heap s ++ exported (heap s) (roster g) (currentRound s)) h'
             _ ls (roster g)); try assumption.
    apply (roster_at_frame (heap s)); [assumption|].
    intros x Hx. apply lookup_app_l. eapply roster_at_valid; eassumption.
  - constructor.
    + pose proof (snapshot_at_exported (heap s) (roster g) (currentRound s) [] ls
                    Hcounted Hvalid) as Hsnap.
      rewrite app_nil_r in Hsnap.
      destruct Hsnap as (e & pv & ls' & He & Hcell & Hroster & Hdisj).
      exists e, pv, ls'. split; [assumption|]. cbn [fst snd] in *.
      assert (He' : (e < length (heap s ++ exported (heap s) (roster g) (currentRound s)))%nat)
        by (eapply lookup_lt_Some; eassumption).
      injection He as <-.
      split; [|split; [|assumption]].
      * rewrite Hframe; [assumption|]. intros Hin. specialize (Hvalid _ Hin). lia.
      * apply (roster_at_frame (heap s ++ exported (heap s) (roster g) (currentRound s)));
          [assumption|].
        intros x Hx. apply Hframe. intros Hin.
        destruct (read_roster_intro _ _ _ _ Hroster) as [_ Hcells'].
        destruct Hroster as (la & -> & Hla & _ & Hall').
        cbn [roster_cells] in Hx. rewrite Hcells' in Hx.
        destruct Hx as [<- | Hx]; [|exact (Hdisj x Hin Hx)].
        destruct (cells_In _ _ _ _ Hall Hin) as [p Hp'].
        rewrite (lookup_app_l_Some _ _ _ _ Hp') in Hla. discriminate.
    + eapply Forall2_impl; [exact Hhist|]. intros v snap Hsnap.
      apply (snapshot_at_frame (heap s) h' ls ls (roster g)); auto.
Qed.

End Round.

Lemma undoLastRound_empty (s : state) :
  stateHistory s = [] -> undoLastRound s = (Returns false, s).
Proof. intros H. unfold undoLastRound. run. now rewrite H. Qed.

(** A state whose roster is a new copy, in a store that has only
    grown. *)
Lemma represents_copied (s : state) (g : game) (ps : list Player) (r : number)
    (vs : list value) (snaps : list (list Player * number)) (k : nat) :
  represents s g ->
  Forall (fun p => counted (score p) = true) ps ->
  Forall2 (snapshot_at (heap s) (player_cells (heap s) (players s))) vs snaps ->
  represents (mkState (heap s ++ copied (heap s) ps) k
                      (VRef (length (heap s) + length ps)%nat) r vs)
             (mkGame ps r snaps).
Proof.
  intros Hrep Hc Hsnaps. pose proof (represents_inv _ _ Hrep) as (Hr & _ & _).
  pose proof Hr as (l & Hp & Hl & Hnd & Hall).
  apply (represents_intro (mkState _ _ _ _ _) (seq (length (heap s)) (length ps)));
    cbn [heap players stateHistory].
  - pose proof (roster_at_copied (heap s) ps [] Hc) as H. now rewrite app_nil_r in H.
  - eapply Forall2_impl; [exact Hsnaps|]. intros v snap Hsnap.
    apply (snapshot_at_frame (heap s) _ _ _ (roster g) _ _ Hsnap Hall).
    + intros x Hx _. now apply lookup_app_l.
    + intros x Hx. apply in_seq in Hx. right. lia.
Qed.

Lemma undoLastRound_represents (s : state) (g : game) (ps : list Player)
    (r : number) (rest : list (list Player * number)) :
  represents s g ->
  history g = (ps, r) :: rest ->
  exists s',
    undoLastRound s = (Returns true, s') /\
    represents s' (mkGame ps r rest) /\
    randomCalls s' = randomCalls s /\
    heap s' = heap s ++ copied (heap s) ps /\
    players s' = VRef (length (heap s) + length ps)%nat.
Proof.
  intros Hrep Hg. pose proof (represents_inv _ _ Hrep) as (Hr & Hround & Hhist).
  rewrite Hg in Hhist.
  inversion Hhist as [|v snap vs snaps' Hsnap Hrest Hs]; subst.
  destruct Hsnap as (e & pv & ls' & -> & He & Hroster & Hdisj). cbn [fst snd] in *.
  unfold undoLastRound. unfold bind at 1, gets. rewrite <- Hs.
  unfold bind at 1, modify. unfold bind at 1.
  rewrite (setGameState_snapshot _ e pv ls' ps r) by assumption.
  unfold ret. eexists. split; [reflexivity|].
  cbn [heap set_stateHistory randomCalls players stateHistory].
  split; [|auto].
  apply (represents_copied s g); try assumption.
  eapply roster_at_counted; eassumption.
Qed.

(** ** The remaining operations on rosters of Player records *)

(** What is added to the store leaves the game state as it is. *)
Lemma represents_grown (s : state) (g : game) (news : list object) :
  represents s g -> represents (set_heap (heap s ++ news) s) g.
Proof.
  intros Hrep. pose proof (represents_inv _ _ Hrep) as (Hr & Hround & Hhist).
  pose proof Hr as (l & Hp & Hl & Hnd & Hall).
  replace g with (mkGame (roster g) (currentRound (set_heap (heap s ++ news) s)) (history g))
    by (cbn; rewrite Hround; now destruct g).
  apply (represents_intro _ (player_cells (heap s) (players s)));
    cbn [heap players stateHistory set_heap].
  - apply (roster_at_frame (heap s)); [assumption|].
    intros x Hx. apply lookup_app_l. eapply roster_at_valid; eassumption.
  - eapply Forall2_impl; [exact Hhist|]. intros v snap Hsnap.
    apply (snapshot_at_frame (heap s) _ _ _ (roster g) _ _ Hsnap Hall); auto.
    intros x Hx _. now apply lookup_app_l.
Qed.

Lemma getGameState_represents (s : state) (g : game) :
  represents s g ->
  getGameState s
  = (Returns (VRef (length (heap s) + length (roster g) + 1)%nat),
     set_heap (heap s ++ exported (heap s) (roster g) (round g)) s)
  /\ represents (set_heap (heap s ++ exported (heap s) (roster g) (round g)) s) g.
Proof.
  intros Hrep. pose proof (represents_inv _ _ Hrep) as (Hr & Hround & Hhist).
  rewrite (getGameState_typed _ _ _ Hr), Hround. split; [reflexivity|].
  now apply represents_grown.
Qed.

Lemma build_initialPlayers (h : list object) :
  build initialPlayers h
  = (VRef (length h + length initialRoster)%nat, h ++ copied h initialRoster).
Proof. apply build_roster. Qed.

Lemma initialRoster_counted : Forall (fun p => counted (score p) = true) initialRoster.
Proof. repeat constructor. Qed.

(** A new roster in a store that holds no history. *)
Lemma represents_new (h : list object) (ps : list Player) (r : number) (k : nat) :
  Forall (fun p => counted (score p) = true) ps ->
  represents (mkState (h ++ copied h ps) k (VRef (length h + length ps)%nat) r [])
             (mkGame ps r []).
Proof.
  intros Hc. apply (represents_intro (mkState _ _ _ _ _) (seq (length h) (length ps)));
    cbn [heap players stateHistory]; [|constructor].
  pose proof (roster_at_copied h ps [] Hc) as H. now rewrite app_nil_r in H.
Qed.

Lemma resetGame_typed (s : state) :
  resetGame s
  = (Returns tt,
     mkState (heap s ++ copied (heap s) initialRoster) (randomCalls s)
             (VRef (length (heap s) + length initialRoster)%nat) (Int 0) []).
Proof. unfold resetGame. now rewrite build_initialPlayers. Qed.

Lemma resetGame_represents (s : state) :
  exists s',
    resetGame s = (Returns tt, s') /\
    represents s' (mkGame initialRoster (Int 0) []) /\
    randomCalls s' = randomCalls s.
Proof.
  rewrite resetGame_typed. eexists. split; [reflexivity|].
  split; [apply represents_new, initialRoster_counted | reflexivity].
Qed.

Lemma createGameLogic_fresh (h : list object) (calls : nat) :
  createGameLogic VUndefined h calls
  = Returns (mkState (h ++ copied h initialRoster) calls
                     (VRef (length h + length initialRoster)%nat) (Int 0) []).
Proof.
  unfold createGameLogic. cbn [truthy heap randomCalls stateHistory].
  now rewrite build_initialPlayers.
Qed.

Lemma createGameLogic_represents (h : list object) (calls : nat) (s : state) :
  createGameLogic VUndefined h calls = Returns s ->
  represents s (mkGame initialRoster (Int 0) []).
Proof.
  rewrite createGameLogic_fresh. intros [= <-].
  apply represents_new, initialRoster_counted.
Qed.

Lemma rename_lookup (i : Z) (n : string) (ps : list Player) :
  rename i n ps
  = if (i <? 0) || String.eqb n EmptyString then ps
    else match ps !! Z.to_nat i with
         | Some p => <[Z.to_nat i := mkPlayer n (cardHeld p) (score p)]> ps
         | None => ps
         end.
Proof. reflexivity. Qed.

(** The element of the roster array at an index. *)
Lemma roster_at_index (h : list object) (v : value) (ls : list loc) (ps : list Player)
    (i : Z) :
  roster_at h v ls ps ->
  index h v i
  = Returns (if i <? 0 then VUndefined
             else match ls !! Z.to_nat i with
                  | Some li => VRef li
                  | None => VUndefined
                  end).
Proof.
  intros (l & -> & Hl & _). cbn [index]. rewrite Hl, list_lookup_fmap.
  now destruct (ls !! Z.to_nat i).
Qed.

(** A player object rewritten in place. *)
Lemma cells_insert (h : list object) (ls : list loc) (ps : list Player) (i : nat)
    (li : loc) (p' : Player) :
  Forall2 (cell h) ls ps ->
  List.NoDup ls ->
  ls !! i = Some li ->
  counted (score p') = true ->
  Forall2 (cell (<[li := player_object p']> h)) ls (<[i := p']> ps).
Proof.
  intros Hall Hnd Hi Hc.
  assert (Hlen : (li < length h)%nat).
  { eapply cells_valid; [eassumption|]. apply list_elem_of_In, list_elem_of_lookup. eauto. }
  apply Forall2_same_length_lookup. split.
  - rewrite length_insert. eapply Forall2_length; eassumption.
  - intros j lj pj Hj Hpj. destruct (Nat.eq_dec j i) as [->|Hne].
    + assert (lj = li) by congruence. subst lj.
      rewrite list_lookup_insert_eq in Hpj
        by (apply lookup_lt_Some in Hj; erewrite <- Forall2_length by eassumption; lia).
      injection Hpj as <-. split; [|assumption].
      now apply list_lookup_insert_eq.
    + rewrite list_lookup_insert_ne in Hpj by congruence.
      destruct (Forall2_lookup_lr _ _ _ _ _ _ Hall Hj Hpj) as [Hcell Hcount].
      split; [|assumption]. rewrite list_lookup_insert_ne; [assumption|].
      intros ->. apply Hne.
      apply (NoDup_lookup ls j i lj); [now apply NoDup_ListNoDup | assumption..].
Qed.

Lemma modifyPlayerName_typed (i : Z) (n : string) (s : state) (ls : list loc)
    (ps : list Player) :
  roster_at (heap s) (players s) ls ps ->
  modifyPlayerName i n s
  = (Returns tt,
     if (i <? 0) || String.eqb n EmptyString then s
     else match ls !! Z.to_nat i, ps !! Z.to_nat i with
          | Some li, Some p =>
              set_heap (<[li := player_object (mkPlayer n (cardHeld p) (score p))]> (heap s)) s
          | _, _ => s
          end).
Proof.
  intros Hr. unfold modifyPlayerName. unfold bind at 1, gets. unfold bind at 1, reads.
  rewrite (roster_at_index _ _ _ _ i Hr).
  destruct (i <? 0) eqn:Hi; cbn [truthy andb orb]; [reflexivity|].
  destruct Hr as (l & Hp & Hl & Hnd & Hall).
  destruct (ls !! Z.to_nat i) as [li|] eqn:Hli; cbn [truthy andb].
  - destruct (Forall2_lookup_l _ _ _ _ _ Hall Hli) as (p & Hpi & Hcell & Hc).
    rewrite Hpi. destruct (String.eqb n EmptyString); cbn [negb]; [reflexivity|].
    apply (put_player s li p); [assumption | reflexivity].
  - now destruct (String.eqb n EmptyString).
Qed.

Lemma modifyPlayerName_represents (i : Z) (n : string) (s : state) (g : game) :
  represents s g ->
  exists s',
    modifyPlayerName i n s = (Returns tt, s') /\
    represents s' (mkGame (rename i n (roster g)) (round g) (history g)) /\
    randomCalls s' = randomCalls s /\
    players s' = players s /\
    stateHistory s' = stateHistory s /\
    currentRound s' = currentRound s /\
    length (heap s') = length (heap s) /\
    (forall x : loc, ~ In x (player_cells (heap s) (players s)) ->
                     heap s' !! x = heap s !! x).
Proof.
  intros Hrep. pose proof (represents_inv _ _ Hrep) as (Hr & Hround & Hhist).
  set (ls := player_cells (heap s) (players s)) in *.
  rewrite (modifyPlayerName_typed i n s ls (roster g) Hr). rewrite rename_lookup.
  assert (Hsame : exists s', (Returns tt, s) = (Returns tt, s') /\
            represents s' (mkGame (roster g) (round g) (history g)) /\
            randomCalls s' = randomCalls s /\ players s' = players s /\
            stateHistory s' = stateHistory s /\ currentRound s' = currentRound s /\
            length (heap s') = length (heap s) /\
            (forall x : loc, ~ In x ls -> heap s' !! x = heap s !! x)).
  { exists s. repeat split; try reflexivity. now destruct g. }
  destruct ((i <? 0) || String.eqb n EmptyString); [exact Hsame|].
  pose proof Hr as (l & Hp & Hl & Hnd & Hall).
  destruct (ls !! Z.to_nat i) as [li|] eqn:Hli.
  2:{ assert (roster g !! Z.to_nat i = None) as ->; [|exact Hsame].
      apply lookup_ge_None. apply lookup_ge_None in Hli.
      erewrite <- Forall2_length by eassumption. exact Hli. }
  destruct (Forall2_lookup_l _ _ _ _ _ Hall Hli) as (p & Hpi & Hcell & Hc).
  rewrite Hpi. eexists. split; [reflexivity|].
  assert (Hin : In li ls) by (apply list_elem_of_In, list_elem_of_lookup; eauto).
  assert (Hframe : forall x : loc, ~ In x ls ->
            <[li := player_object (mkPlayer n (cardHeld p) (score p))]> (heap s) !! x
            = heap s !! x).
  { intros x Hx. apply list_lookup_insert_ne. intros ->. contradiction. }
  cbn [set_heap heap randomCalls players stateHistory currentRound].
  split; [|repeat split; try reflexivity; [now rewrite length_insert | exact Hframe]].
  rewrite <- Hround.
  apply (represents_intro (mkState _ _ _ _ _) ls); cbn [heap players stateHistory].
  - apply (roster_at_written (heap s) _ _ ls (roster g)); try assumption.
    now apply cells_insert.
  - eapply Forall2_impl; [exact Hhist|]. intros v snap Hsnap.
    apply (snapshot_at_frame (heap s) _ ls ls (roster g)); auto.
Qed.

(** ** A round of play, on Player records *)

Lemma award_length (m : Z) (ps : list Player) : length (award m ps) = length ps.
Proof. apply length_map. Qed.

Lemma award_cardHeld (m : Z) (ps : list Player) :
  map cardHeld (award m ps) = map cardHeld ps.
Proof.
  unfold award. rewrite map_map. apply map_ext. intros p.
  now destruct (wins m p).
Qed.

Lemma award_lookup (m : Z) (ps : list Player) (i : nat) :
  award m ps !! i
  = (fun p => if wins m p
              then mkPlayer (name p) (cardHeld p) (add_points (score p))
              else p) <$> ps !! i.
Proof. unfold award. apply list_lookup_fmap. Qed.

Lemma biggest_cards (ps qs : list Player) (b : Z) :
  map cardHeld ps = map cardHeld qs -> biggest ps b = biggest qs b.
Proof.
  revert qs b. induction ps as [|p ps IH]; intros [|q qs] b H; try discriminate;
    [reflexivity|].
  cbn in H. injection H as Hc H. cbn [biggest]. unfold cardNumber.
  rewrite Hc. now apply IH.
Qed.

Lemma holders_cards (m : Z) (ps qs : list Player) :
  map cardHeld ps = map cardHeld qs -> holders m ps = holders m qs.
Proof.
  unfold holders. intros H. f_equal. revert qs H.
  induction ps as [|p ps IH]; intros [|q qs] H; try discriminate; [reflexivity|].
  cbn in H. injection H as Hc H. cbn [List.filter].
  replace (wins m p) with (wins m q) by (unfold wins; now rewrite Hc).
  destruct (wins m q); cbn [length]; now rewrite (IH qs H).
Qed.

Lemma holders_cons (m : Z) (p : Player) (ps : list Player) :
  holders m (p :: ps) = (if wins m p then 1 else 0) + holders m ps.
Proof.
  unfold holders. cbn [List.filter]. destruct (wins m p); cbn [length]; lia.
Qed.

Lemma holders_nonneg (m : Z) (ps : list Player) : 0 <= holders m ps.
Proof. unfold holders. lia. Qed.

Lemma add_points_exact (z : Z) :
  - 2 ^ 53 <= z < 2 ^ 53 -> add_points z = z + POINTS_PER_SCORE.
Proof.
  intros H. assert (Hc : counted z = true) by (apply counted_spec; lia).
  destruct (add_points_spec z Hc) as (_ & _ & Hexact & _). apply Hexact. lia.
Qed.

(** With every score in the range where sums are exact, the scores
    gained add up to the number of winners. *)
Lemma total_award (m : Z) (ps : list Player) :
  Forall (fun p => - 2 ^ 53 <= score p < 2 ^ 53) ps ->
  total (award m ps) = total ps + POINTS_PER_SCORE * holders m ps.
Proof.
  induction 1 as [|p ps Hp _ IH]; [reflexivity|].
  cbn [award map total fold_right]. fold (award m ps). fold (total (award m ps)).
  fold (total ps). rewrite IH, holders_cons.
  destruct (wins m p); cbn [score]; [rewrite add_points_exact by assumption|]; lia.
Qed.

Lemma cardNumber_Some (p : Player) (c : Z) :
  cardHeld p = Some c -> cardNumber p = c.
Proof. unfold cardNumber. now intros ->. Qed.

Lemma biggest_upper_bound (ps : list Player) (b : Z) (p : Player) :
  In p ps -> cardNumber p <= biggest ps b.
Proof.
  revert b. induction ps as [|q ps IH]; intros b; [intros []|].
  intros [-> | Hin]; cbn [biggest].
  - etransitivity; [|apply biggest_lower_bound].
    destruct (Z.ltb_spec b (cardNumber p)); lia.
  - now apply IH.
Qed.

Lemma biggest_attained (ps : list Player) (b : Z) :
  biggest ps b = b \/ exists p, In p ps /\ cardNumber p = biggest ps b.
Proof.
  revert b. induction ps as [|q ps IH]; intros b; [now left|].
  cbn [biggest]. destruct (Z.ltb_spec b (cardNumber q)).
  - right. destruct (IH (cardNumber q)) as [Heq | (p & Hin & Hp)].
    + exists q. split; [now left | congruence].
    + exists p. split; [now right | assumption].
  - destruct (IH b) as [Heq | (p & Hin & Hp)]; [now left|].
    right. exists p. split; [now right | assumption].
Qed.

(** [biggestCardOfRound] is the highest card of the round. *)
Lemma biggest_maximum (ps : list Player) (m : Z) :
  all_hold ps -> maximum m ps -> biggest ps 0 = m.
Proof.
  intros Hall [(p & Hin & Hp) Hmax].
  assert (Hm : m <= biggest ps 0).
  { pose proof (biggest_upper_bound ps 0 p Hin) as H.
    now rewrite (cardNumber_Some p m Hp) in H. }
  unfold all_hold in Hall. rewrite Forall_forall in Hall.
  destruct (Hall p) as (c & Hc & Hc1); [now apply list_elem_of_In|].
  assert (c = m) by congruence. subst c.
  destruct (biggest_attained ps 0) as [H0 | (q & Hq & Hqb)]; [lia|].
  destruct (Hall q) as (c & Hc' & _); [now apply list_elem_of_In|].
  rewrite (cardNumber_Some q c Hc') in Hqb.
  specialize (Hmax q c Hq Hc'). lia.
Qed.

Lemma maximum_exists (ps : list Player) :
  all_hold ps -> ps <> [] -> maximum (biggest ps 0) ps.
Proof.
  intros Hall Hne. unfold all_hold in Hall. rewrite Forall_forall in Hall.
  assert (Hpos : 1 <= biggest ps 0).
  { destruct ps as [|p ps]; [congruence|].
    destruct (Hall p) as (c & Hc & Hc1); [left|].
    pose proof (biggest_upper_bound (p :: ps) 0 p (or_introl eq_refl)) as H.
    rewrite (cardNumber_Some p c Hc) in H. lia. }
  split.
  - destruct (biggest_attained ps 0) as [H0 | (q & Hq & Hqb)]; [lia|].
    exists q. split; [assumption|].
    destruct (Hall q) as (c & Hc & _); [now apply list_elem_of_In|].
    rewrite (cardNumber_Some q c Hc) in Hqb. congruence.
  - intros p c Hin Hc.
    pose proof (biggest_upper_bound ps 0 p Hin) as H.
    now rewrite (cardNumber_Some p c Hc) in H.
Qed.

Lemma holders_maximum (ps : list Player) (m : Z) :
  maximum m ps -> 1 <= holders m ps.
Proof.
  intros [(p & Hin & Hp) _]. induction ps as [|q ps IH]; [destruct Hin|].
  rewrite holders_cons. pose proof (holders_nonneg m ps).
  destruct Hin as [-> | Hin].
  - unfold wins. rewrite Hp, Z.eqb_refl. lia.
  - specialize (IH Hin). destruct (wins m q); lia.
Qed.

(** ** Rounds *)

Section Play.

Variable random : nat -> random_number.

(** A card is between 1 and [MAX_CARD_VALUE]. *)
Lemma card_range (k : nat) : 1 <= card random k <= MAX_CARD_VALUE.
Proof. apply card_number_card. Qed.

Lemma deal_length (k : nat) (ps : list Player) :
  length (deal random k ps) = length ps.
Proof.
  revert k. induction ps as [|p ps IH]; intros k; cbn; [reflexivity|].
  now rewrite IH.
Qed.

Lemma deal_lookup (k : nat) (ps : list Player) (i : nat) :
  deal random k ps !! i
  = (fun p => mkPlayer (name p) (Some (card random (k + i))) (score p)) <$> ps !! i.
Proof.
  revert k i. induction ps as [|p ps IH]; intros k [|i]; cbn; try reflexivity.
  - now rewrite Nat.add_0_r.
  - rewrite IH. now replace (S k + i)%nat with (k + S i)%nat by lia.
Qed.

Lemma deal_all_hold (k : nat) (ps : list Player) : all_hold (deal random k ps).
Proof.
  revert k. induction ps as [|p ps IH]; intros k; constructor; [|apply IH].
  exists (card random k). split; [reflexivity | apply card_range].
Qed.

Lemma deal_total (k : nat) (ps : list Player) :
  total (deal random k ps) = total ps.
Proof.
  revert k. induction ps as [|p ps IH]; intros k; [reflexivity|].
  cbn [deal total fold_right score]. fold (total (deal random (S k) ps)).
  fold (total ps). now rewrite IH.
Qed.

Lemma deal_scores (k : nat) (ps : list Player) (P : Z -> Prop) :
  Forall (fun p => P (score p)) ps -> Forall (fun p => P (score p)) (deal random k ps).
Proof.
  intros H. revert k. induction H as [|p ps Hp _ IH]; intros k; constructor; auto.
Qed.

Lemma all_hold_cards (ps qs : list Player) :
  map cardHeld ps = map cardHeld qs -> all_hold ps -> all_hold qs.
Proof.
  revert qs. induction ps as [|p ps IH]; intros [|q qs] H Hall; try discriminate;
    [constructor|].
  cbn in H. injection H as Hc H. inversion Hall as [|? ? Hp Hps]; subst.
  constructor; [now rewrite <- Hc | now apply IH].
Qed.

Lemma playedRound_length (k : nat) (ps : list Player) :
  length (playedRound random k ps) = length ps.
Proof. unfold playedRound. now rewrite award_length, deal_length. Qed.

Lemma playedRound_cards (k : nat) (ps : list Player) :
  map cardHeld (playedRound random k ps) = map cardHeld (deal random k ps).
Proof. apply award_cardHeld. Qed.

Lemma playedRound_all_hold (k : nat) (ps : list Player) :
  all_hold (playedRound random k ps).
Proof.
  eapply all_hold_cards; [symmetry; apply playedRound_cards | apply deal_all_hold].
Qed.

(** The card that decides the round is the highest of the cards held
    after it. *)
Lemma playedRound_biggest (k : nat) (ps : list Player) :
  biggest (playedRound random k ps) 0 = biggest (deal random k ps) 0.
Proof. apply biggest_cards, playedRound_cards. Qed.

Lemma playedRound_total (k : nat) (ps : list Player) :
  Forall (fun p => - 2 ^ 53 <= score p < 2 ^ 53) ps ->
  total (playedRound random k ps)
  = total ps + POINTS_PER_SCORE * leaders (playedRound random k ps).
Proof.
  intros H. unfold leaders. rewrite playedRound_biggest.
  rewrite (holders_cards _ _ _ (playedRound_cards k ps)).
  unfold playedRound. rewrite total_award, deal_total; [reflexivity|].
  now apply (deal_scores k ps (fun z => - 2 ^ 53 <= z < 2 ^ 53)).
Qed.

Lemma playedRound_lookup (k : nat) (ps : list Player) (i : nat) (p p' : Player) :
  ps !! i = Some p ->
  playedRound random k ps !! i = Some p' ->
  name p' = name p /\
  cardHeld p' = Some (card random (k + i)) /\
  score p' = (if card random (k + i) =? biggest (deal random k ps) 0
              then add_points (score p) else score p).
Proof.
  intros Hp. unfold playedRound. rewrite award_lookup, deal_lookup, Hp.
  cbn. unfold wins. cbn [cardHeld].
  destruct (card random (k + i) =? biggest (deal random k ps) 0);
    intros [= <-]; cbn; auto.
Qed.

Lemma leaders_positive (k : nat) (ps : list Player) :
  ps <> [] -> 1 <= leaders (playedRound random k ps).
Proof.
  intros Hne. apply holders_maximum, maximum_exists.
  - apply playedRound_all_hold.
  - intros H. apply Hne. apply (f_equal (@length Player)) in H.
    rewrite playedRound_length in H. now destruct ps.
Qed.

Lemma roster_is_inv (s : state) (ps : list Player) :
  roster_is s ps ->
  roster_at (heap s) (players s) (player_cells (heap s) (players s)) ps.
Proof. apply read_roster_inv. Qed.

Lemma roster_is_scores (s : state) (ps : list Player) :
  roster_is s ps -> Forall (fun p => - 2 ^ 53 <= score p <= 2 ^ 53) ps.
Proof.
  intros H. apply roster_is_inv, roster_at_counted in H.
  eapply Forall_impl; [exact H|]. intros p Hp. now apply counted_spec.
Qed.

(** The state after a round on a roster of Player records. *)
Lemma runRound_roster (s s' : state) (ps : list Player) :
  roster_is s ps ->
  runRound random s = (Returns true, s') ->
  number_ltb (currentRound s) (Int TOTAL_ROUNDS) = true /\
  roster_is s' (playedRound random (randomCalls s) ps) /\
  currentRound s' = number_add (currentRound s) (Int 1).
Proof.
  intros Hroster Hrun. apply roster_is_inv in Hroster as Hr.
  destruct (number_ltb (currentRound s) (Int TOTAL_ROUNDS)) eqn:Hlt;
    [|rewrite (runRound_stops random s Hlt) in Hrun; discriminate].
  destruct (runRound_typed random s _ ps Hr Hlt) as (h' & Hrun' & Hlen & Hframe & Hcells).
  rewrite Hrun' in Hrun. injection Hrun as <-. split; [reflexivity|].
  split; [|reflexivity]. unfold roster_is. cbn [heap players].
  apply (read_roster_intro _ _ (player_cells (heap s) (players s))).
  apply (roster_at_written (heap s ++ exported (heap s) ps (currentRound s)) h'
           _ _ ps); try assumption.
  apply (roster_at_frame (heap s)); [assumption|].
  intros x Hx. apply lookup_app_l. eapply roster_at_valid; eassumption.
Qed.

(** C1, as the code has it.  On a roster of Player records, when
    [currentRound < TOTAL_ROUNDS] holds, [runRound] returns true and
    leaves the counter at [currentRound + 1] as doubles add: one more
    for an integer counter from [-2^53] on.  In any state whatsoever in
    which [currentRound < TOTAL_ROUNDS] does not hold (the counter is
    [TOTAL_ROUNDS], or more, or NaN), [runRound] returns false and the
    state it leaves, store, roster, counter and history, is the state
    it found. *)
Theorem runRound_precondition (s : state) (ps : list Player) :
  roster_is s ps ->
  (number_ltb (currentRound s) (Int TOTAL_ROUNDS) = true ->
   exists s',
     runRound random s = (Returns true, s') /\
     currentRound s' = number_add (currentRound s) (Int 1) /\
     (forall n : Z, currentRound s = Int n -> - 2 ^ 53 <= n ->
                    currentRound s' = Int (n + 1))) /\
  (forall s0 : state,
      number_ltb (currentRound s0) (Int TOTAL_ROUNDS) = false ->
      runRound random s0 = (Returns false, s0)).
Proof.
  intros Hroster. split; [|apply runRound_stops]. intros Hlt.
  apply roster_is_inv in Hroster as Hr.
  destruct (runRound_typed random s _ ps Hr Hlt) as (h' & Hrun & _).
  eexists. split; [exact Hrun|]. cbn [currentRound]. split; [reflexivity|].
  intros n Hround Hn. rewrite Hround in *. cbn in Hlt. apply Z.ltb_lt in Hlt.
  apply number_add_Int. rewrite TOTAL_ROUNDS_value in Hlt.
  change (2 ^ 53) with 9007199254740992 in *. lia.
Qed.

(** C2, as the code has it.  A call of [runRound] that succeeds on a
    roster of Player records leaves a roster [ps'] of the same players
    in which, for the highest card [maxCard] held: a player holding
    [maxCard] has the score that [score += POINTS_PER_SCORE] computes,
    which is its score plus [POINTS_PER_SCORE] when that score is below
    [2^53] (and the score itself at [2^53], where doubles have no odd
    numbers); any other player has the score it had; and, when every
    score was below [2^53], the scores gained add up to the number of
    players holding [maxCard].  A non-empty roster has such a highest
    card. *)
Theorem runRound_scores (s s' : state) (ps : list Player) :
  roster_is s ps ->
  runRound random s = (Returns true, s') ->
  exists ps',
    roster_is s' ps' /\
    length ps' = length ps /\
    (ps <> [] -> exists maxCard, maximum maxCard ps') /\
    forall maxCard : Z,
      maximum maxCard ps' ->
      (forall (i : nat) (p p' : Player),
          ps !! i = Some p -> ps' !! i = Some p' ->
          name p' = name p /\
          (cardHeld p' = Some maxCard ->
           score p' = add_points (score p) /\
           (score p < 2 ^ 53 -> score p' = score p + POINTS_PER_SCORE) /\
           (score p = 2 ^ 53 -> score p' = score p)) /\
          (cardHeld p' <> Some maxCard -> score p' = score p)) /\
      (can_score ps -> total ps' - total ps = holders maxCard ps').
Proof.
  intros Hroster Hrun.
  destruct (runRound_roster s s' ps Hroster Hrun) as (_ & Hroster' & _).
  pose proof (roster_is_scores s ps Hroster) as Hs.
  set (k := randomCalls s) in *.
  exists (playedRound random k ps). split; [assumption|]. split; [|split].
  - apply playedRound_length.
  - intros Hne. exists (biggest (playedRound random k ps) 0).
    apply maximum_exists; [apply playedRound_all_hold|].
    intros H. apply Hne. apply (f_equal (@length Player)) in H.
    rewrite playedRound_length in H. now destruct ps.
  - intros maxCard Hmax.
    pose proof (biggest_maximum _ _ (playedRound_all_hold k ps) Hmax) as Hb.
    split.
    + intros i p p' Hi Hi'.
      destruct (playedRound_lookup k ps i p p' Hi Hi') as (Hname & Hcard & Hscore).
      rewrite <- playedRound_biggest, Hb in Hscore.
      assert (Hp : - 2 ^ 53 <= score p <= 2 ^ 53).
      { rewrite Forall_forall in Hs. apply Hs.
        apply list_elem_of_lookup. eauto. }
      split; [assumption|]. rewrite Hcard. split.
      * intros [= Hc]. rewrite Hscore. rewrite Hc, Z.eqb_refl.
        split; [reflexivity|]. split.
        -- intros Hlt. apply add_points_exact. lia.
        -- intros ->. reflexivity.
      * intros Hc. rewrite Hscore.
        destruct (Z.eqb_spec (card random (k + i)) maxCard); congruence.
    + intros Hcan.
      assert (Hexact : Forall (fun p => - 2 ^ 53 <= score p < 2 ^ 53) ps).
      { unfold can_score in Hcan. rewrite Forall_forall in *. intros p Hp.
        specialize (Hs p Hp). specialize (Hcan p Hp). cbn in *. lia. }
      rewrite playedRound_total by assumption. unfold leaders. rewrite Hb.
      unfold POINTS_PER_SCORE. lia.
Qed.

(** C3, as the code has it.  After a call of [runRound] that succeeds
    on a roster of Player records, [undoLastRound] returns true and
    leaves the engine with a roster of the same records (names, cards,
    scores), the round counter and the history it had before the round;
    every object of the store other than the player objects of the old
    roster is as it was, and the engine is in the game state it was in.
    With an empty history, [undoLastRound] returns false and changes
    nothing. *)
Theorem undoLastRound_restores (s s1 : state) (ps : list Player) :
  roster_is s ps ->
  runRound random s = (Returns true, s1) ->
  (exists s2,
      undoLastRound s1 = (Returns true, s2) /\
      roster_is s2 ps /\
      currentRound s2 = currentRound s /\
      stateHistory s2 = stateHistory s /\
      (forall l : loc, (l < length (heap s))%nat ->
                       ~ In l (player_cells (heap s) (players s)) ->
                       heap s2 !! l = heap s !! l) /\
      (forall g : game, represents s g -> represents s2 g)) /\
  (forall s0 : state,
      stateHistory s0 = [] -> undoLastRound s0 = (Returns false, s0)).
Proof.
  intros Hroster Hrun. split; [|apply undoLastRound_empty].
  apply roster_is_inv in Hroster as Hr.
  set (ls := player_cells (heap s) (players s)) in *.
  destruct (number_ltb (currentRound s) (Int TOTAL_ROUNDS)) eqn:Hlt;
    [|rewrite (runRound_stops random s Hlt) in Hrun; discriminate].
  destruct (runRound_typed random s ls ps Hr Hlt) as (h' & Hrun' & Hlen & Hframe & Hcells).
  rewrite Hrun' in Hrun. injection Hrun as <-.
  pose proof Hr as (l & Hp & Hl & Hnd & Hall).
  assert (Hvalid : forall x : loc, In x ls -> (x < length (heap s))%nat).
  { intros x Hx. eapply cells_valid; eassumption. }
  assert (Hcounted := roster_at_counted _ _ _ _ Hr).
  pose proof (snapshot_at_exported (heap s) ps (currentRound s) [] ls Hcounted Hvalid)
    as Hsnap.
  rewrite app_nil_r in Hsnap.
  destruct Hsnap as (e & pv & ls' & [= <-] & He & Hroster' & Hdisj). cbn [fst snd] in *.
  assert (He' : h' !! (length (heap s) + length ps + 1)%nat
                = Some (snapshot_object pv (currentRound s))).
  { rewrite Hframe; [assumption|]. intros Hin. specialize (Hvalid _ Hin). lia. }
  assert (Hpv : roster_at h' pv ls' ps).
  { apply (roster_at_frame (heap s ++ exported (heap s) ps (currentRound s)));
      [assumption|].
    intros x Hx. apply Hframe. intros Hin.
    destruct (read_roster_intro _ _ _ _ Hroster') as [_ Hcells'].
    destruct Hroster' as (la & -> & Hla & _ & Hall').
    cbn [roster_cells] in Hx. rewrite Hcells' in Hx.
    destruct Hx as [<- | Hx]; [|exact (Hdisj x Hin Hx)].
    destruct (cells_In _ _ _ _ Hall Hin) as [p Hp'].
    rewrite (lookup_app_l_Some _ _ _ _ Hp') in Hla. discriminate. }
  unfold undoLastRound. unfold bind at 1, gets. cbn [stateHistory].
  unfold bind at 1, modify. unfold bind at 1.
  rewrite (setGameState_snapshot _ _ pv ls' ps (currentRound s)) by assumption.
  unfold ret. eexists. split; [reflexivity|].
  cbn [heap set_stateHistory randomCalls players currentRound stateHistory].
  assert (Hold : forall x : loc, (x < length (heap s))%nat -> ~ In x ls ->
                                 (h' ++ copied h' ps) !! x = heap s !! x).
  { intros x Hx Hnot. rewrite lookup_app_l by lia.
    rewrite Hframe by assumption. now apply lookup_app_l. }
  split; [|split; [reflexivity | split; [reflexivity | split; [exact Hold|]]]].
  - unfold roster_is. cbn [heap players].
    apply (read_roster_intro _ _ (seq (length h') (length ps))).
    pose proof (roster_at_copied h' ps [] Hcounted) as H. now rewrite app_nil_r in H.
  - intros g Hrep. pose proof (represents_inv _ _ Hrep) as (Hrg & Hround & Hhist).
    assert (roster g = ps) as Hg.
    { apply represents_roster in Hrep. unfold roster_is in *. congruence. }
    replace g with (mkGame ps (currentRound s) (history g))
      by (rewrite <- Hg, Hround; now destruct g).
    apply (represents_intro (mkState _ _ _ _ _) (seq (length h') (length ps)));
      cbn [heap players stateHistory].
    + pose proof (roster_at_copied h' ps [] Hcounted) as H. now rewrite app_nil_r in H.
    + eapply Forall2_impl; [exact Hhist|]. intros v snap Hsnap.
      apply (snapshot_at_frame (heap s) _ ls _ ps _ _ Hsnap Hall Hold).
      intros x Hx. apply in_seq in Hx. right. lia.
Qed.

End Play.

(** ** What [JSON.parse] builds *)

Lemma fresh_value_mono (a b a' b' : nat) (v : value) :
  fresh_value a b v -> (a' <= a)%nat -> (b <= b')%nat -> fresh_value a' b' v.
Proof. destruct v; cbn; intros; try exact I. lia. Qed.

Lemma closed_in_mono (a b a' b' : nat) (news : list object) :
  closed_in a b news -> (a' <= a)%nat -> (b <= b')%nat -> closed_in a' b' news.
Proof.
  intros H Ha Hb. eapply Forall_impl; [exact H|]. intros o Ho.
  eapply Forall_impl; [exact Ho|]. intros v Hv. eapply fresh_value_mono; eassumption.
Qed.

Lemma set_prop_values (k : string) (x : value) (props : list (string * value))
    (P : value -> Prop) :
  P x -> Forall P (map snd props) -> Forall P (map snd (set_prop k x props)).
Proof.
  intros Hx. induction props as [|[k' v] props IH]; cbn [set_prop map snd]; intros H.
  - now constructor.
  - inversion H as [|? ? Hv Hrest]; subst.
    destruct (String.eqb k k'); cbn [map snd]; constructor; auto.
Qed.

(** [JSON.parse] adds objects to the store, and what it builds is made
    of these objects only. *)
Lemma build_closed (j : json) (h : list object) :
  exists news : list object,
    snd (build j h) = h ++ news /\
    fresh_value (length h) (length h + length news) (fst (build j h)) /\
    closed_in (length h) (length h + length news) news.
Proof.
  revert j h. fix build_closed 1. intros j h.
  destruct j as [|b|n|s|js|ms]; cbn [build];
    try (exists []; cbn; rewrite app_nil_r; repeat split; constructor).
  - assert (Hels : exists news : list object,
              snd (build_elements build js h) = h ++ news /\
              Forall (fresh_value (length h) (length h + length news))
                     (fst (build_elements build js h)) /\
              closed_in (length h) (length h + length news) news).
    { revert h. induction js as [|j js IH]; intros h; cbn [build_elements].
      - exists []. cbn. rewrite app_nil_r. repeat split; constructor.
      - destruct (build_closed j h) as (n1 & H1 & Hv1 & Hc1).
        destruct (build j h) as [v h1]. cbn [fst snd] in *. subst h1.
        destruct (IH (h ++ n1)) as (n2 & H2 & Hv2 & Hc2).
        destruct (build_elements build js (h ++ n1)) as [vs h2]. cbn [fst snd] in *.
        subst h2. rewrite length_app in *.
        exists (n1 ++ n2). rewrite length_app, app_assoc.
        split; [reflexivity|]. split.
        + constructor.
          * eapply fresh_value_mono; [exact Hv1 | lia | lia].
          * eapply Forall_impl; [exact Hv2|]. intros v' Hv'.
            eapply fresh_value_mono; [exact Hv' | lia | lia].
        + apply Forall_app. split.
          * eapply closed_in_mono; [exact Hc1 | lia | lia].
          * eapply closed_in_mono; [exact Hc2 | lia | lia]. }
    destruct Hels as (news & H & Hv & Hc).
    destruct (build_elements build js h) as [vs h']. cbn [fst snd] in *. subst h'.
    exists (news ++ [Arr vs]). rewrite !length_app. cbn [length fst snd].
    rewrite app_assoc. split; [reflexivity|]. split; [cbn; lia|].
    apply Forall_app. split.
    + eapply closed_in_mono; [exact Hc | lia | lia].
    + constructor; [|constructor]. cbn [object_values].
      eapply Forall_impl; [exact Hv|]. intros v' Hv'.
      eapply fresh_value_mono; [exact Hv' | lia | lia].
  - assert (Hms : forall (props : list (string * value)) (a : nat),
              (a <= length h)%nat ->
              Forall (fresh_value a (length h)) (map snd props) ->
              exists news : list object,
                snd (build_members build ms props h) = h ++ news /\
                Forall (fresh_value a (length h + length news))
                       (map snd (fst (build_members build ms props h))) /\
                closed_in (length h) (length h + length news) news).
    { revert h. induction ms as [|[k j] ms IH]; intros h props a Ha Hprops;
        cbn [build_members].
      - exists []. cbn [fst snd length]. rewrite app_nil_r, Nat.add_0_r.
        repeat split; [assumption | constructor].
      - destruct (build_closed j h) as (n1 & H1 & Hv1 & Hc1).
        destruct (build j h) as [v h1]. cbn [fst snd] in *. subst h1.
        destruct (IH (h ++ n1) (set_prop k v props) a) as (n2 & H2 & Hv2 & Hc2).
        { rewrite length_app. lia. }
        { apply set_prop_values.
          - rewrite length_app. eapply fresh_value_mono; [exact Hv1 | lia | lia].
          - eapply Forall_impl; [exact Hprops|]. intros v' Hv'.
            rewrite length_app. eapply fresh_value_mono; [exact Hv' | lia | lia]. }
        rewrite length_app in *.
        exists (n1 ++ n2). rewrite length_app, app_assoc.
        split; [exact H2|]. split.
        + eapply Forall_impl; [exact Hv2|]. intros v' Hv'.
          eapply fresh_value_mono; [exact Hv' | lia | lia].
        + apply Forall_app. split.
          * eapply closed_in_mono; [exact Hc1 | lia | lia].
          * eapply closed_in_mono; [exact Hc2 | lia | lia]. }
    destruct (Hms [] (length h) (le_n _) (List.Forall_nil _)) as (news & H & Hv & Hc).
    destruct (build_members build ms [] h) as [props h']. cbn [fst snd] in *. subst h'.
    exists (news ++ [Obj props]). rewrite !length_app. cbn [length fst snd].
    rewrite app_assoc. split; [reflexivity|]. split; [cbn; lia|].
    apply Forall_app. split.
    + eapply closed_in_mono; [exact Hc | lia | lia].
    + constructor; [|constructor]. cbn [object_values].
      eapply Forall_impl; [exact Hv|]. intros v' Hv'.
      eapply fresh_value_mono; [exact Hv' | lia | lia].
Qed.

(** From a value made of new objects, only new objects are reached. *)
Lemma reach_closed (h news : list object) (v : value) (l : loc) :
  closed_in (length h) (length h + length news) news ->
  reach (h ++ news) v l ->
  fresh_value (length h) (length h + length news) v ->
  (length h <= l < length h + length news)%nat.
Proof.
  intros Hc. induction 1 as [l0 Hl0 | l0 o v' l' Ho Hin _ IH]; cbn [fresh_value].
  - auto.
  - intros Hfresh. apply IH.
    rewrite lookup_app_r in Ho by lia.
    unfold closed_in in Hc. rewrite Forall_forall in Hc.
    assert (Hnews : o ∈ news) by (apply list_elem_of_lookup; eauto).
    specialize (Hc o Hnews). rewrite Forall_forall in Hc.
    apply Hc. now apply list_elem_of_In.
Qed.

(** ** What [JSON.stringify] writes *)

(** The bound on the depth of [stringify] is never reached: the objects
    being written are distinct objects of the store, so that more fuel
    gives the same result. *)
Lemma stringify_elements_ext (visit visit' : value -> outcome (option json))
    (els : list value) :
  (forall v : value, visit v = visit' v) ->
  stringify_elements visit els = stringify_elements visit' els.
Proof.
  intros H. induction els as [|x els IH]; [reflexivity|].
  cbn [stringify_elements]. now rewrite H, IH.
Qed.

Lemma stringify_members_ext (visit visit' : value -> outcome (option json))
    (props : list (string * value)) :
  (forall v : value, visit v = visit' v) ->
  stringify_members visit props = stringify_members visit' props.
Proof.
  intros H. induction props as [|[k x] props IH]; [reflexivity|].
  cbn [stringify_members]. now rewrite H, IH.
Qed.

Lemma path_length (h : list object) (path : list loc) :
  List.NoDup path -> (forall l : loc, In l path -> (l < length h)%nat) ->
  (length path <= length h)%nat.
Proof.
  intros Hnd Hvalid.
  replace (length h) with (length (seq 0 (length h))) by apply length_seq.
  apply NoDup_incl_length; [assumption|].
  intros l Hl. apply in_seq. specialize (Hvalid l Hl). lia.
Qed.

Lemma stringify_fuel_enough (fuel fuel' : nat) (h : list object) (path : list loc)
    (v : value) :
  List.NoDup path -> (forall l : loc, In l path -> (l < length h)%nat) ->
  (length h <= fuel + length path)%nat -> (fuel <= fuel')%nat ->
  stringify_fuel fuel' h path v = stringify_fuel fuel h path v.
Proof.
  revert fuel' path v. induction fuel as [|fuel IH]; intros fuel' path v Hnd Hvalid Hlen Hle.
  - destruct v as [| | | | | | |l]; try (destruct fuel'; reflexivity).
    destruct fuel'; [reflexivity|]. cbn [stringify_fuel].
    destruct (h !! l) as [o|] eqn:Hl; [|reflexivity].
    destruct (on_path l path) eqn:Hpath; [now destruct o|].
    exfalso. apply on_path_false in Hpath.
    assert (H : (length (l :: path) <= length h)%nat).
    { apply path_length; [now constructor|].
      intros x [<- | Hx]; [eapply lookup_lt_Some; eassumption | now apply Hvalid]. }
    cbn [length] in H. lia.
  - destruct fuel' as [|fuel']; [lia|].
    destruct v as [| | | | | | |l]; try reflexivity. cbn [stringify_fuel].
    destruct (h !! l) as [o|] eqn:Hl; [|reflexivity].
    destruct (on_path l path) eqn:Hpath; [reflexivity|].
    apply on_path_false in Hpath.
    assert (Hvisit : forall x : value,
               stringify_fuel fuel' h (l :: path) x = stringify_fuel fuel h (l :: path) x).
    { intros x. apply IH.
      - now constructor.
      - intros y [<- | Hy]; [eapply lookup_lt_Some; eassumption | now apply Hvalid].
      - cbn [length]. lia.
      - lia. }
    destruct o as [els|props|]; [| |reflexivity].
    + now rewrite (stringify_elements_ext _ _ els Hvisit).
    + destruct (has_toJSON h props); [reflexivity|].
      now rewrite (stringify_members_ext _ _ props Hvisit).
Qed.

Lemma stringify_fuel_more (k : nat) (h : list object) (v : value) :
  stringify_fuel (length h + k) h [] v = stringify h v.
Proof.
  unfold stringify. apply stringify_fuel_enough; [constructor | intros l [] | | lia].
  cbn [length]. lia.
Qed.

(** ** Reading back what was written *)

Lemma set_prop_new {A} (k : string) (x : A) (props : list (string * A)) :
  existsb (String.eqb k) (map fst props) = false ->
  set_prop k x props = props ++ [(k, x)].
Proof.
  induction props as [|[k' v] props IH]; cbn [map fst existsb set_prop app];
    [reflexivity|].
  destruct (String.eqb k k'); cbn [orb]; [discriminate|].
  intros H. now rewrite IH.
Qed.

Lemma stringify_elements_written (visit : value -> outcome (option json))
    (vs : list value) (js : list json) :
  Forall2 (fun v j => visit v = Returns (Some j)) vs js ->
  stringify_elements visit vs = Returns js.
Proof.
  induction 1 as [|v j vs js Hv _ IH]; [reflexivity|].
  cbn [stringify_elements]. rewrite Hv. cbn [obind]. rewrite IH. reflexivity.
Qed.

Lemma stringify_members_written (visit : value -> outcome (option json))
    (pairs : list (string * value)) (ms : list (string * json)) :
  Forall2 (fun p m => fst p = fst m /\ visit (snd p) = Returns (Some (snd m))) pairs ms ->
  stringify_members visit pairs = Returns ms.
Proof.
  induction 1 as [|[k v] [k' j] pairs ms [Hk Hv] _ IH]; [reflexivity|].
  cbn [fst snd] in *. subst k'.
  cbn [stringify_members]. rewrite Hv. cbn [obind]. rewrite IH. reflexivity.
Qed.

Lemma assoc_In {A} (k : string) (props : list (string * A)) (x : A) :
  assoc k props = Some x -> exists p, In p props /\ snd p = x.
Proof.
  induction props as [|[k' v] props IH]; cbn [assoc]; [discriminate|].
  destruct (String.eqb k k').
  - intros [= <-]. exists (k', v). split; [now left | reflexivity].
  - intros H. destruct (IH H) as (p & Hp & Hx). exists p. split; [now right | exact Hx].
Qed.

(** What has a text is not a function, so that no property of an object
    that was read from a text is a method. *)
Lemma written_no_toJSON (fuel : nat) (h : list object) (path : list loc)
    (pairs : list (string * value)) (ms : list (string * json)) :
  Forall2 (fun p m => fst p = fst m /\
                      stringify_fuel fuel h path (snd p) = Returns (Some (snd m)))
          pairs ms ->
  has_toJSON h pairs = false.
Proof.
  intros Hall. unfold has_toJSON.
  destruct (assoc "toJSON" pairs) as [[| | | | | | |f]|] eqn:Ha; try reflexivity.
  destruct (h !! f) as [[| |]|] eqn:Hf; try reflexivity. exfalso.
  destruct (assoc_In _ _ _ Ha) as (p & Hp & Hv).
  apply list_elem_of_In, list_elem_of_lookup in Hp. destruct Hp as [i Hi].
  destruct (Forall2_lookup_l _ _ _ _ _ Hall Hi) as (m & _ & _ & Hm).
  rewrite Hv in Hm. destruct fuel; cbn [stringify_fuel] in Hm; rewrite Hf in Hm;
    discriminate.
Qed.

(** [JSON.parse] of a text builds a value that has this text, in the
    store as it is then and after more objects were added to it. *)
Lemma build_written (j : json) :
  canonical j = true ->
  forall h : list object,
  exists (k : nat) (news : list object),
    snd (build j h) = h ++ news /\
    forall (fuel : nat) (rest : list object) (path : list loc),
      (k <= fuel)%nat ->
      (forall l : loc,
          In l path -> (l < length h)%nat \/ (length h + length news <= l)%nat) ->
      stringify_fuel fuel (h ++ news ++ rest) path (fst (build j h)) = Returns (Some j).
Proof.
  revert j. fix build_written 1. intros j Hc h.
  destruct j as [|b|n|s|js|ms]; cbn [build fst snd];
    try (exists 0%nat, []; split; [now rewrite app_nil_r|];
         intros [|fuel] rest path _ _; reflexivity).
  - exists 0%nat, []. split; [now rewrite app_nil_r|].
    cbn [canonical] in Hc.
    intros [|fuel] rest path _ _; cbn [stringify_fuel]; now rewrite Hc.
  - assert (Hels : forall h0 : list object,
              exists (k : nat) (news : list object),
                snd (build_elements build js h0) = h0 ++ news /\
                forall (fuel : nat) (rest : list object) (path : list loc),
                  (k <= fuel)%nat ->
                  (forall l : loc,
                      In l path ->
                      (l < length h0)%nat \/ (length h0 + length news <= l)%nat) ->
                  Forall2 (fun v x =>
                             stringify_fuel fuel (h0 ++ news ++ rest) path v
                             = Returns (Some x))
                          (fst (build_elements build js h0)) js).
    { cbn [canonical] in Hc. induction js as [|j js IHjs]; intros h0.
      - exists 0%nat, []. split; [cbn; now rewrite app_nil_r|]. intros. constructor.
      - cbn [forallb] in Hc. apply andb_prop in Hc as [Hj Hjs].
        destruct (build_written j Hj h0) as (k1 & n1 & H1 & Hv1).
        cbn [build_elements]. destruct (build j h0) as [v ha]. cbn [fst snd] in H1, Hv1.
        subst ha.
        destruct (IHjs Hjs (h0 ++ n1)) as (k2 & n2 & H2 & Hv2).
        destruct (build_elements build js (h0 ++ n1)) as [vs hb].
        cbn [fst snd] in H2, Hv2 |- *. subst hb.
        exists (Nat.max k1 k2), (n1 ++ n2). split; [now rewrite app_assoc|].
        intros fuel rest path Hfuel Hpath. rewrite length_app in Hpath. constructor.
        + rewrite <- app_assoc. apply Hv1; [lia|].
          intros l Hl. destruct (Hpath l Hl); [left | right]; lia.
        + specialize (Hv2 fuel rest path). rewrite <- !app_assoc in Hv2.
          rewrite <- app_assoc. apply Hv2; [lia|].
          intros l Hl. rewrite length_app. destruct (Hpath l Hl); [left | right]; lia. }
    destruct (Hels h) as (k & news & H & Hv).
    destruct (build_elements build js h) as [vs h']. cbn [fst snd] in H, Hv |- *.
    subst h'. exists (S k), (news ++ [Arr vs]). split; [now rewrite app_assoc|].
    intros fuel rest path Hfuel Hpath. destruct fuel as [|fuel]; [lia|].
    rewrite length_app in Hpath. cbn [length] in Hpath.
    assert (Hl : (h ++ (news ++ [Arr vs]) ++ rest) !! length (h ++ news)
                 = Some (Arr vs)).
    { rewrite <- app_assoc, app_assoc. cbn [app]. now apply list_lookup_middle. }
    assert (Hon : on_path (length (h ++ news)) path = false).
    { apply on_path_false. intros Hin. rewrite length_app in Hin.
      destruct (Hpath _ Hin); lia. }
    cbn [stringify_fuel]. unfold loc in *. rewrite Hl, Hon.
    rewrite (stringify_elements_written _ vs js); [reflexivity|].
    specialize (Hv fuel ([Arr vs] ++ rest) (length (h ++ news) :: path)).
    rewrite <- app_assoc. apply Hv; [lia|].
    intros l [<- | Hin]; [right; rewrite length_app; lia|].
    destruct (Hpath _ Hin); [left | right]; lia.
  - assert (Hms : forall (props0 : list (string * value)) (h0 : list object),
              (forall key : string,
                  In key (map fst ms) ->
                  existsb (String.eqb key) (map fst props0) = false) ->
              exists (k : nat) (news : list object) (pairs : list (string * value)),
                build_members build ms props0 h0 = (props0 ++ pairs, h0 ++ news) /\
                forall (fuel : nat) (rest : list object) (path : list loc),
                  (k <= fuel)%nat ->
                  (forall l : loc,
                      In l path ->
                      (l < length h0)%nat \/ (length h0 + length news <= l)%nat) ->
                  Forall2 (fun p m =>
                             fst p = fst m /\
                             stringify_fuel fuel (h0 ++ news ++ rest) path (snd p)
                             = Returns (Some (snd m)))
                          pairs ms).
    { cbn [canonical] in Hc. apply andb_prop in Hc as [Hkeys Hc].
      induction ms as [|[key j] ms IHms]; intros props0 h0 Hnew.
      - exists 0%nat, [], []. split; [cbn; now rewrite !app_nil_r|]. intros. constructor.
      - cbn [forallb snd] in Hc. apply andb_prop in Hc as [Hj Hjs].
        cbn [map fst distinct_keys] in Hkeys. apply andb_prop in Hkeys as [Hkey Hkeys].
        apply negb_true_iff in Hkey.
        destruct (build_written j Hj h0) as (k1 & n1 & H1 & Hv1).
        cbn [build_members]. destruct (build j h0) as [v ha]. cbn [fst snd] in H1, Hv1.
        subst ha.
        rewrite (set_prop_new key v props0) by (apply Hnew; now left).
        destruct (IHms Hkeys Hjs (props0 ++ [(key, v)]) (h0 ++ n1))
          as (k2 & n2 & pairs & H2 & Hv2).
        { intros key' Hin. rewrite map_app, existsb_app. cbn [map fst existsb].
          rewrite (Hnew key') by (now right). cbn [orb]. rewrite orb_false_r.
          destruct (String.eqb key' key) eqn:He; [|reflexivity].
          apply String.eqb_eq in He. subst key'.
          rewrite <- Hkey. symmetry. apply existsb_exists. exists key.
          split; [assumption | apply String.eqb_refl]. }
        exists (Nat.max k1 k2), (n1 ++ n2), ((key, v) :: pairs).
        split; [rewrite H2, <- !app_assoc; reflexivity|].
        intros fuel rest path Hfuel Hpath. rewrite length_app in Hpath. constructor.
        + split; [reflexivity|]. cbn [snd]. rewrite <- app_assoc. apply Hv1; [lia|].
          intros l Hl. destruct (Hpath l Hl); [left | right]; lia.
        + specialize (Hv2 fuel rest path). rewrite <- !app_assoc in Hv2.
          rewrite <- app_assoc. apply Hv2; [lia|].
          intros l Hl. rewrite length_app. destruct (Hpath l Hl); [left | right]; lia. }
    destruct (Hms [] h) as (k & news & pairs & H & Hv); [reflexivity|].
    rewrite H. cbn [app fst snd].
    exists (S k), (news ++ [Obj pairs]). split; [now rewrite app_assoc|].
    intros fuel rest path Hfuel Hpath. destruct fuel as [|fuel]; [lia|].
    rewrite length_app in Hpath. cbn [length] in Hpath.
    assert (Hl : (h ++ (news ++ [Obj pairs]) ++ rest) !! length (h ++ news)
                 = Some (Obj pairs)).
    { rewrite <- app_assoc, app_assoc. cbn [app]. now apply list_lookup_middle. }
    assert (Hon : on_path (length (h ++ news)) path = false).
    { apply on_path_false. intros Hin. rewrite length_app in Hin.
      destruct (Hpath _ Hin); lia. }
    specialize (Hv fuel ([Obj pairs] ++ rest) (length (h ++ news) :: path)).
    rewrite <- app_assoc in Hl |- *.
    assert (Hall : Forall2 (fun p m =>
                     fst p = fst m /\
                     stringify_fuel fuel (h ++ news ++ [Obj pairs] ++ rest)
                                    (length (h ++ news) :: path) (snd p)
                     = Returns (Some (snd m))) pairs ms).
    { apply Hv; [lia|].
      intros l [<- | Hin]; [right; rewrite length_app; lia|].
      destruct (Hpath _ Hin); [left | right]; lia. }
    cbn [stringify_fuel]. unfold loc in *. rewrite Hl, Hon.
    rewrite (written_no_toJSON _ _ _ _ _ Hall).
    rewrite (stringify_members_written _ pairs ms Hall). reflexivity.
Qed.

(** The value parsed from a text has this text. *)
Lemma build_stringify (j : json) (h rest : list object) :
  canonical j = true ->
  stringify (snd (build j h) ++ rest) (fst (build j h)) = Returns (Some j).
Proof.
  intros Hc. destruct (build_written j Hc h) as (k & news & H & Hv).
  rewrite H. rewrite <- (stringify_fuel_more k). rewrite <- app_assoc.
  apply Hv; [lia | intros l []].
Qed.

(** The copy made through JSON has the text of the original. *)
Lemma adopted_text (h h' rest : list object) (v copy : value) (text : json) :
  adopted h v = Returns (copy, h') ->
  stringify h v = Returns (Some text) -> canonical text = true ->
  stringify (h' ++ rest) copy = Returns (Some text).
Proof.
  unfold adopted. intros Had Hs Hc. rewrite Hs in Had. injection Had as H.
  pose proof (build_stringify text h rest Hc) as Hb. rewrite H in Hb. exact Hb.
Qed.

(** ** Import *)

Lemma json_copy_adopted (v : value) (s : state) :
  json_copy v s
  = match adopted (heap s) v with
    | Returns (copy, h') => (Returns copy, set_heap h' s)
    | Throws => (Throws, s)
    | Unsupported => (Unsupported, s)
    end.
Proof.
  unfold json_copy, adopted.
  destruct (stringify (heap s) v) as [[text|]| |]; reflexivity.
Qed.

Lemma setGameState_rejects (st : value) (s : state) :
  in_store (heap s) st ->
  well_formed (heap s) st = false ->
  setGameState st s = (Returns false, s).
Proof.
  unfold well_formed, setGameState, field. intros Hin.
  destruct (truthy st) eqn:Ht; [|reflexivity]. cbn [andb]. unfold bind at 1, reads.
  assert (Hget : forall k : string, exists x, get (heap s) st k = Returns x).
  { intros k. destruct st as [| | | | | | |l]; try discriminate; cbn [get]; eauto.
    cbn [in_store] in Hin. destruct (heap s !! l) as [[]|] eqn:Ho; eauto.
    apply lookup_ge_None in Ho. lia. }
  destruct (Hget "players") as [ps ->]. destruct (truthy ps); [|reflexivity].
  cbn [andb]. unfold bind at 1, reads.
  destruct (Hget "currentRound") as [r ->]. now destruct r.
Qed.

Lemma setGameState_accepts (st : value) (s : state) :
  well_formed (heap s) st = true ->
  exists n : number,
    field (heap s) st "currentRound" = VNum n /\
    setGameState st s
    = match adopted (heap s) (field (heap s) st "players") with
      | Returns (copy, h') =>
          (Returns true, mkState h' (randomCalls s) copy n (stateHistory s))
      | Throws => (Throws, s)
      | Unsupported => (Unsupported, s)
      end.
Proof.
  unfold well_formed, setGameState, field. intros H.
  apply andb_prop in H as [H Hnum]. apply andb_prop in H as [Hst Hps].
  rewrite Hst. unfold bind at 1, reads.
  destruct (get (heap s) st "players") as [ps| |]; try discriminate.
  rewrite Hps. unfold bind at 1, reads.
  destruct (get (heap s) st "currentRound") as [r| |]; try discriminate.
  destruct r as [| | |n| | | |]; try discriminate.
  exists n. split; [reflexivity|]. unfold bind at 1. rewrite json_copy_adopted.
  destruct (adopted (heap s) ps) as [[copy h']| |]; reflexivity.
Qed.

Lemma adopted_roster (h : list object) (v : value) (ls : list loc) (ps : list Player) :
  roster_at h v ls ps ->
  adopted h v = Returns (VRef (length h + length ps)%nat, h ++ copied h ps).
Proof.
  intros Hr. unfold adopted. rewrite (stringify_roster _ _ _ _ Hr).
  now rewrite build_roster.
Qed.

Lemma adopted_plain (h : list object) (v : value) :
  plain v = true -> adopted h v = Returns (v, h).
Proof.
  destruct v as [| |b|n|str| | |]; try discriminate; cbn [plain]; intros H;
    unfold adopted, stringify; try (destruct (length h); reflexivity).
  destruct (length h); cbn [stringify_fuel]; rewrite H; reflexivity.
Qed.

(** What is adopted is made of new objects: the store is the old one
    with objects added, which refer to one another only, and from the
    roster adopted only these are reached. *)
Lemma adopted_new (h h' : list object) (v copy : value) :
  adopted h v = Returns (copy, h') ->
  exists news : list object,
    h' = h ++ news /\
    fresh_value (length h) (length h') copy /\
    closed_in (length h) (length h') news /\
    forall l : loc, reach h' copy l -> (length h <= l < length h')%nat.
Proof.
  unfold adopted. destruct (stringify h v) as [[text|]| |]; try discriminate.
  intros [= H]. destruct (build_closed text h) as (news & Hh & Hv & Hc).
  rewrite H in Hh, Hv. cbn [fst snd] in *. subst h'.
  exists news. rewrite length_app. split; [reflexivity|]. split; [assumption|].
  split; [assumption|].
  intros l Hl. eapply reach_closed; eassumption.
Qed.

Lemma list_lookup_last (h : list object) (o : object) :
  (h ++ [o]) !! length h = Some o.
Proof. now apply list_lookup_middle. Qed.

(** C4, as the code has it.  [setGameState] returns false, and the
    state it leaves is the state it found, on every input that does not
    pass its check, which asks for a truthy [state], a truthy
    [state.players] and a [state.currentRound] of type number; the six
    states of [invalidStates] are among them.  On an input that passes,
    it goes by the text that [JSON.stringify] gives for
    [state.players]: with a text, it returns true, and the roster is the
    value parsed from that text, made of new objects, the counter is
    [state.currentRound] and the history is as it was; a roster of
    Player records is adopted as a roster of the same records, a
    string, a boolean or a finite number as itself, and whatever is
    adopted has the text of [state.players] again, no object of the
    language having a property twice.  Without a text (a
    function or a symbol as [players], a BigInt or a cycle inside it)
    the call raises and the state is the state it found. *)
Theorem setGameState_validation (st : value) (s : state) :
  in_store (heap s) st ->
  (well_formed (heap s) st = false -> setGameState st s = (Returns false, s)) /\
  (well_formed (heap s) st = true ->
   exists n : number,
     field (heap s) st "currentRound" = VNum n /\
     match adopted (heap s) (field (heap s) st "players") with
     | Returns (copy, h') =>
         setGameState st s
         = (Returns true, mkState h' (randomCalls s) copy n (stateHistory s)) /\
         (exists news : list object, h' = heap s ++ news) /\
         (forall l : loc, reach h' copy l -> (length (heap s) <= l < length h')%nat) /\
         (forall (ls : list loc) (ps : list Player),
             roster_at (heap s) (field (heap s) st "players") ls ps ->
             read_roster h' copy = Some ps) /\
         (plain (field (heap s) st "players") = true ->
          copy = field (heap s) st "players") /\
         (forall text : json,
             stringify (heap s) (field (heap s) st "players") = Returns (Some text) ->
             canonical text = true ->
             stringify h' copy = Returns (Some text))
     | Throws => setGameState st s = (Throws, s)
     | Unsupported => setGameState st s = (Unsupported, s)
     end) /\
  Forall (fun lit => forall s0 : state,
              setGameState (fst (literal lit s0)) (snd (literal lit s0))
              = (Returns false, snd (literal lit s0)))
         invalidStates.
Proof.
  intros Hin. split; [now apply setGameState_rejects|]. split.
  - intros Hwf. destruct (setGameState_accepts st s Hwf) as (n & Hn & Hset).
    exists n. split; [assumption|].
    destruct (adopted (heap s) (field (heap s) st "players")) as [[copy h']| |] eqn:Had;
      try assumption.
    destruct (adopted_new _ _ _ _ Had) as (news & Hh & _ & _ & Hreach).
    split; [assumption|]. split; [eauto|]. split; [assumption|]. split; [|split].
    + intros ls ps Hr. rewrite (adopted_roster _ _ _ _ Hr) in Had.
      injection Had as <- <-.
      apply (read_roster_intro _ _ (seq (length (heap s)) (length ps))).
      pose proof (roster_at_copied (heap s) ps [] (roster_at_counted _ _ _ _ Hr)) as H.
      now rewrite app_nil_r in H.
    + intros Hplain. rewrite (adopted_plain _ _ Hplain) in Had. congruence.
    + intros text Htext Hc.
      pose proof (adopted_text _ _ [] _ _ _ Had Htext Hc) as H.
      now rewrite app_nil_r in H.
  - unfold invalidStates. repeat apply List.Forall_cons; try apply List.Forall_nil;
      intros s0; cbn [literal build build_members build_elements
                      set_prop fst snd set_heap];
      try reflexivity.
    all: apply setGameState_rejects;
      [cbn [in_store heap set_heap]; rewrite ?length_app; cbn [length]; lia|];
      unfold well_formed, field; cbn [truthy andb get heap set_heap].
    all: rewrite !list_lookup_last; reflexivity.
Qed.

(** ** Games played from a fresh roster *)

Lemma holders_le_length (m : Z) (ps : list Player) :
  holders m ps <= Z.of_nat (length ps).
Proof.
  induction ps as [|p ps IH]; [reflexivity|].
  rewrite holders_cons. cbn [length]. destruct (wins m p); lia.
Qed.

Lemma total_insert (i : nat) (p q : Player) (ps : list Player) :
  ps !! i = Some p -> score q = score p -> total (<[i := q]> ps) = total ps.
Proof.
  revert i. induction ps as [|a ps IH]; intros [|i] Hi Hs; try discriminate.
  - injection Hi as ->. cbn. now rewrite Hs.
  - change (<[S i := q]> (a :: ps)) with (a :: <[i := q]> ps).
    change (total (a :: <[i := q]> ps)) with (score a + total (<[i := q]> ps)).
    change (total (a :: ps)) with (score a + total ps).
    now rewrite (IH i Hi Hs).
Qed.

Lemma cards_insert (i : nat) (p q : Player) (ps : list Player) :
  ps !! i = Some p -> cardHeld q = cardHeld p ->
  map cardHeld (<[i := q]> ps) = map cardHeld ps.
Proof.
  revert i. induction ps as [|a ps IH]; intros [|i] Hi Hc; try discriminate.
  - injection Hi as ->. cbn. now rewrite Hc.
  - change (<[S i := q]> (a :: ps)) with (a :: <[i := q]> ps).
    cbn [map]. now rewrite (IH i Hi Hc).
Qed.

Lemma rename_total (i : Z) (n : string) (ps : list Player) :
  total (rename i n ps) = total ps.
Proof.
  unfold rename. destruct ((i <? 0) || String.eqb n EmptyString); [reflexivity|].
  destruct (ps !! Z.to_nat i) as [p|] eqn:Hp; [|reflexivity].
  now apply (total_insert _ p).
Qed.

Lemma rename_cards (i : Z) (n : string) (ps : list Player) :
  map cardHeld (rename i n ps) = map cardHeld ps.
Proof.
  unfold rename. destruct ((i <? 0) || String.eqb n EmptyString); [reflexivity|].
  destruct (ps !! Z.to_nat i) as [p|] eqn:Hp; [|reflexivity].
  now apply (cards_insert _ p).
Qed.

Lemma leaders_cards (ps qs : list Player) :
  map cardHeld ps = map cardHeld qs -> leaders ps = leaders qs.
Proof.
  intros H. unfold leaders. rewrite (biggest_cards ps qs 0 H).
  now apply holders_cards.
Qed.

Lemma no_cards_cards (ps qs : list Player) :
  map cardHeld ps = map cardHeld qs -> no_cards ps -> no_cards qs.
Proof.
  revert qs. induction ps as [|p ps IH]; intros [|q qs] H Hno; try discriminate.
  - constructor.
  - injection H as Hc H. inversion Hno as [|? ? Hp Hps]; subst.
    constructor; [congruence | now apply IH].
Qed.

Lemma scored_roster_fresh : scored_roster 0 initialRoster.
Proof.
  split; [reflexivity|]. split; [repeat constructor; cbn; lia|].
  split; [cbn; lia|]. split; [repeat constructor; discriminate|].
  split; [lia|]. intros _. repeat constructor.
Qed.

Lemma scored_roster_rename (i : Z) (n : string) (k : Z) (ps : list Player) :
  scored_roster k ps -> scored_roster k (rename i n ps).
Proof.
  intros H. pose proof (rename_total i n ps) as Ht.
  pose proof (rename_cards i n ps) as Hc. revert Ht Hc.
  unfold rename. destruct ((i <? 0) || String.eqb n EmptyString); [intros; assumption|].
  destruct (ps !! Z.to_nat i) as [p|] eqn:Hp; [|intros; assumption].
  intros Ht Hc.
  destruct H as (Hlen & Hscores & Htotal & Hcards & Hheld & Hnone).
  assert (Hin : p ∈ ps) by (apply list_elem_of_lookup; eauto).
  split; [now rewrite length_insert|].
  split; [apply Forall_insert; [assumption|]; cbn;
          rewrite Forall_forall in Hscores; now apply Hscores|].
  split; [now rewrite Ht|].
  split; [|split].
  - apply Forall_insert; [assumption|]. cbn.
    rewrite Forall_forall in Hcards. now apply Hcards.
  - intros Hk. apply Forall_insert; [auto|]. cbn.
    specialize (Hheld Hk). rewrite Forall_forall in Hheld. now apply Hheld.
  - intros Hk. apply (no_cards_cards ps); [now symmetry | auto].
Qed.

Lemma scored_roster_exact (n : Z) (ps : list Player) :
  0 <= n <= TOTAL_ROUNDS -> scored_roster n ps ->
  Forall (fun p => - 2 ^ 53 <= score p < 2 ^ 53) ps.
Proof.
  intros Hn (_ & Hscores & _). eapply Forall_impl; [exact Hscores|].
  cbn. intros p Hp. rewrite TOTAL_ROUNDS_value in Hn. unfold POINTS_PER_SCORE in Hp.
  change (2 ^ 53) with 9007199254740992. lia.
Qed.

Section Scores.

Variable random : nat -> random_number.

Lemma playedRound_card_range (k : nat) (ps : list Player) :
  Forall (fun p => exists c, cardHeld p = Some c /\ 1 <= c <= MAX_CARD_VALUE)
         (playedRound random k ps).
Proof.
  apply Forall_lookup. intros i p' Hi.
  assert (Hi' : (i < length ps)%nat).
  { apply lookup_lt_Some in Hi. now rewrite playedRound_length in Hi. }
  destruct (lookup_lt_is_Some_2 ps i Hi') as [p Hp].
  destruct (playedRound_lookup random k ps i p p' Hp Hi) as (_ & Hc & _).
  exists (card random (k + i)). split; [assumption | apply card_range].
Qed.

Lemma scored_roster_next (k : nat) (n : Z) (ps : list Player) :
  0 <= n < TOTAL_ROUNDS ->
  scored_roster n ps ->
  scored_roster (n + 1) (playedRound random k ps).
Proof.
  intros Hn Hs.
  assert (Hexact := scored_roster_exact n ps ltac:(lia) Hs).
  destruct Hs as (Hlen & Hscores & Htotal & _ & _).
  assert (Hne : ps <> []) by (intros ->; discriminate).
  pose proof (leaders_positive random k ps Hne) as Hlead.
  pose proof (holders_le_length (biggest (playedRound random k ps) 0)
                (playedRound random k ps)) as Hmost.
  fold (leaders (playedRound random k ps)) in Hmost.
  rewrite playedRound_length in Hmost.
  unfold scored_roster. unfold NUM_PLAYERS, POINTS_PER_SCORE in *.
  change (Z.of_nat (length initialRoster)) with 4 in *.
  split; [now rewrite playedRound_length|].
  split; [|split; [|split; [|split]]].
  - apply Forall_lookup. intros i p' Hi.
    assert (Hi' : (i < length ps)%nat).
    { apply lookup_lt_Some in Hi. now rewrite playedRound_length in Hi. }
    destruct (lookup_lt_is_Some_2 ps i Hi') as [p Hp].
    destruct (playedRound_lookup random k ps i p p' Hp Hi) as (_ & _ & Hsc).
    rewrite Forall_lookup in Hscores, Hexact.
    specialize (Hscores i p Hp). specialize (Hexact i p Hp). cbn in Hscores, Hexact.
    rewrite (add_points_exact _ Hexact) in Hsc. unfold POINTS_PER_SCORE in Hsc.
    destruct (card random (k + i) =? biggest (deal random k ps) 0); lia.
  - rewrite playedRound_total by assumption. unfold POINTS_PER_SCORE. lia.
  - eapply Forall_impl; [apply playedRound_card_range|].
    cbn. intros p (c & Hc & Hrange) c' Hc'. congruence.
  - intros _. eapply Forall_impl; [apply playedRound_card_range|].
    cbn. intros p (c & Hc & _). congruence.
  - lia.
Qed.

Lemma scored_fresh : scored (mkGame initialRoster (Int 0) []).
Proof.
  exists 0. cbn. split; [reflexivity|]. split; [rewrite TOTAL_ROUNDS_value; lia|].
  split; [apply scored_roster_fresh | reflexivity].
Qed.

Lemma scored_history_length (snaps : list (list Player * number)) (n : Z)
    (ps : list Player) :
  scored_history snaps n ps -> n = Z.of_nat (length snaps).
Proof.
  revert n ps. induction snaps as [|[qs r] snaps IH]; intros n ps; cbn [scored_history].
  - now intros ->.
  - intros (_ & _ & _ & H). apply IH in H. cbn [length]. lia.
Qed.

Lemma scored_history_cards (snaps : list (list Player * number)) (n : Z)
    (ps ps' : list Player) :
  map cardHeld ps = map cardHeld ps' -> total ps = total ps' ->
  scored_history snaps n ps -> scored_history snaps n ps'.
Proof.
  intros Hc Ht. destruct snaps as [|[qs r] rest]; [trivial|]. cbn [scored_history].
  intros (Hr & Hqs & Htot & Hrest). rewrite <- Ht, <- (leaders_cards _ _ Hc). auto.
Qed.

Lemma scored_nextGame (k : nat) (g : game) :
  scored g ->
  number_ltb (round g) (Int TOTAL_ROUNDS) = true ->
  scored (nextGame random k g).
Proof.
  intros (n & Hround & Hn & Hroster & Hhist) Hlt.
  rewrite Hround in Hlt. cbn in Hlt. apply Z.ltb_lt in Hlt.
  exists (n + 1). unfold nextGame. cbn [roster round history]. rewrite Hround.
  rewrite number_add_Int
    by (rewrite TOTAL_ROUNDS_value in *; change (2 ^ 53) with 9007199254740992; lia).
  cbn [scored_history]. replace (n + 1 - 1) with n by lia.
  split; [reflexivity|]. split; [lia|].
  split; [apply scored_roster_next; [lia | assumption]|].
  split; [reflexivity|]. split; [assumption|]. split; [|assumption].
  apply playedRound_total. apply (scored_roster_exact n); [lia | assumption].
Qed.

Lemma scored_undo (g : game) (ps : list Player) (r : number)
    (rest : list (list Player * number)) :
  scored g -> history g = (ps, r) :: rest -> scored (mkGame ps r rest).
Proof.
  intros (n & Hround & Hn & Hroster & Hhist) Hg. rewrite Hg in Hhist.
  cbn in Hhist. destruct Hhist as (-> & Hps & _ & Hrest).
  pose proof (scored_history_length _ _ _ Hrest).
  exists (n - 1). cbn. split; [reflexivity|]. split; [lia | auto].
Qed.

Lemma scored_rename (i : Z) (n : string) (g : game) :
  scored g -> scored (mkGame (rename i n (roster g)) (round g) (history g)).
Proof.
  intros (k & Hround & Hk & Hroster & Hhist). exists k. cbn.
  split; [assumption|]. split; [assumption|].
  split; [now apply scored_roster_rename|].
  apply (scored_history_cards _ _ (roster g));
    [symmetry; apply rename_cards | symmetry; apply rename_total | assumption].
Qed.

(** From a game state, the loop returns or runs out of fuel: it never
    raises. *)
Lemma runGameLoop_scored (fuel : nat) (s : state) (g : game) (o : outcome value)
    (s' : state) :
  represents s g -> scored g ->
  runGameLoop random fuel s = Some (o, s') ->
  o = Returns (players s') /\ exists g', represents s' g' /\ scored g'.
Proof.
  revert s g. induction fuel as [|fuel IH]; intros s g Hrep Hscored; cbn [runGameLoop];
    destruct (number_ltb (currentRound s) (Int TOTAL_ROUNDS)) eqn:Hlt;
    try discriminate; try (intros [= <- <-]; eauto).
  assert (Hlt' : number_ltb (round g) (Int TOTAL_ROUNDS) = true).
  { now rewrite <- (represents_round s g Hrep). }
  destruct (runRound_represents random s g Hrep Hlt') as (s1 & Hrun & Hrep1 & _).
  rewrite Hrun. apply IH with (g := nextGame random (randomCalls s) g);
    [assumption | now apply scored_nextGame].
Qed.

Lemma represents_history (s : state) (g : game) :
  represents s g -> stateHistory s = [] <-> history g = [].
Proof.
  intros Hrep. pose proof (represents_history_length s g Hrep) as H.
  split; intros H0; rewrite H0 in H; cbn in H.
  - now destruct (history g).
  - now destruct (stateHistory s).
Qed.

(** A call other than [setGameState] on a game state returns, and
    leaves a game state. *)
Lemma step_scored (c : call) (s s' : state) (g : game) :
  represents s g -> scored g -> no_import c = true -> step random c s s' ->
  exists g', represents s' g' /\ scored g'.
Proof.
  intros Hrep Hscored Hc Hstep.
  destruct Hstep as [i n s o s' Hrun _ | s o s' Hrun _ | s o s' Hrun _
                     | fuel s o s' Hrun _ | s o s' Hrun _ | st s o s' Hrun _
                     | s o s' Hrun _ | obj s].
  - destruct (modifyPlayerName_represents i n s g Hrep) as (s1 & Hrun1 & Hrep1 & _).
    rewrite Hrun1 in Hrun. injection Hrun as _ <-.
    eexists. split; [exact Hrep1 | now apply scored_rename].
  - destruct (number_ltb (round g) (Int TOTAL_ROUNDS)) eqn:Hlt.
    + destruct (runRound_represents random s g Hrep Hlt) as (s1 & Hrun1 & Hrep1 & _).
      rewrite Hrun1 in Hrun. injection Hrun as _ <-.
      eexists. split; [exact Hrep1 | now apply scored_nextGame].
    + rewrite runRound_stops in Hrun
        by (now rewrite (represents_round s g Hrep)).
      injection Hrun as _ <-. eauto.
  - destruct (history g) as [|[ps r] rest] eqn:Hg.
    + rewrite undoLastRound_empty in Hrun by (now apply (represents_history s g)).
      injection Hrun as _ <-. eauto.
    + destruct (undoLastRound_represents s g ps r rest Hrep Hg)
        as (s1 & Hrun1 & Hrep1 & _).
      rewrite Hrun1 in Hrun. injection Hrun as _ <-.
      eexists. split; [exact Hrep1 | eapply scored_undo; eassumption].
  - eapply runGameLoop_scored; eassumption.
  - destruct (getGameState_represents s g Hrep) as (Hrun1 & Hrep1).
    rewrite Hrun1 in Hrun. injection Hrun as _ <-. eauto.
  - discriminate.
  - destruct (resetGame_represents s) as (s1 & Hrun1 & Hrep1 & _).
    rewrite Hrun1 in Hrun. injection Hrun as _ <-.
    eexists. split; [exact Hrep1 | apply scored_fresh].
  - exists g. split; [now apply represents_grown | assumption].
Qed.

Lemma reachable_scored (s : state) :
  reachable random no_import s -> exists g, represents s g /\ scored g.
Proof.
  induction 1 as [h calls s Hs | c s s' Hreach (g & Hrep & Hscored) Hc Hstep].
  - eexists. split; [eapply createGameLogic_represents; eassumption | apply scored_fresh].
  - eapply step_scored; eassumption.
Qed.

(** C5, as the code has it.  In every state that the engine made by
    [createGameLogic()] reaches by calls other than [setGameState], the
    round counter is an integer and the history holds that many
    entries.  ([setGameState] replaces the counter and leaves the
    history as it is.) *)
Theorem history_length_is_round (s : state) :
  reachable random no_import s ->
  exists n : Z,
    currentRound s = Int n /\ Z.of_nat (length (stateHistory s)) = n.
Proof.
  intros Hreach.
  destruct (reachable_scored s Hreach) as (g & Hrep & (n & Hn & _ & _ & Hhist)).
  exists n. split; [now rewrite (represents_round s g Hrep)|].
  rewrite (represents_history_length s g Hrep).
  symmetry. eapply scored_history_length; eassumption.
Qed.

(** C9, as the code has it.  In every state that the engine made by
    [createGameLogic()] reaches by calls other than [setGameState], if
    the round counter is 0 then the roster is a sequence of Player
    records in which every [cardHeld] is null.  ([setGameState] adopts
    the cards of the state it is given, whatever the round.) *)
Theorem round_zero_no_cards (s : state) :
  reachable random no_import s ->
  currentRound s = Int 0 ->
  exists ps : list Player, roster_is s ps /\ no_cards ps.
Proof.
  intros Hreach H0.
  destruct (reachable_scored s Hreach)
    as (g & Hrep & (n & Hn & _ & (_ & _ & _ & _ & _ & Hcards) & _)).
  exists (roster g). split; [now apply represents_roster|].
  apply Hcards. rewrite (represents_round s g Hrep) in H0. congruence.
Qed.

(** X11.  In every state that the engine made by [createGameLogic()]
    reaches by calls other than [setGameState]: the round [n] is between
    0 and [TOTAL_ROUNDS]; the roster holds [NUM_PLAYERS] Player records;
    no score is below 0 or above [n]; the scores add up to at least [n]
    and at most [NUM_PLAYERS * n]; a card held is between 1 and
    [MAX_CARD_VALUE]; and from round 1 on everybody holds a card. *)
Theorem scores_follow_rounds (s : state) :
  reachable random no_import s ->
  exists (ps : list Player) (n : Z),
    roster_is s ps /\
    currentRound s = Int n /\
    0 <= n <= TOTAL_ROUNDS /\
    Z.of_nat (length ps) = NUM_PLAYERS /\
    Forall (fun p => 0 <= score p <= n) ps /\
    n <= total ps <= NUM_PLAYERS * n /\
    Forall (fun p => forall c, cardHeld p = Some c -> 1 <= c <= MAX_CARD_VALUE) ps /\
    (0 < n -> Forall (fun p => cardHeld p <> None) ps).
Proof.
  intros Hreach.
  destruct (reachable_scored s Hreach) as (g & Hrep & (n & Hn & Hrange & Hscored & _)).
  destruct Hscored as (Hlen & Hscores & Htotal & Hcards & Hheld & _).
  unfold POINTS_PER_SCORE, NUM_PLAYERS in *.
  change (Z.of_nat (length initialRoster)) with 4 in *.
  exists (roster g), n. split; [now apply represents_roster|].
  split; [now rewrite (represents_round s g Hrep)|].
  split; [assumption|]. split; [assumption|].
  split; [eapply Forall_impl; [exact Hscores|]; cbn; intros; lia|].
  split; [lia|]. split; assumption.
Qed.

End Scores.

(** ** The game loop *)





Section Loop.

Variable random : nat -> random_number.



(** The last of [S m] rounds comes on top of the first [m]. *)
Lemma nextGames_last (m k : nat) (g : game) :
  exists k', nextGames random (S m) k g = nextGame random k' (nextGames random m k g).
Proof.
  revert k g. induction m as [|m IH]; intros k g.
  - now exists k.
  - destruct (IH (k + length (roster g))%nat (nextGame random k g)) as (k' & Hk').
    exists k'. exact Hk'.
Qed.



Lemma runGameLoop_over (fuel : nat) (s : state) :
  number_ltb (currentRound s) (Int TOTAL_ROUNDS) = false ->
  runGameLoop random fuel s = Some (Returns (players s), s).
Proof. intros H. destruct fuel; cbn [runGameLoop]; now rewrite H. Qed.

Lemma runGameLoop_represents (m : nat) (s : state) (g : game) (n : Z) (fuel : nat) :
  represents s g ->
  round g = Int n ->
  0 <= n ->
  Z.of_nat m = TOTAL_ROUNDS - n ->
  (m <= fuel)%nat ->
  exists s' news,
    runGameLoop random fuel s = Some (Returns (players s'), s') /\
    represents s' (nextGames random m (randomCalls s) g) /\
    players s' = players s /\
    stateHistory s' = news ++ stateHistory s /\
    length news = m.
Proof.
  revert s g n fuel. induction m as [|m IH]; intros s g n fuel Hrep Hn H0 Hm Hfuel.
  - exists s, []. rewrite runGameLoop_over.
    + split; [reflexivity|]. split; [exact Hrep|]. now repeat split.
    + rewrite (represents_round s g Hrep), Hn. cbn. apply Z.ltb_ge. lia.
  - destruct fuel as [|fuel]; [lia|].
    assert (Hlt : number_ltb (round g) (Int TOTAL_ROUNDS) = true)
      by (rewrite Hn; cbn; apply Z.ltb_lt; lia).
    destruct (runRound_represents random s g Hrep Hlt)
      as (s1 & Hrun & Hrep1 & Hcalls & Hplayers & Hhist & _).
    cbn [runGameLoop]. rewrite (represents_round s g Hrep), Hlt, Hrun.
    destruct (IH s1 (nextGame random (randomCalls s) g) (n + 1) fuel Hrep1)
      as (s' & news & Hloop & Hrep' & Hplayers' & Hhist' & Hlen);
      [| lia | lia | lia |].
    { cbn. rewrite Hn. apply number_add_Int. rewrite TOTAL_ROUNDS_value in Hm.
      change (2 ^ 53) with 9007199254740992. lia. }
    exists s', (news ++ [VRef (length (heap s) + length (roster g) + 1)%nat]).
    rewrite Hloop.
    split; [reflexivity|]. split; [|split; [congruence|split]].
    + cbn [nextGames]. now rewrite <- Hcalls.
    + rewrite Hhist', Hhist, <- app_assoc. reflexivity.
    + rewrite length_app. cbn. lia.
Qed.

(** The rounds of a loop can be undone one by one. *)
Lemma undoRounds_nextGames (m k : nat) (s : state) (g : game) :
  represents s (nextGames random m k g) ->
  exists s', undoRounds m s = (Returns (repeat true m), s') /\ represents s' g.
Proof.
  revert s. induction m as [|m IH]; intros s Hrep.
  - exists s. now split.
  - destruct (nextGames_last m k g) as (k' & Hk'). rewrite Hk' in Hrep.
    destruct (undoLastRound_represents s _ _ _ _ Hrep eq_refl)
      as (s1 & Hundo & Hrep1 & _).
    destruct (IH s1) as (s' & Hrest & Hrep').
    { now destruct (nextGames random m k g). }
    exists s'. cbn [undoRounds repeat]. now rewrite Hundo, Hrest.
Qed.

Lemma playedRounds_leaders (m k : nat) (ps : list Player) :
  ps <> [] ->
  Z.of_nat m <= sumZ (map leaders (playedRounds random m k ps)).
Proof.
  revert k ps. induction m as [|m IH]; intros k ps Hne; cbn [playedRounds map sumZ];
    [lia|].
  pose proof (leaders_positive random k ps Hne).
  assert (Hne' : playedRound random k ps <> []).
  { intros H'. apply Hne. apply (f_equal (@length Player)) in H'.
    rewrite playedRound_length in H'. now destruct ps. }
  specialize (IH (k + length ps)%nat _ Hne'). lia.
Qed.

Lemma playedRounds_length (m k : nat) (ps : list Player) :
  length (playedRounds random m k ps) = m.
Proof.
  revert k ps. induction m as [|m IH]; intros k ps; cbn [playedRounds length];
    [reflexivity|]. now rewrite IH.
Qed.


End Loop.

(** ** What the engine writes to *)

Section Preserves.

Variable R : state -> state -> Prop.
Hypothesis R_refl : forall s : state, R s s.
Hypothesis R_trans : forall s s' s'' : state, R s s' -> R s' s'' -> R s s''.

Lemma preserves_ret {A} (a : A) : preserves R (ret a).
Proof. intros s o s' [= _ <-]. apply R_refl. Qed.

Lemma preserves_gets {A} (f : state -> A) : preserves R (gets f).
Proof. intros s o s' [= _ <-]. apply R_refl. Qed.

Lemma preserves_reads {A} (f : list object -> outcome A) : preserves R (reads f).
Proof. intros s o s' [= _ <-]. apply R_refl. Qed.

Lemma preserves_bind {A B} (c : M A) (k : A -> M B) :
  preserves R c -> (forall a : A, preserves R (k a)) -> preserves R (bind c k).
Proof.
  intros Hc Hk s o s' H. unfold bind in H.
  destruct (c s) as [[a| |] s1] eqn:Hcs.
  - eapply R_trans; [eapply Hc; eassumption | eapply Hk; eassumption].
  - injection H as _ <-. eapply Hc; eassumption.
  - injection H as _ <-. eapply Hc; eassumption.
Qed.

Lemma preserves_for_each (els : list value) (body : value -> M unit) :
  (forall x : value, In x els -> preserves R (body x)) ->
  preserves R (for_each els body).
Proof.
  induction els as [|x els IH]; intros H; cbn [for_each].
  - apply preserves_ret.
  - apply preserves_bind; [apply H; now left|].
    intros _. apply IH. intros y Hy. apply H. now right.
Qed.

Lemma preserves_biggestCard (els : list value) (b : value) :
  preserves R (biggestCard els b).
Proof.
  revert b. induction els as [|x els IH]; intros b; cbn [biggestCard].
  - apply preserves_ret.
  - apply preserves_bind; [|intros b'; apply IH].
    unfold biggerCard. apply preserves_bind; [apply preserves_reads|].
    intros c. apply preserves_bind; [apply preserves_reads|].
    intros x'. apply preserves_ret.
Qed.

End Preserves.

Lemma touches_refl (ls : list loc) (s : state) : touches ls s s.
Proof. repeat split; auto. Qed.

Lemma touches_trans (ls : list loc) (s s' s'' : state) :
  touches ls s s' -> touches ls s' s'' -> touches ls s s''.
Proof.
  intros (Hp & Hl & Hf & Ha) (Hp' & Hl' & Hf' & Ha').
  split; [congruence|]. split; [congruence|]. split.
  - intros l Hl0. now rewrite Hf', Hf.
  - intros l els. now rewrite Ha', Ha.
Qed.

Lemma put_touches (ls : list loc) (v : value) (k : string) (x : value) :
  (forall l : loc, v = VRef l -> In l ls) -> preserves (touches ls) (put v k x).
Proof.
  intros Hv s o s'. unfold put.
  destruct v as [| | | | | | |l]; try (intros [= _ <-]; apply touches_refl).
  destruct (heap s !! l) as [[els|props|]|] eqn:Hl;
    try (intros [= _ <-]; apply touches_refl).
  intros [= _ <-]. unfold set_heap. cbn [heap players].
  split; [reflexivity|]. split; [apply length_insert|]. split.
  - intros l' Hl'. apply list_lookup_insert_ne. intros <-. apply Hl'. now apply Hv.
  - intros l' els. cbn [heap]. destruct (Nat.eq_dec l l') as [<-|Hne].
    + rewrite list_lookup_insert_eq by (eapply lookup_lt_Some; eassumption).
      rewrite Hl. split; discriminate.
    + now rewrite list_lookup_insert_ne.
Qed.

Lemma modify_touches (ls : list loc) (f : state -> state) :
  (forall s : state, players (f s) = players s /\ heap (f s) = heap s) ->
  preserves (touches ls) (modify f).
Proof.
  intros Hf s o s' [= _ <-]. destruct (Hf s) as [Hp Hh].
  split; [assumption|]. rewrite Hh. repeat split; auto.
Qed.

Lemma awardPoints_touches (ls : list loc) (b v : value) :
  (forall l : loc, v = VRef l -> In l ls) -> preserves (touches ls) (awardPoints b v).
Proof.
  intros Hv. unfold awardPoints.
  apply preserves_bind; [apply touches_trans | apply preserves_reads, touches_refl |].
  intros c. destruct (strict_eq c b); [|apply preserves_ret, touches_refl].
  apply preserves_bind; [apply touches_trans | apply preserves_reads, touches_refl |].
  intros sc.
  apply preserves_bind; [apply touches_trans | apply preserves_reads, touches_refl |].
  intros sc'. now apply put_touches.
Qed.

Lemma iterate_cells (h : list object) (v : value) (els : list value) (l : loc) :
  iterate h v = Returns els -> In (VRef l) els -> In l (player_cells h v).
Proof.
  unfold iterate, player_cells.
  destruct v as [| | | |str| | |p].
  1-4, 6-7: discriminate.
  - intros [= <-] Hin. unfold chars in Hin. apply in_map_iff in Hin as (a & Ha & _).
    discriminate.
  - destruct (h !! p) as [[els'|props|]|]; try discriminate.
    intros [= <-]. induction els' as [|x els' IH]; [intros []|].
    intros [-> | Hin]; [now left|].
    destruct x; cbn [refs_of]; auto. right. auto.
Qed.

Lemma index_cells (h : list object) (v : value) (i : Z) (x : value) (l : loc) :
  index h v i = Returns x -> x = VRef l -> In l (player_cells h v).
Proof.
  intros Hi ->. assert (exists els, iterate h v = Returns els /\ In (VRef l) els)
    as (els & Hit & Hin); [|eapply iterate_cells; eassumption].
  revert Hi. unfold index, iterate.
  destruct v as [| | | |str| | |p]; try discriminate.
  - destruct (i <? 0); [discriminate|].
    destruct (chars str !! Z.to_nat i) as [c|] eqn:Hc; [|discriminate].
    cbn [or_undefined]. intros [= ->]. eexists. split; [reflexivity|].
    apply list_elem_of_In, list_elem_of_lookup. eauto.
  - destruct (h !! p) as [[els'|props|]|]; try discriminate.
    destruct (i <? 0); [discriminate|].
    destruct (els' !! Z.to_nat i) as [c|] eqn:Hc; [|discriminate].
    cbn [or_undefined]. intros [= ->]. eexists. split; [reflexivity|].
    apply list_elem_of_In, list_elem_of_lookup. eauto.
Qed.

Lemma for_of_touches (ls : list loc) (v : value) (body : value -> M unit)
    (s : state) (o : outcome unit) (s' : state) :
  (forall l : loc, In l (player_cells (heap s) v) -> In l ls) ->
  (forall x : value, (forall l : loc, x = VRef l -> In l ls) ->
                     preserves (touches ls) (body x)) ->
  for_of v body s = (o, s') ->
  touches ls s s'.
Proof.
  intros Hls Hbody. unfold for_of. unfold bind at 1, reads.
  destruct (iterate (heap s) v) as [els| |] eqn:Hit;
    try (intros [= _ <-]; apply touches_refl).
  revert o s'.
  apply (preserves_for_each _ (touches_refl ls) (touches_trans ls)).
  intros x Hx. apply Hbody. intros l ->. apply Hls.
  eapply iterate_cells; eassumption.
Qed.

Lemma modifyPlayerName_touches (i : Z) (n : string) (s : state) (o : outcome unit)
    (s' : state) :
  modifyPlayerName i n s = (o, s') ->
  touches (player_cells (heap s) (players s)) s s'.
Proof.
  unfold modifyPlayerName. unfold bind at 1, gets. unfold bind at 1, reads.
  destruct (index (heap s) (players s) i) as [x| |] eqn:Hi;
    try (intros [= _ <-]; apply touches_refl).
  destruct (truthy x && negb (String.eqb n EmptyString));
    [|intros [= _ <-]; apply touches_refl].
  apply put_touches. intros l Hl. eapply index_cells; eassumption.
Qed.

Lemma resolveRound_touches (s : state) (o : outcome unit) (s' : state) :
  resolveRound s = (o, s') ->
  touches (player_cells (heap s) (players s)) s s'.
Proof.
  set (ls := player_cells (heap s) (players s)).
  unfold resolveRound, bind, gets, reads, modify.
  destruct (iterate (heap s) (players s)) as [els| |] eqn:Hit;
    try (intros [= _ <-]; apply touches_refl).
  destruct (biggestCard els (VNum (Int 0)) s) as [[b| |] s1] eqn:Hb;
    pose proof (preserves_biggestCard eq (@eq_refl state) (@eq_trans state)
                  els (VNum (Int 0)) s _ _ Hb) as <-;
    try (intros [= _ <-]; apply touches_refl).
  destruct (for_of (players s) (awardPoints b) s) as [[[]| |] s2] eqn:Hfor;
    intros [= _ <-];
    pose proof (for_of_touches ls _ _ s _ _ (fun l H => H)
                  (fun x Hx => awardPoints_touches ls b x Hx) Hfor)
      as (Hp & Hl & Hf & Ha); repeat split; cbn [set_currentRound heap players];
    auto; apply Ha.
Qed.

Section EngineFrame.

Variable random : nat -> random_number.

Lemma drawCard_touches (ls : list loc) (v : value) :
  (forall l : loc, v = VRef l -> In l ls) -> preserves (touches ls) (drawCard random v).
Proof.
  intros Hv. unfold drawCard, newCard.
  apply (preserves_bind _ (touches_trans ls)).
  - apply (preserves_bind _ (touches_trans ls)).
    + intros s o s' [= _ <-]. repeat split; auto.
    + intros r. apply preserves_ret, touches_refl.
  - intros c. now apply put_touches.
Qed.

Lemma drawCards_touches (s : state) (o : outcome unit) (s' : state) :
  drawCards random s = (o, s') ->
  touches (player_cells (heap s) (players s)) s s'.
Proof.
  unfold drawCards. unfold bind at 1, gets.
  apply for_of_touches; [auto|]. intros x Hx. now apply drawCard_touches.
Qed.

End EngineFrame.

(** ** What a call leaves alone *)

Lemma refs_of_In (els : list value) (l : loc) : In l (refs_of els) -> In (VRef l) els.
Proof.
  induction els as [|x els IH]; [intros []|].
  destruct x; cbn [refs_of]; try (intros H; right; now apply IH).
  intros [-> | H]; [now left | right; now apply IH].
Qed.

Lemma leaves_others_refl (s : state) : leaves_others s s.
Proof. repeat split; auto. Qed.

Lemma leaves_others_trans (s s' s'' : state) :
  leaves_others s s' -> leaves_others s' s'' -> leaves_others s s''.
Proof.
  intros (Hlen & Hframe & Hcells & Hp) (Hlen' & Hframe' & Hcells' & Hp').
  split; [lia|]. split; [|split].
  - intros l Hl Hnot. rewrite Hframe'; [now apply Hframe | lia |].
    intros Hin. apply Hnot. now apply Hcells.
  - intros l Hin Hl. apply Hcells; [|assumption]. apply Hcells'; [assumption | lia].
  - intros l Hl Hlt. apply Hp; [|assumption]. apply Hp'; [assumption | lia].
Qed.

Lemma kept_refl (s : state) : kept s s.
Proof. intros H. split; [apply leaves_others_refl | assumption]. Qed.

Lemma kept_trans (s s' s'' : state) : kept s s' -> kept s' s'' -> kept s s''.
Proof.
  intros H H' Hs. destruct (H Hs) as [Hl Hs']. destruct (H' Hs') as [Hl' Hs''].
  split; [eapply leaves_others_trans; eassumption | assumption].
Qed.

Lemma touches_cells (ls : list loc) (s s' : state) :
  touches ls s s' ->
  player_cells (heap s') (players s') = player_cells (heap s) (players s).
Proof.
  intros (Hp & _ & _ & Ha). rewrite Hp. unfold player_cells.
  destruct (players s) as [| | | | | | |p]; try reflexivity.
  destruct (heap s !! p) as [[els|props|]|] eqn:Hl.
  - now rewrite (proj2 (Ha p els) Hl).
  - destruct (heap s' !! p) as [[els'|props'|]|] eqn:Hl'; try reflexivity.
    apply Ha in Hl'. congruence.
  - destruct (heap s' !! p) as [[els'|props'|]|] eqn:Hl'; try reflexivity.
    apply Ha in Hl'. congruence.
  - destruct (heap s' !! p) as [[els'|props'|]|] eqn:Hl'; try reflexivity.
    apply Ha in Hl'. congruence.
Qed.

Lemma touches_kept (s s' : state) :
  touches (player_cells (heap s) (players s)) s s' -> kept s s'.
Proof.
  intros Ht Hs. pose proof (touches_cells _ _ _ Ht) as Hc.
  destruct Ht as (Hp & Hl & Hf & Ha). split.
  - split; [lia|]. split; [intros l _; apply Hf|]. split.
    + intros l Hin _. now rewrite <- Hc.
    + intros l Hl' _. congruence.
  - rewrite Hp. destruct (players s); cbn [in_store] in *; auto. lia.
Qed.

Lemma grown_cells (h news : list object) (v : value) :
  in_store h v -> player_cells (h ++ news) v = player_cells h v.
Proof.
  destruct v as [| | | | | | |p]; try reflexivity. cbn [in_store player_cells].
  intros Hp. now rewrite lookup_app_l.
Qed.

Lemma grown_kept (s s' : state) (news : list object) :
  heap s' = heap s ++ news -> players s' = players s -> kept s s'.
Proof.
  intros Hh Hp Hs. split.
  - split; [rewrite Hh, length_app; lia|]. split; [|split].
    + intros l Hl _. rewrite Hh. now apply lookup_app_l.
    + intros l Hin _. rewrite Hh, Hp, grown_cells in Hin; assumption.
    + intros l Hl _. congruence.
  - rewrite Hh, Hp. destruct (players s); cbn [in_store] in *; auto.
    rewrite length_app. lia.
Qed.

(** The roster parsed from a text is made of new objects. *)
Lemma new_roster_kept (s : state) (news : list object) (copy : value) (calls : nat)
    (n : number) (history : list value) :
  fresh_value (length (heap s)) (length (heap s) + length news) copy ->
  closed_in (length (heap s)) (length (heap s) + length news) news ->
  kept s (mkState (heap s ++ news) calls copy n history).
Proof.
  intros Hv Hc _. cbn [heap players]. split.
  - split; [cbn [heap]; rewrite length_app; lia|]. cbn [heap players].
    split; [|split].
    + intros l Hl _. now apply lookup_app_l.
    + intros l Hin Hl. exfalso. unfold player_cells in Hin.
      destruct copy as [| | | | | | |c]; try contradiction. cbn [fresh_value] in Hv.
      rewrite lookup_app_r in Hin by lia.
      destruct (news !! (c - length (heap s))%nat) as [[els|props|]|] eqn:Hn;
        try contradiction.
      apply refs_of_In in Hin. unfold closed_in in Hc. rewrite Forall_lookup in Hc.
      specialize (Hc _ _ Hn). cbn [object_values] in Hc. rewrite Forall_forall in Hc.
      apply list_elem_of_In in Hin. specialize (Hc _ Hin). cbn in Hc. lia.
    + intros l -> Hl. cbn [fresh_value] in Hv. lia.
  - destruct copy; cbn [in_store fresh_value] in *; auto. rewrite length_app. lia.
Qed.

Lemma adopted_kept (s : state) (v copy : value) (h' : list object) (calls : nat)
    (n : number) (history : list value) :
  adopted (heap s) v = Returns (copy, h') ->
  kept s (mkState h' calls copy n history).
Proof.
  intros Had. destruct (adopted_new _ _ _ _ Had) as (news & -> & Hv & Hc & _).
  rewrite length_app in Hv, Hc. now apply new_roster_kept.
Qed.

Lemma getGameState_adopted (s : state) :
  getGameState s
  = match adopted (heap s) (players s) with
    | Returns (copy, h') =>
        (Returns (VRef (length h')),
         set_heap (h' ++ [snapshot_object copy (currentRound s)]) s)
    | Throws => (Throws, s)
    | Unsupported => (Unsupported, s)
    end.
Proof.
  unfold getGameState. unfold bind at 1, gets. unfold bind at 1.
  rewrite json_copy_adopted.
  destruct (adopted (heap s) (players s)) as [[copy h']| |]; reflexivity.
Qed.

Lemma getGameState_kept : preserves kept getGameState.
Proof.
  intros s o s'. rewrite getGameState_adopted.
  destruct (adopted (heap s) (players s)) as [[copy h']| |] eqn:Had;
    intros [= _ <-]; try apply kept_refl.
  destruct (adopted_new _ _ _ _ Had) as (news & -> & _).
  apply (grown_kept _ _ (news ++ [snapshot_object copy (currentRound s)]));
    [|reflexivity].
  cbn [set_heap heap]. now rewrite app_assoc.
Qed.

Lemma setGameState_cases (st : value) (s : state) (o : outcome bool) (s' : state) :
  setGameState st s = (o, s') ->
  s' = s \/
  exists (v copy : value) (h' : list object) (n : number),
    adopted (heap s) v = Returns (copy, h') /\
    o = Returns true /\
    s' = mkState h' (randomCalls s) copy n (stateHistory s).
Proof.
  unfold setGameState. destruct (truthy st); [|intros [= _ <-]; now left].
  unfold bind at 1, reads.
  destruct (get (heap s) st "players") as [ps| |]; try (intros [= _ <-]; now left).
  destruct (truthy ps); [|intros [= _ <-]; now left].
  unfold bind at 1, reads.
  destruct (get (heap s) st "currentRound") as [r| |]; try (intros [= _ <-]; now left).
  destruct r as [| | |n| | | |]; try (intros [= _ <-]; now left).
  unfold bind at 1. rewrite json_copy_adopted.
  destruct (adopted (heap s) ps) as [[copy h']| |] eqn:Had;
    try (intros [= _ <-]; now left).
  intros [= <- <-]. right. now exists ps, copy, h', n.
Qed.

Lemma setGameState_kept (st : value) : preserves kept (setGameState st).
Proof.
  intros s o s' H.
  destruct (setGameState_cases st s o s' H) as [-> | (v & copy & h' & n & Had & _ & ->)];
    [apply kept_refl | eapply adopted_kept; eassumption].
Qed.

Lemma undoLastRound_kept : preserves kept undoLastRound.
Proof.
  intros s o s'. unfold undoLastRound. unfold bind at 1, gets.
  destruct (stateHistory s) as [|previousState rest]; [intros [= _ <-]; apply kept_refl|].
  unfold bind at 1, modify. unfold bind at 1.
  destruct (setGameState previousState (set_stateHistory rest s)) as [[b| |] s1] eqn:Hset;
    intros [= _ <-];
    (eapply kept_trans; [|eapply setGameState_kept; exact Hset]);
    apply (grown_kept _ _ []); cbn [set_stateHistory heap players];
    auto using app_nil_r.
Qed.

Lemma resetGame_kept : preserves kept resetGame.
Proof.
  intros s o s'. unfold resetGame.
  destruct (build_closed initialPlayers (heap s)) as (news & Hh & Hv & Hc).
  destruct (build initialPlayers (heap s)) as [copy h']. cbn [fst snd] in *. subst h'.
  intros [= _ <-]. now apply new_roster_kept.
Qed.

Lemma modifyPlayerName_kept (i : Z) (n : string) : preserves kept (modifyPlayerName i n).
Proof. intros s o s' H. eapply touches_kept, modifyPlayerName_touches, H. Qed.

Section Frame.

Variable random : nat -> random_number.

Lemma runRound_kept : preserves kept (runRound random).
Proof.
  unfold runRound.
  apply (preserves_bind _ kept_trans); [apply preserves_gets, kept_refl|].
  intros r. destruct (number_ltb r (Int TOTAL_ROUNDS)); [|apply preserves_ret, kept_refl].
  apply (preserves_bind _ kept_trans); [apply getGameState_kept|]. intros snapshot.
  apply (preserves_bind _ kept_trans).
  { intros s o s' [= _ <-]. now apply (grown_kept _ _ []); cbn; auto using app_nil_r. }
  intros _. apply (preserves_bind _ kept_trans).
  { intros s o s' H. eapply touches_kept, drawCards_touches, H. }
  intros _. apply (preserves_bind _ kept_trans).
  { intros s o s' H. eapply touches_kept, resolveRound_touches, H. }
  intros _. apply preserves_ret, kept_refl.
Qed.

Lemma runGameLoop_kept (fuel : nat) (s : state) (o : outcome value) (s' : state) :
  runGameLoop random fuel s = Some (o, s') -> kept s s'.
Proof.
  revert s. induction fuel as [|fuel IH]; intros s; cbn [runGameLoop];
    destruct (number_ltb (currentRound s) (Int TOTAL_ROUNDS));
    try discriminate; try (intros [= _ <-]; apply kept_refl).
  destruct (runRound random s) as [[b| |] s1] eqn:Hrun;
    pose proof (runRound_kept _ _ _ Hrun) as H1.
  - intros H. eapply kept_trans; [exact H1 | now apply IH].
  - now intros [= _ <-].
  - now intros [= _ <-].
Qed.

Lemma step_kept (c : call) (s s' : state) : step random c s s' -> kept s s'.
Proof.
  intros [i n s0 o s0' H _ | s0 o s0' H _ | s0 o s0' H _ | fuel s0 o s0' H _
          | s0 o s0' H _ | st s0 o s0' H _ | s0 o s0' H _ | obj s0].
  - eapply modifyPlayerName_kept, H.
  - eapply runRound_kept, H.
  - eapply undoLastRound_kept, H.
  - eapply runGameLoop_kept, H.
  - eapply getGameState_kept, H.
  - eapply setGameState_kept, H.
  - eapply resetGame_kept, H.
  - now apply (grown_kept _ _ [obj]).
Qed.

Lemma steps_kept (cs : list call) (s s' : state) : steps random cs s s' -> kept s s'.
Proof.
  induction 1 as [s | c cs s s1 s2 Hstep _ IH]; [apply kept_refl|].
  eapply kept_trans; [eapply step_kept; eassumption | exact IH].
Qed.

End Frame.

(** ** Export *)

Lemma stringify_fuel_in_store (fuel : nat) (h : list object) (path : list loc)
    (v : value) (r : option json) :
  stringify_fuel fuel h path v = Returns r -> in_store h v.
Proof.
  destruct v as [| | | | | | |l]; try (intros _; exact I). cbn [in_store].
  destruct fuel; cbn [stringify_fuel];
    (destruct (h !! l) eqn:Hl; [intros _; eapply lookup_lt_Some; eassumption
                               | discriminate]).
Qed.

Lemma stringify_elements_in_store (visit : value -> outcome (option json))
    (h : list object) (els : list value) (js : list json) :
  (forall v r, visit v = Returns r -> in_store h v) ->
  stringify_elements visit els = Returns js ->
  Forall (in_store h) els.
Proof.
  intros Hvisit. revert js. induction els as [|x els IH]; intros js; [constructor|].
  cbn [stringify_elements]. destruct (visit x) as [r| |] eqn:Hx; try discriminate.
  cbn [obind]. destruct (stringify_elements visit els) as [js'| |]; try discriminate.
  intros _. constructor; [eapply Hvisit; eassumption | eapply IH; reflexivity].
Qed.

(** A roster that has a text is in the store, with its elements. *)
Lemma stringify_cells (h : list object) (v : value) (r : option json) (l : loc) :
  stringify h v = Returns r -> In l (roster_cells h v) -> (l < length h)%nat.
Proof.
  unfold stringify. intros Hs. pose proof (stringify_fuel_in_store _ _ _ _ _ Hs) as Hv.
  destruct v as [| | | | | | |p]; try (intros H; exact (False_ind _ H)).
  cbn [in_store roster_cells] in *.
  intros [<- | Hin]; [assumption|]. unfold player_cells in Hin.
  destruct (h !! p) as [[els|props|]|] eqn:Hp; try contradiction.
  destruct (length h) as [|fuel] eqn:Hlen; [lia|].
  cbn [stringify_fuel] in Hs. rewrite Hp in Hs. cbn [on_path existsb] in Hs.
  destruct (stringify_elements (stringify_fuel fuel h [p]) els) as [js| |] eqn:Hels;
    try discriminate.
  apply stringify_elements_in_store with (h := h) in Hels.
  - apply refs_of_In in Hin. rewrite List.Forall_forall in Hels.
    specialize (Hels _ Hin). cbn [in_store] in Hels. lia.
  - intros x rx Hx. eapply stringify_fuel_in_store; eassumption.
Qed.

Lemma adopted_stringify (h h' : list object) (v copy : value) :
  adopted h v = Returns (copy, h') -> exists text, stringify h v = Returns (Some text).
Proof.
  unfold adopted. destruct (stringify h v) as [[text|]| |]; try discriminate. eauto.
Qed.

(** The objects of an exported state: new, and closed. *)
Lemma exported_closed (h h' : list object) (v copy : value) (r : number) :
  adopted h v = Returns (copy, h') ->
  exists news : list object,
    h' ++ [snapshot_object copy r] = h ++ news /\
    length (h ++ news) = S (length h') /\
    (length h <= length h')%nat /\
    forall l : loc,
      reach (h ++ news) (VRef (length h')) l -> (length h <= l < length (h ++ news))%nat.
Proof.
  intros Had. destruct (adopted_new _ _ _ _ Had) as (news & -> & Hv & Hc & _).
  exists (news ++ [snapshot_object copy r]). rewrite app_assoc.
  split; [reflexivity|]. rewrite !length_app. cbn [length].
  split; [lia|]. split; [lia|].
  intros l Hl. rewrite <- app_assoc in Hl.
  rewrite length_app in Hv, Hc.
  assert (H : (length h <= l < length h + length (news ++ [snapshot_object copy r]))%nat).
  { apply (reach_closed h (news ++ [snapshot_object copy r])
             (VRef (length h + length news)%nat) l).
    - unfold closed_in. rewrite length_app. cbn [length]. apply Forall_app. split.
      + eapply closed_in_mono; [exact Hc | lia | lia].
      + constructor; [|constructor]. cbn [object_values snapshot_object map snd].
        repeat constructor; cbn [fresh_value]; auto.
        eapply fresh_value_mono; [exact Hv | lia | lia].
    - exact Hl.
    - cbn [fresh_value]. rewrite length_app. cbn. lia. }
  rewrite length_app in H. cbn [length] in H. lia.
Qed.

Lemma writes_frame (a : nat) (ws : list (loc * object)) (s : state) :
  Forall (fun w => (a <= fst w)%nat) ws ->
  players (writes ws s) = players s /\
  currentRound (writes ws s) = currentRound s /\
  stateHistory (writes ws s) = stateHistory s /\
  randomCalls (writes ws s) = randomCalls s /\
  length (heap (writes ws s)) = length (heap s) /\
  forall l : loc, (l < a)%nat -> heap (writes ws s) !! l = heap s !! l.
Proof.
  revert s. induction ws as [|[x o] ws IH]; intros s Hws; [now repeat split|].
  inversion Hws as [|? ? Hx Hrest]; subst. cbn [fst] in Hx. cbn [writes].
  destruct (IH (write x o s) Hrest) as (Hp & Hc & Hh & Hr & Hlen & Hf).
  unfold write, set_heap in *. cbn [heap players currentRound stateHistory randomCalls] in *.
  split; [assumption|]. split; [assumption|]. split; [assumption|].
  split; [assumption|]. split; [now rewrite Hlen, length_insert|].
  intros l Hl. rewrite Hf by assumption. apply list_lookup_insert_ne. lia.
Qed.

Lemma represents_frame (s s2 : state) (g : game) :
  represents s g ->
  players s2 = players s ->
  currentRound s2 = currentRound s ->
  stateHistory s2 = stateHistory s ->
  (forall x : loc, (x < length (heap s))%nat -> heap s2 !! x = heap s !! x) ->
  represents s2 g.
Proof.
  intros Hrep Hp Hc Hh Hf. pose proof (represents_inv _ _ Hrep) as (Hr & Hround & Hhist).
  pose proof Hr as (l & Hpl & Hl & Hnd & Hall).
  replace g with (mkGame (roster g) (currentRound s2) (history g))
    by (rewrite Hc, Hround; now destruct g).
  apply (represents_intro _ (player_cells (heap s) (players s))); rewrite ?Hp, ?Hh.
  - apply (roster_at_frame (heap s)); [assumption|].
    intros x Hx. apply Hf. eapply roster_at_valid; eassumption.
  - eapply Forall2_impl; [exact Hhist|]. intros v snap Hsnap.
    apply (snapshot_at_frame (heap s) _ _ _ (roster g) _ _ Hsnap Hall); auto.
Qed.

(** C7, as the code has it.  [getGameState] goes by the text that
    [JSON.stringify] gives for the roster.  With a text, it returns a
    new object [{players, currentRound, totalRounds}] whose [players] is
    the value parsed from that text, which has the text of the roster
    again, and every object reached from what it returns is new:
    whatever is written afterwards to these objects,
    the variables of the engine and every object that was in the store
    before the call are as they were.  Without a text (the caller has
    put a cycle or a BigInt in the roster) it raises and changes
    nothing.  On an engine in a game state [g] of Player records it
    returns, the object returned holds the roster and the round of [g],
    and the engine stays in state [g] whatever is written to the
    objects returned.  (A score that is not a finite number, which the
    data model leaves out, is exported as [null].) *)
Theorem getGameState_independent (s : state) :
  (forall g : game,
      represents s g ->
      exists (e : value) (s' : state),
        getGameState s = (Returns e, s') /\
        read_snapshot (heap s') e = Some (roster g, round g) /\
        forall ws : list (loc * object),
          Forall (fun w => reach (heap s') e (fst w)) ws ->
          represents (writes ws s') g) /\
  match adopted (heap s) (players s) with
  | Returns (copy, h') =>
      let e := VRef (length h') in
      let s' := set_heap (h' ++ [snapshot_object copy (currentRound s)]) s in
      getGameState s = (Returns e, s') /\
      (exists news : list object, heap s' = heap s ++ news) /\
      (forall l : loc,
          reach (heap s') e l -> (length (heap s) <= l < length (heap s'))%nat) /\
      (forall text : json,
          stringify (heap s) (players s) = Returns (Some text) ->
          canonical text = true ->
          heap s' !! length h' = Some (snapshot_object copy (currentRound s)) /\
          stringify (heap s') copy = Returns (Some text)) /\
      (forall ws : list (loc * object),
          Forall (fun w => reach (heap s') e (fst w)) ws ->
          getPlayers (writes ws s') = getPlayers s /\
          getCurrentRound (writes ws s') = getCurrentRound s /\
          stateHistory (writes ws s') = stateHistory s /\
          forall l : loc, (l < length (heap s))%nat ->
                          heap (writes ws s') !! l = heap s !! l)
  | Throws => getGameState s = (Throws, s)
  | Unsupported => getGameState s = (Unsupported, s)
  end.
Proof.
  match goal with |- _ /\ ?general => assert (Hgen : general) end.
  { rewrite getGameState_adopted.
    destruct (adopted (heap s) (players s)) as [[copy h']| |] eqn:Had; try reflexivity.
    destruct (exported_closed _ _ _ _ (currentRound s) Had)
      as (news & Hh & Hlen & Hle & Hreach).
    cbv zeta. cbn [set_heap heap].
    split; [reflexivity|]. split; [rewrite Hh; eauto|].
    split; [rewrite Hh; exact Hreach|]. split.
    - intros text Htext Hc. split; [apply list_lookup_last|].
      exact (adopted_text _ _ _ _ _ _ Had Htext Hc).
    - rewrite Hh. intros ws Hws.
      destruct (writes_frame (length (heap s)) ws
                  (mkState (heap s ++ news) (randomCalls s) (players s) (currentRound s)
                           (stateHistory s)))
        as (Hp & Hc & Hhist & _ & _ & Hf).
      { eapply Forall_impl; [exact Hws|]. intros w Hw. cbn in Hw.
        apply Hreach in Hw. now destruct Hw. }
      unfold getPlayers, getCurrentRound. cbn in Hp, Hc, Hhist.
      split; [assumption|]. split; [assumption|]. split; [assumption|].
      intros l Hl. rewrite Hf by assumption. cbn [heap]. now apply lookup_app_l. }
  split; [|exact Hgen].
  intros g Hrep. destruct (getGameState_represents s g Hrep) as (Hget & Hrep').
  pose proof (represents_inv _ _ Hrep) as (Hr & Hround & _).
  rewrite (adopted_roster _ _ _ _ Hr) in Hgen. cbv zeta in Hgen.
  destruct Hgen as (Hget' & _ & _ & _ & Hws).
  eexists _, _. split; [exact Hget'|]. split.
  - cbn [set_heap heap]. rewrite length_app, copied_length.
    pose proof (roster_at_counted _ _ _ _ Hr) as Hcounted.
    pose proof (roster_at_copied (heap s) (roster g)
                  [snapshot_object (VRef (length (heap s) + length (roster g))%nat)
                                   (currentRound s)] Hcounted) as Hcopy.
    rewrite app_assoc in Hcopy.
    destruct (read_roster_intro _ _ _ _ Hcopy) as [Hread _].
    rewrite <- Hround.
    apply (read_snapshot_intro _ _ (VRef (length (heap s) + length (roster g))%nat));
      [|exact Hread].
    apply list_lookup_middle. rewrite length_app, copied_length. lia.
  - intros ws Hw. destruct (Hws ws Hw) as (Hp & Hc & Hh & Hf).
    now apply (represents_frame s).
Qed.

(** ** Construction from a saved state *)

Lemma get_in_store (h : list object) (v : value) (k : string) :
  in_store h v -> truthy v = true -> exists x, get h v k = Returns x.
Proof.
  intros Hin Ht. destruct v as [| | | | | | |l]; try discriminate; cbn [get]; eauto.
  cbn [in_store] in Hin. destruct (h !! l) as [[]|] eqn:Ho; eauto.
  apply lookup_ge_None in Ho. lia.
Qed.

Lemma createGameLogic_rejects (savedState : value) (h : list object) (calls : nat) :
  in_store h savedState ->
  well_formed h savedState = false ->
  createGameLogic savedState h calls
  = Returns (mkState (h ++ copied h initialRoster) calls
                     (VRef (length h + length initialRoster)%nat) (Int 0) []).
Proof.
  intros Hin Hwf. unfold createGameLogic. cbv zeta.
  set (st := match savedState with VUndefined => VNull | v => v end).
  assert (Hst : in_store h st /\ well_formed h st = false)
    by (destruct savedState; auto).
  clearbody st. clear Hin Hwf. destruct Hst as [Hin Hwf].
  unfold well_formed, field in Hwf.
  destruct (truthy st) eqn:Ht;
    [|cbn [heap randomCalls stateHistory]; now rewrite build_initialPlayers].
  unfold bind at 1, reads. cbn [heap].
  destruct (get_in_store h st "players" Hin Ht) as [ps Hps]. rewrite Hps in *.
  destruct (truthy ps) eqn:Hp;
    [|cbn [heap randomCalls stateHistory]; now rewrite build_initialPlayers].
  unfold bind at 1, reads. cbn [heap].
  destruct (get_in_store h st "currentRound" Hin Ht) as [r Hr]. rewrite Hr in *.
  destruct r; try discriminate; cbn [heap randomCalls stateHistory];
    now rewrite build_initialPlayers.
Qed.

Lemma createGameLogic_accepts (savedState : value) (h : list object) (calls : nat) :
  well_formed h savedState = true ->
  exists n : number,
    field h savedState "currentRound" = VNum n /\
    createGameLogic savedState h calls
    = match adopted h (field h savedState "players") with
      | Returns (copy, h') => Returns (mkState h' calls copy n [])
      | Throws => Throws
      | Unsupported => Unsupported
      end.
Proof.
  unfold well_formed, field. intros H.
  apply andb_prop in H as [H Hnum]. apply andb_prop in H as [Hst Hps].
  assert (Hsaved : match savedState with VUndefined => VNull | v => v end = savedState)
    by (destruct savedState; try reflexivity; discriminate).
  unfold createGameLogic. rewrite Hsaved, Hst. unfold bind at 1, reads.
  cbn [heap].
  destruct (get h savedState "players") as [ps| |]; try discriminate.
  rewrite Hps. unfold bind at 1, reads. cbn [heap].
  destruct (get h savedState "currentRound") as [r| |]; try discriminate.
  destruct r as [| | |n| | | |]; try discriminate.
  exists n. split; [reflexivity|]. unfold bind at 1. rewrite json_copy_adopted.
  cbn [heap].
  destruct (adopted h ps) as [[copy h']| |]; reflexivity.
Qed.

(** X6.  [createGameLogic] does not fail on a saved state that does not
    pass the check (a missing argument, [null], an object without a
    truthy [players] or without a numeric [currentRound]): it makes the
    engine of a fresh game.  On one that passes, it goes by the text
    that [JSON.stringify] gives for [savedState.players]: with a text,
    the engine starts with the roster parsed from it, made of new
    objects and with that text again, with [savedState.currentRound]
    and with an empty history; without one (a function or a symbol as [players], a BigInt or a
    cycle inside it) it raises. *)
Theorem createGameLogic_savedState (savedState : value) (h : list object) (calls : nat) :
  in_store h savedState ->
  (well_formed h savedState = false ->
   createGameLogic savedState h calls
   = Returns (mkState (h ++ copied h initialRoster) calls
                      (VRef (length h + length initialRoster)%nat) (Int 0) [])) /\
  (well_formed h savedState = true ->
   exists n : number,
     field h savedState "currentRound" = VNum n /\
     match adopted h (field h savedState "players") with
     | Returns (copy, h') =>
         createGameLogic savedState h calls = Returns (mkState h' calls copy n []) /\
         (exists news : list object, h' = h ++ news) /\
         (forall l : loc, reach h' copy l -> (length h <= l < length h')%nat) /\
         (forall (ls : list loc) (ps : list Player),
             roster_at h (field h savedState "players") ls ps ->
             represents (mkState h' calls copy n []) (mkGame ps n [])) /\
         (forall text : json,
             stringify h (field h savedState "players") = Returns (Some text) ->
             canonical text = true ->
             stringify h' copy = Returns (Some text))
     | Throws => createGameLogic savedState h calls = Throws
     | Unsupported => createGameLogic savedState h calls = Unsupported
     end).
Proof.
  intros Hin. split; [now apply createGameLogic_rejects|].
  intros Hwf. destruct (createGameLogic_accepts savedState h calls Hwf) as (n & Hn & Hc).
  exists n. split; [assumption|].
  destruct (adopted h (field h savedState "players")) as [[copy h']| |] eqn:Had;
    try assumption.
  destruct (adopted_new _ _ _ _ Had) as (news & Hh & _ & _ & Hreach).
  split; [assumption|]. split; [eauto|]. split; [assumption|]. split.
  - intros ls ps Hr. rewrite (adopted_roster _ _ _ _ Hr) in Had. injection Had as <- <-.
    apply represents_new. eapply roster_at_counted; eassumption.
  - intros text Htext Hcan.
    pose proof (adopted_text _ _ [] _ _ _ Had Htext Hcan) as H.
    now rewrite app_nil_r in H.
Qed.

(** C10.  The check of [setGameState] asks for a truthy [players], not
    for an array: with any truthy value [v] that has a JSON text as
    [players], a non-empty string or a non-zero number for instance, and
    a numeric [currentRound], the state is accepted, and the roster of
    the engine is then the value parsed from that text: a copy of [v],
    with the text of [v] again (no object of the language having a
    property twice), and [v] itself when it is a string, a boolean or a
    finite number. *)
Theorem setGameState_truthy_roster (s : state) (l : loc) (v : value) (n : number)
    (text : json) :
  heap s !! l = Some (Obj [("players", v); ("currentRound", VNum n)]) ->
  truthy v = true ->
  stringify (heap s) v = Returns (Some text) ->
  exists s',
    setGameState (VRef l) s = (Returns true, s') /\
    (getPlayers s', heap s') = build text (heap s) /\
    (canonical text = true -> stringify (heap s') (getPlayers s') = Returns (Some text)) /\
    (plain v = true -> getPlayers s' = v /\ heap s' = heap s) /\
    currentRound s' = n /\
    stateHistory s' = stateHistory s.
Proof.
  intros Hl Hv Htext.
  destruct (setGameState_accepts (VRef l) s) as (n' & Hn & Hset).
  { unfold well_formed, field. cbn [truthy get andb]. rewrite Hl.
    cbn [assoc String.eqb Ascii.eqb Bool.eqb or_undefined is_number].
    now rewrite Hv. }
  unfold field in Hn, Hset. cbn [get] in Hn, Hset. rewrite Hl in Hn, Hset.
  cbn [assoc String.eqb Ascii.eqb Bool.eqb or_undefined] in Hn, Hset.
  injection Hn as <-.
  assert (Had : adopted (heap s) v = Returns (build text (heap s)))
    by (unfold adopted; now rewrite Htext).
  rewrite Had in Hset. destruct (build text (heap s)) as [copy h'] eqn:Hb.
  eexists. split; [exact Hset|]. unfold getPlayers. cbn [players heap currentRound stateHistory].
  split; [reflexivity|]. split; [|split; [|split; reflexivity]].
  - intros Hc. pose proof (adopted_text _ _ [] _ _ _ Had Htext Hc) as H.
    now rewrite app_nil_r in H.
  - intros Hplain. rewrite (adopted_plain _ _ Hplain) in Had. now injection Had as <- <-.
Qed.

(** ** Accessors *)

(** C8, as the code has it.  In whatever state the engine is, the
    accessors return what it holds then: on an engine in game state [g],
    the roster object holds the roster of [g], the current round is the
    round of [g], and the total is [TOTAL_ROUNDS].  The roster is the
    engine's own object, not a copy: after the caller has written an
    object [o] in place of the array, [getPlayers] returns the same
    reference and the array of the engine is [o]; and after the caller
    has written a Player record in place of the [i]-th player, the
    roster of the engine holds that record. *)
Theorem accessors_are_live (s : state) (l : loc) (o : object) :
  getPlayers s = VRef l ->
  (l < length (heap s))%nat ->
  (forall g : game,
      represents s g ->
      read_roster (heap s) (getPlayers s) = Some (roster g) /\
      getCurrentRound s = round g) /\
  getTotalRounds s = Int TOTAL_ROUNDS /\
  getPlayers (write l o s) = VRef l /\
  heap (write l o s) !! l = Some o /\
  (forall (ls : list loc) (ps : list Player),
      o = Arr (map VRef ls) -> List.NoDup ls -> ~ In l ls ->
      Forall2 (cell (heap s)) ls ps ->
      roster_is (write l o s) ps) /\
  (forall (ls : list loc) (ps : list Player) (i : nat) (x : loc) (p' : Player),
      roster_at (heap s) (getPlayers s) ls ps ->
      ls !! i = Some x -> counted (score p') = true ->
      index (heap s) (getPlayers s) (Z.of_nat i) = Returns (VRef x) /\
      getPlayers (write x (player_object p') s) = getPlayers s /\
      roster_is (write x (player_object p') s) (<[i := p']> ps)).
Proof.
  unfold getPlayers, getCurrentRound, getTotalRounds. intros Hp Hl.
  split; [|split; [reflexivity | split; [exact Hp | split; [|split]]]].
  - intros g Hrep. split; [now apply represents_roster | now apply represents_round].
  - cbn. now apply list_lookup_insert_eq.
  - intros ls ps -> Hnd Hnot Hcells. unfold roster_is, write. cbn [heap players set_heap].
    rewrite Hp. apply (read_roster_intro _ _ ls). exists l. split; [reflexivity|].
    split; [now apply list_lookup_insert_eq|]. split; [assumption|].
    eapply cells_frame; [exact Hcells|]. intros x Hx.
    apply list_lookup_insert_ne. intros <-. contradiction.
  - intros ls ps i x p' Hr Hi Hc.
    pose proof Hr as (l' & Hp' & Hl' & Hnd & Hcells).
    rewrite Hp in Hp'. injection Hp' as <-.
    split; [|split; [reflexivity|]].
    + rewrite (roster_at_index _ _ _ _ _ Hr). destruct (Z.ltb_spec (Z.of_nat i) 0); [lia|].
      now rewrite Nat2Z.id, Hi.
    + unfold roster_is, write. cbn [heap players set_heap].
      apply (read_roster_intro _ _ ls). exists l. split; [assumption|].
      split; [|split; [assumption|]].
      * rewrite list_lookup_insert_ne; [exact Hl'|].
        intros <-. eapply (roster_at_not_array (heap s) x ls ps);
          [rewrite <- Hp; exact Hr|].
        apply list_elem_of_In, list_elem_of_lookup. eauto.
      * now apply cells_insert.
Qed.

(** ** An exported state is left alone *)

Section Exported.

Variable random : nat -> random_number.

(** X2.  The engine never changes an exported state.  After a
    [getGameState] that returns, whatever calls follow, on any roster
    ([setGameState] and [resetGame] among them, and calls that raise),
    every object reached from the value returned, which is a new
    object, holds what it held, and none of them is the roster array of
    the engine or one of the player objects it writes to. *)
Theorem exported_state_is_kept (cs : list call) (s s1 s2 : state) (e : value) :
  getGameState s = (Returns e, s1) ->
  steps random cs s1 s2 ->
  (exists x : loc, e = VRef x /\ reach (heap s1) e x) /\
  forall l : loc,
    reach (heap s1) e l ->
    (length (heap s) <= l < length (heap s1))%nat /\
    heap s2 !! l = heap s1 !! l /\
    ~ In l (roster_cells (heap s2) (players s2)).
Proof.
  rewrite getGameState_adopted.
  destruct (adopted (heap s) (players s)) as [[copy h']| |] eqn:Had; try discriminate.
  intros [= <- <-] Hsteps.
  destruct (exported_closed _ _ _ _ (currentRound s) Had)
    as (news & Hh & Hlen & Hle & Hreach).
  destruct (adopted_stringify _ _ _ _ Had) as [text Htext].
  pose proof (stringify_fuel_in_store _ _ _ _ _ Htext) as Hvalid.
  set (s1 := set_heap (h' ++ [snapshot_object copy (currentRound s)]) s) in *.
  assert (Hheap : heap s1 = heap s ++ news) by exact Hh.
  assert (Hkept1 : kept s s1) by (now apply (grown_kept _ _ news)).
  destruct (Hkept1 Hvalid) as [_ Hvalid1].
  destruct (steps_kept random cs s1 s2 Hsteps Hvalid1)
    as [(Hgrow & Hframe & Hcells & Hp) Hvalid2].
  assert (Hold : forall x : loc,
             In x (roster_cells (heap s1) (players s1)) -> (x < length (heap s))%nat).
  { intros x Hx. apply (stringify_cells _ _ _ _ Htext).
    unfold roster_cells in *. change (players s1) with (players s) in Hx.
    destruct (players s) as [| | | | | | |p]; try contradiction.
    rewrite Hheap, grown_cells in Hx; assumption. }
  split.
  - exists (length h'). split; [reflexivity|]. apply reach_here.
    rewrite Hheap, Hlen. lia.
  - intros l Hl. rewrite Hheap in Hl. pose proof (Hreach l Hl) as Hrange.
    rewrite <- Hheap in Hrange.
    assert (Hnot : ~ In l (roster_cells (heap s1) (players s1))).
    { intros Hin. apply Hold in Hin. lia. }
    split; [assumption|]. split.
    + apply Hframe; [lia|]. intros Hin. apply Hnot.
      unfold roster_cells. destruct (players s1); try contradiction. now right.
    + intros Hin. apply Hnot. unfold roster_cells in *.
      destruct (players s2) as [| | | | | | |p] eqn:Hp2; try contradiction.
      destruct Hin as [<- | Hin].
      * rewrite (Hp p eq_refl) by lia. now left.
      * specialize (Hcells l Hin ltac:(lia)).
        destruct (players s1); try contradiction. now right.
Qed.

End Exported.

(** ** Renaming a player *)

(** X3.  On a roster of Player records, [modifyPlayerName] with the
    index of a player and a non-empty name gives that player the name,
    in place, and changes nothing else: the other players, every card
    and score, the round, the history and every other object of the
    store are as they were.  With an index that is negative or past the
    last player, or with the empty name, it changes nothing at all. *)
Theorem modifyPlayerName_renames (i : Z) (n : string) (s : state) (ps : list Player) :
  roster_is s ps ->
  (forall p : Player,
      0 <= i -> ps !! Z.to_nat i = Some p -> n <> EmptyString ->
      exists s',
        modifyPlayerName i n s = (Returns tt, s') /\
        roster_is s' (<[Z.to_nat i := mkPlayer n (cardHeld p) (score p)]> ps) /\
        getPlayers s' = getPlayers s /\
        currentRound s' = currentRound s /\
        stateHistory s' = stateHistory s /\
        (forall x : loc,
            player_cells (heap s) (players s) !! Z.to_nat i <> Some x ->
            heap s' !! x = heap s !! x) /\
        leaves_others s s') /\
  (i < 0 \/ ps !! Z.to_nat i = None \/ n = EmptyString ->
   modifyPlayerName i n s = (Returns tt, s)).
Proof.
  intros Hroster. apply roster_is_inv in Hroster as Hr.
  set (ls := player_cells (heap s) (players s)) in *.
  pose proof (modifyPlayerName_typed i n s ls ps Hr) as Hmod.
  pose proof Hr as (l & Hp & Hl & Hnd & Hcells).
  pose proof (Forall2_length _ _ _ Hcells) as Hlen.
  split.
  - intros p Hi Hlook Hn.
    destruct (Z.ltb_spec i 0); [lia|].
    destruct (String.eqb_spec n EmptyString); [contradiction|].
    cbn [orb] in Hmod. rewrite Hlook in Hmod.
    destruct (ls !! Z.to_nat i) as [li|] eqn:Hli.
    2:{ apply lookup_ge_None in Hli. apply lookup_lt_Some in Hlook. lia. }
    eexists. split; [exact Hmod|]. unfold getPlayers, set_heap.
    cbn [heap players currentRound stateHistory].
    assert (Hcounted : counted (score p) = true).
    { rewrite Forall2_lookup in Hcells. specialize (Hcells (Z.to_nat i)).
      rewrite Hli, Hlook in Hcells. inversion Hcells as [? ? [_ Hc]|]. exact Hc. }
    assert (Hfr : forall x : loc, Some li <> Some x ->
                    <[li := player_object (mkPlayer n (cardHeld p) (score p))]> (heap s) !! x
                    = heap s !! x).
    { intros x Hx. apply list_lookup_insert_ne. congruence. }
    split; [|split; [reflexivity | split; [reflexivity | split; [reflexivity | split]]]].
    + unfold roster_is. cbn [heap players].
      apply (read_roster_intro _ _ ls).
      apply (roster_at_written (heap s) _ _ ls ps); [assumption | |].
      * intros x Hx. apply Hfr. intros [= <-]. apply Hx.
        apply list_elem_of_In, list_elem_of_lookup. eauto.
      * now apply cells_insert.
    + exact Hfr.
    + apply (modifyPlayerName_kept i n _ _ _ Hmod).
      rewrite Hp. cbn. eapply lookup_lt_Some; eassumption.
  - intros Hcase. rewrite Hmod.
    destruct (Z.ltb_spec i 0); [reflexivity|]. cbn [orb].
    destruct (String.eqb_spec n EmptyString); [reflexivity|].
    destruct Hcase as [Hi | [Hnone | ->]]; [lia | | contradiction].
    rewrite Hnone. now destruct (ls !! Z.to_nat i).
Qed.

(** ** Rounds *)

Lemma runRound_returns_false (random : nat -> random_number) (s s' : state) :
  runRound random s = (Returns false, s') ->
  number_ltb (currentRound s) (Int TOTAL_ROUNDS) = false /\ s' = s.
Proof.
  unfold runRound. unfold bind at 1, gets.
  destruct (number_ltb (currentRound s) (Int TOTAL_ROUNDS));
    [|intros [= <-]; auto].
  unfold bind at 1. destruct (getGameState s) as [[e| |] s1]; try discriminate.
  unfold bind at 1, modify. unfold bind at 1.
  destruct (drawCards random _) as [[[]| |] s3]; try discriminate.
  unfold bind at 1. destruct (resolveRound s3) as [[[]| |] s4]; discriminate.
Qed.

Section CardRange.

Variable random : nat -> random_number.

(** X4.  After a round played on a roster of Player records, every
    player holds a card between 1 and [MAX_CARD_VALUE], whatever
    doubles in [0, 1) [Math.random()] has returned. *)
Theorem runRound_card_range (s s' : state) (ps : list Player) :
  roster_is s ps ->
  runRound random s = (Returns true, s') ->
  exists ps',
    roster_is s' ps' /\
    Forall (fun p => exists c, cardHeld p = Some c /\ 1 <= c <= MAX_CARD_VALUE) ps'.
Proof.
  intros Hroster Hrun.
  destruct (runRound_roster random s s' ps Hroster Hrun) as (_ & Hroster' & _).
  exists (playedRound random (randomCalls s) ps). split; [assumption|].
  apply playedRound_card_range.
Qed.

End CardRange.

(** ** Reset and the round trip of a state *)

(** X5.  Whatever the state of the engine, [resetGame] returns and
    leaves a new roster object holding the four initial players (no
    card, score 0), round 0 and an empty history, so that
    [undoLastRound] then returns false; the objects of the store,
    the old roster among them, are as they were. *)
Theorem resetGame_restarts (s : state) :
  exists s',
    resetGame s = (Returns tt, s') /\
    represents s' (mkGame initialRoster (Int 0) []) /\
    stateHistory s' = [] /\
    getPlayers s' = VRef (length (heap s) + length initialRoster)%nat /\
    (forall l : loc, (l < length (heap s))%nat -> heap s' !! l = heap s !! l) /\
    undoLastRound s' = (Returns false, s').
Proof.
  rewrite resetGame_typed. eexists. split; [reflexivity|].
  split; [apply represents_new, initialRoster_counted|].
  split; [reflexivity|]. split; [reflexivity|]. split.
  - intros l Hl. cbn [heap]. now apply lookup_app_l.
  - now apply undoLastRound_empty.
Qed.

Lemma field_snapshot (h : list object) (l : loc) (pv : value) (r : number) :
  h !! l = Some (snapshot_object pv r) ->
  field h (VRef l) "players" = pv /\ field h (VRef l) "currentRound" = VNum r.
Proof. unfold field, get. intros ->. split; reflexivity. Qed.

Lemma exported_snapshot (s : state) (g : game) :
  represents s g ->
  exists (pv : value) (ls' : list loc),
    let s1 := set_heap (heap s ++ exported (heap s) (roster g) (round g)) s in
    let e := (length (heap s) + length (roster g) + 1)%nat in
    getGameState s = (Returns (VRef e), s1) /\
    represents s1 g /\
    heap s1 !! e = Some (snapshot_object pv (round g)) /\
    roster_at (heap s1) pv ls' (roster g).
Proof.
  intros Hrep. destruct (getGameState_represents s g Hrep) as (Hget & Hrep1).
  pose proof (represents_inv _ _ Hrep) as (Hr & Hround & _).
  pose proof (snapshot_at_exported (heap s) (roster g) (round g) [] []
                (roster_at_counted _ _ _ _ Hr) (fun x H => False_ind _ H)) as Hsnap.
  rewrite app_nil_r in Hsnap.
  destruct Hsnap as (e & pv & ls' & [= <-] & He & Hroster & _). cbn [fst snd] in *.
  exists pv, ls'. cbv zeta. cbn [set_heap heap]. auto.
Qed.

(** X7.  An exported state can be taken back.  On an engine in game
    state [g], [setGameState] of what [getGameState] returned gives true
    and leaves the engine in state [g], history included; and
    [createGameLogic] of it, in the store as it is then or with more
    objects, makes an engine with the roster and the round of [g], and
    an empty history. *)
Theorem export_import_round_trip (s : state) (g : game) :
  represents s g ->
  exists (e : value) (s1 : state),
    getGameState s = (Returns e, s1) /\
    (exists s2, setGameState e s1 = (Returns true, s2) /\ represents s2 g) /\
    (forall (news : list object) (calls : nat),
        exists engine,
          createGameLogic e (heap s1 ++ news) calls = Returns engine /\
          represents engine (mkGame (roster g) (round g) [])).
Proof.
  intros Hrep.
  destruct (exported_snapshot s g Hrep) as (pv & ls' & Hget & Hrep1 & He & Hpv).
  cbv zeta in *. eexists _, _. split; [exact Hget|].
  set (s1 := set_heap (heap s ++ exported (heap s) (roster g) (round g)) s) in *.
  pose proof (roster_at_counted _ _ _ _ Hpv) as Hcounted.
  clearbody s1. split.
  - rewrite (setGameState_snapshot s1 _ pv ls' (roster g) (round g) He Hpv).
    eexists. split; [reflexivity|].
    pose proof (represents_inv _ _ Hrep1) as (_ & _ & Hhist).
    pose proof (represents_copied s1 g (roster g) (round g) (stateHistory s1)
                  (history g) (randomCalls s1) Hrep1 Hcounted Hhist) as H.
    now destruct g.
  - intros news calls.
    assert (He' : (heap s1 ++ news) !! (length (heap s) + length (roster g) + 1)%nat
                  = Some (snapshot_object pv (round g)))
      by (now apply lookup_app_l_Some).
    assert (Hpv' : roster_at (heap s1 ++ news) pv ls' (roster g)).
    { apply (roster_at_frame (heap s1)); [assumption|].
      intros x Hx. apply lookup_app_l. eapply roster_at_valid; eassumption. }
    destruct (createGameLogic_accepts
                (VRef (length (heap s) + length (roster g) + 1)%nat)
                (heap s1 ++ news) calls)
      as (n & Hn & Hc).
    { unfold well_formed. destruct (field_snapshot _ _ _ _ He') as [-> ->].
      destruct Hpv as (l & -> & _). reflexivity. }
    destruct (field_snapshot _ _ _ _ He') as [Hf1 Hf2]. rewrite Hf1 in Hc.
    rewrite Hf2 in Hn. injection Hn as <-. rewrite (adopted_roster _ _ _ _ Hpv') in Hc.
    eexists. split; [exact Hc|]. now apply represents_new.
Qed.

(** ** Import on a live engine *)

(** X16.  [setGameState] leaves the history of the engine in place, so
    an undo after an import does not go back to the state before the
    import: on an engine in game state [g] with a snapshot on its
    history, after any [setGameState] that returns true,
    [undoLastRound] returns true and leaves the engine in the state of
    that snapshot, with the rest of the history of [g]. *)
Theorem undo_after_import (st : value) (s s1 : state) (g : game)
    (ps : list Player) (r : number) (rest : list (list Player * number)) :
  represents s g ->
  history g = (ps, r) :: rest ->
  setGameState st s = (Returns true, s1) ->
  exists s2,
    undoLastRound s1 = (Returns true, s2) /\
    represents s2 (mkGame ps r rest).
Proof.
  intros Hrep Hg Hset. pose proof (represents_inv _ _ Hrep) as (Hr & Hround & Hhist).
  rewrite Hg in Hhist.
  inversion Hhist as [|v snap vs snaps' Hsnap Hrest Hs]; subst.
  pose proof Hr as (l & Hp & Hl & Hnd & Hcells).
  destruct (setGameState_cases st s _ _ Hset)
    as [-> | (v0 & copy & h' & n & Had & _ & ->)].
  - destruct (undoLastRound_represents s g ps r rest Hrep Hg) as (s2 & Hundo & Hrep2 & _).
    eauto.
  - destruct (adopted_new _ _ _ _ Had) as (news & -> & _).
    destruct Hsnap as (e & pv & ls' & -> & He & Hroster & Hdisj). cbn [fst snd] in *.
    unfold undoLastRound. unfold bind at 1, gets. cbn [stateHistory]. rewrite <- Hs.
    unfold bind at 1, modify. unfold bind at 1.
    rewrite (setGameState_snapshot _ e pv ls' ps r).
    + unfold ret. eexists. split; [reflexivity|].
      cbn [heap set_stateHistory randomCalls players stateHistory].
      pose proof (roster_at_counted _ _ _ _ Hroster) as Hcounted.
      apply (represents_intro (mkState _ _ _ _ _)
               (seq (length (heap s ++ news)) (length ps)));
        cbn [heap players stateHistory].
      * pose proof (roster_at_copied (heap s ++ news) ps [] Hcounted) as H.
        now rewrite app_nil_r in H.
      * eapply Forall2_impl; [exact Hrest|]. intros v snap Hsnap.
        apply (snapshot_at_frame (heap s) _ _ _ (roster g) _ _ Hsnap Hcells).
        -- intros x Hx _. rewrite <- app_assoc. now apply lookup_app_l.
        -- intros x Hx. apply in_seq in Hx. right. rewrite length_app in Hx. lia.
    + cbn [heap set_stateHistory]. now apply lookup_app_l_Some.
    + cbn [heap set_stateHistory]. apply (roster_at_frame (heap s)); [assumption|].
      intros x Hx. apply lookup_app_l. eapply roster_at_valid; eassumption.
Qed.

(** ** Several rounds, several undos *)

Lemma undoRounds_app (m : nat) (s s' s'' : state) (bs bs' : list bool) :
  undoRounds m s = (Returns bs, s') ->
  undoRounds 1 s' = (Returns bs', s'') ->
  undoRounds (m + 1) s = (Returns (bs ++ bs'), s'').
Proof.
  revert s bs. induction m as [|m IH]; intros s bs.
  - intros [= <- <-]. exact (fun H => H).
  - cbn [undoRounds Nat.add].
    destruct (undoLastRound s) as [[b| |] s1]; try discriminate.
    destruct (undoRounds m s1) as [[bs1| |] s2] eqn:Hrest; try discriminate.
    intros [= <- <-] Hlast. now rewrite (IH s1 bs1 Hrest Hlast).
Qed.

Section RoundsAndUndos.

Variable random : nat -> random_number.

Lemma runRounds_represents (m : nat) (s : state) (g : game) (n : Z) :
  represents s g ->
  round g = Int n ->
  - 2 ^ 53 <= n ->
  n + Z.of_nat m <= TOTAL_ROUNDS ->
  exists s',
    runRounds random m s = (Returns (repeat true m), s') /\
    represents s' (nextGames random m (randomCalls s) g).
Proof.
  revert s g n. induction m as [|m IH]; intros s g n Hrep Hn Hlo Hm.
  - exists s. now split.
  - assert (Hlt : number_ltb (round g) (Int TOTAL_ROUNDS) = true)
      by (rewrite Hn; cbn; apply Z.ltb_lt; lia).
    destruct (runRound_represents random s g Hrep Hlt)
      as (s1 & Hrun & Hrep1 & Hcalls & _).
    destruct (IH s1 (nextGame random (randomCalls s) g) (n + 1) Hrep1)
      as (s' & Hrest & Hrep'); [| lia | lia |].
    { cbn. rewrite Hn. apply number_add_Int. rewrite TOTAL_ROUNDS_value in Hm.
      change (2 ^ 53) with 9007199254740992 in *. lia. }
    exists s'. cbn [runRounds repeat nextGames]. rewrite Hrun, Hrest.
    split; [reflexivity|]. now rewrite <- Hcalls.
Qed.

Lemma runRounds_true (m : nat) (s s1 : state) (g : game) :
  represents s g ->
  runRounds random m s = (Returns (repeat true m), s1) ->
  represents s1 (nextGames random m (randomCalls s) g).
Proof.
  revert s g. induction m as [|m IH]; intros s g Hrep; cbn [runRounds repeat nextGames].
  - now intros [= <-].
  - destruct (runRound random s) as [[b| |] s'] eqn:Hrun; try discriminate.
    destruct (runRounds random m s') as [[bs| |] s''] eqn:Hrest; try discriminate.
    intros [= -> -> <-].
    destruct (number_ltb (round g) (Int TOTAL_ROUNDS)) eqn:Hlt.
    + destruct (runRound_represents random s g Hrep Hlt)
        as (s0 & Hrun0 & Hrep0 & Hcalls & _).
      rewrite Hrun0 in Hrun. injection Hrun as <-.
      rewrite <- Hcalls. now apply IH.
    + rewrite runRound_stops in Hrun by (now rewrite (represents_round s g Hrep)).
      discriminate.
Qed.

(** X8.  Undo goes back as many rounds as were played.  On an engine in
    game state [g]: from a round [n] that is at least [-2^53], where
    doubles count one by one, [m] calls of [runRound] that fit before
    [TOTAL_ROUNDS] all return true; and whenever [m] calls of [runRound]
    have all returned true, [m] calls of [undoLastRound] then all
    return true and leave the engine in state [g] again, and if the
    history of [g] was empty, one more [undoLastRound] returns false and
    changes nothing. *)
Theorem undo_all_rounds (m : nat) (s : state) (g : game) :
  represents s g ->
  (forall n : Z,
      round g = Int n -> - 2 ^ 53 <= n -> n + Z.of_nat m <= TOTAL_ROUNDS ->
      exists s1, runRounds random m s = (Returns (repeat true m), s1)) /\
  (forall s1 : state,
      runRounds random m s = (Returns (repeat true m), s1) ->
      exists s2,
        undoRounds m s1 = (Returns (repeat true m), s2) /\
        represents s2 g /\
        (history g = [] ->
         undoRounds (m + 1) s1 = (Returns (repeat true m ++ [false]), s2))).
Proof.
  intros Hrep. split.
  - intros n Hn Hlo Hm.
    destruct (runRounds_represents m s g n Hrep Hn Hlo Hm) as (s1 & Hrun & _). eauto.
  - intros s1 Hrun. pose proof (runRounds_true m s s1 g Hrep Hrun) as Hrep1.
    destruct (undoRounds_nextGames random m _ s1 g Hrep1) as (s2 & Hundo & Hrep2).
    exists s2. split; [exact Hundo|]. split; [exact Hrep2|].
    intros Hg. apply (undoRounds_app m s1 s2 s2 _ [false] Hundo).
    cbn [undoRounds]. rewrite undoLastRound_empty; [reflexivity|].
    now apply (represents_history s2 g).
Qed.

Lemma runGameLoop_returns (fuel : nat) (s s' : state) (v : value) :
  runGameLoop random fuel s = Some (Returns v, s') ->
  v = players s' /\ number_ltb (currentRound s') (Int TOTAL_ROUNDS) = false.
Proof.
  revert s. induction fuel as [|fuel IH]; intros s; cbn [runGameLoop];
    destruct (number_ltb (currentRound s) (Int TOTAL_ROUNDS)) eqn:Hlt;
    try discriminate; try (intros [= <- <-]; auto).
  destruct (runRound random s) as [[b| |] s1]; try discriminate. apply IH.
Qed.

(** X9.  Once [runGameLoop] has returned, the game is over whatever the
    roster is: the value returned is the roster object of the engine,
    [runRound] returns false and changes nothing, and [runGameLoop]
    again returns the same object and changes nothing. *)
Theorem runGameLoop_is_final (fuel fuel' : nat) (s s' : state) (v : value) :
  runGameLoop random fuel s = Some (Returns v, s') ->
  v = getPlayers s' /\
  runRound random s' = (Returns false, s') /\
  runGameLoop random fuel' s' = Some (Returns v, s').
Proof.
  intros Hloop. destruct (runGameLoop_returns fuel s s' v Hloop) as (Hv & Hend).
  split; [exact Hv|]. split; [now apply runRound_stops|].
  rewrite Hv. now apply runGameLoop_over.
Qed.

(** X10.  A reference to the roster stays good across rounds and
    renamings, and goes stale on undo, reset and import.  On an engine
    in game state [g]: after [runRound] or [modifyPlayerName],
    [getPlayers] returns the object it returned before; after
    [undoLastRound] with a history, [resetGame], or a [setGameState]
    that returns true, it returns a new object, and the old one, array
    and player objects, holds what it held. *)
Theorem roster_reference (s : state) (g : game) :
  represents s g ->
  (forall b s', runRound random s = (Returns b, s') -> getPlayers s' = getPlayers s) /\
  (forall i n s',
      modifyPlayerName i n s = (Returns tt, s') -> getPlayers s' = getPlayers s) /\
  (forall s',
      history g <> [] -> undoLastRound s = (Returns true, s') ->
      getPlayers s' <> getPlayers s /\
      forall x : loc, In x (roster_cells (heap s) (getPlayers s)) ->
                      heap s' !! x = heap s !! x) /\
  (forall s',
      resetGame s = (Returns tt, s') ->
      getPlayers s' <> getPlayers s /\
      forall x : loc, In x (roster_cells (heap s) (getPlayers s)) ->
                      heap s' !! x = heap s !! x) /\
  (forall st s',
      setGameState st s = (Returns true, s') ->
      getPlayers s' <> getPlayers s /\
      forall x : loc, In x (roster_cells (heap s) (getPlayers s)) ->
                      heap s' !! x = heap s !! x).
Proof.
  intros Hrep. pose proof (represents_inv _ _ Hrep) as (Hr & Hround & Hhist).
  pose proof Hr as (l & Hp & Hl & Hnd & Hcells).
  assert (Hvalid : forall x : loc, In x (roster_cells (heap s) (getPlayers s)) ->
                                   (x < length (heap s))%nat).
  { intros x Hx. eapply roster_at_valid; eassumption. }
  assert (Hl' : (l < length (heap s))%nat) by (eapply lookup_lt_Some; eassumption).
  assert (Hnew : forall (v copy : value) (h' : list object),
             adopted (heap s) v = Returns (copy, h') ->
             copy <> getPlayers s /\
             forall x : loc, In x (roster_cells (heap s) (getPlayers s)) ->
                             h' !! x = heap s !! x).
  { intros v copy h' Had. destruct (adopted_new _ _ _ _ Had) as (news & -> & Hv & _).
    split.
    - unfold getPlayers. rewrite Hp. intros ->. cbn in Hv. lia.
    - intros x Hx. apply lookup_app_l. auto. }
  unfold getPlayers in *.
  split; [|split; [|split; [|split]]].
  - intros b s' Hrun.
    destruct (number_ltb (round g) (Int TOTAL_ROUNDS)) eqn:Hlt.
    + destruct (runRound_represents random s g Hrep Hlt) as (s1 & Hrun1 & _ & _ & Hp1 & _).
      rewrite Hrun1 in Hrun. now injection Hrun as _ <-.
    + rewrite runRound_stops in Hrun by (now rewrite Hround).
      now injection Hrun as _ <-.
  - intros i n s' Hmod.
    destruct (modifyPlayerName_represents i n s g Hrep) as (s1 & Hmod1 & _ & _ & Hp1 & _).
    rewrite Hmod1 in Hmod. now injection Hmod as <-.
  - intros s' Hg Hundo. destruct (history g) as [|[ps r] rest] eqn:Hh; [congruence|].
    destruct (undoLastRound_represents s g ps r rest Hrep Hh)
      as (s1 & Hundo1 & Hrep1 & _ & Hheap & Hp1).
    rewrite Hundo1 in Hundo. injection Hundo as <-.
    split.
    + rewrite Hp1, Hp. intros [= H]. lia.
    + intros x Hx. rewrite Hheap. apply lookup_app_l. auto.
  - intros s'. rewrite resetGame_typed. intros [= <-]. cbn [players heap]. split.
    + rewrite Hp. intros [= H]. lia.
    + intros x Hx. apply lookup_app_l. auto.
  - intros st s' Hset.
    destruct (setGameState_cases st s _ _ Hset)
      as [-> | (v & copy & h' & n & Had & _ & ->)].
    + exfalso. revert Hset. unfold setGameState.
      destruct (truthy st); [|discriminate]. unfold bind at 1, reads.
      destruct (get (heap s) st "players") as [ps| |]; try discriminate.
      destruct (truthy ps); [|discriminate]. unfold bind at 1, reads.
      destruct (get (heap s) st "currentRound") as [r| |]; try discriminate.
      destruct r as [| | |n| | | |]; try discriminate.
      unfold bind at 1. rewrite json_copy_adopted.
      destruct (adopted (heap s) ps) as [[copy h']| |] eqn:Had; try discriminate.
      intros [= Hs]. destruct (Hnew _ _ _ Had) as [Hne _]. apply Hne.
      apply (f_equal players) in Hs. exact Hs.
    + cbn [players heap]. eapply Hnew. exact Had.
Qed.

End RoundsAndUndos.

(** ** The game state shown by the application *)

Lemma undoLastRound_returns_false (s s' : state) :
  undoLastRound s = (Returns false, s') -> stateHistory s = [].
Proof.
  unfold undoLastRound. unfold bind at 1, gets.
  destruct (stateHistory s) as [|previous rest]; [reflexivity|].
  unfold bind at 1, modify. unfold bind at 1.
  destruct (setGameState previous _) as [[b| |] s1]; discriminate.
Qed.

(** X12.  The buttons of the application follow the engine.  In every
    state that the engine made by [createGameLogic()] reaches by calls
    other than [setGameState]: [syncState] sets the game state to
    "finished", which disables both run buttons, exactly when
    [runRound] would return false; the round is 0, which disables the
    revert button and shows "Waiting", exactly when [undoLastRound]
    would return false; and the game state is "ready" exactly at
    round 0. *)
Theorem syncState_follows_engine (random : nat -> random_number) (s : state) :
  reachable random no_import s ->
  (syncState s = "finished" <-> runRound random s = (Returns false, s)) /\
  (getCurrentRound s = Int 0 <-> undoLastRound s = (Returns false, s)) /\
  (syncState s = "ready" <-> getCurrentRound s = Int 0).
Proof.
  intros Hreach.
  destruct (reachable_scored random s Hreach)
    as (g & Hrep & (n & Hn & Hrange & _ & Hscored)).
  apply scored_history_length in Hscored.
  rewrite <- (represents_history_length s g Hrep) in Hscored.
  assert (Hcr : currentRound s = Int n) by (now rewrite (represents_round s g Hrep)).
  rewrite TOTAL_ROUNDS_value in Hrange.
  unfold syncState, getCurrentRound, getTotalRounds, gameStateOf.
  rewrite Hcr, TOTAL_ROUNDS_value. cbn [number_leb number_ltb andb].
  change (0 <? 10) with true. rewrite andb_true_r.
  split; [|split].
  - split.
    + intros H. apply runRound_stops. rewrite Hcr, TOTAL_ROUNDS_value. cbn.
      apply Z.ltb_ge. destruct (Z.leb_spec 10 n); [assumption|].
      destruct (0 <? n); discriminate.
    + intros H. apply runRound_returns_false in H as [H _].
      rewrite Hcr, TOTAL_ROUNDS_value in H. cbn in H. apply Z.ltb_ge in H.
      destruct (Z.leb_spec 10 n); [reflexivity | lia].
  - split.
    + intros [= H0]. apply undoLastRound_empty.
      destruct (stateHistory s); [reflexivity | cbn in Hscored; lia].
    + intros H. apply undoLastRound_returns_false in H. rewrite H in Hscored.
      cbn in Hscored. now subst n.
  - split.
    + destruct (Z.leb_spec 10 n); [discriminate|].
      destruct (Z.ltb_spec 0 n); [discriminate|]. intros _. f_equal. lia.
    + intros [= ->]. reflexivity.
Qed.

(** ** Calls other than [setGameState] always return *)

Lemma no_import_returns (random : nat -> random_number) (s : state) (c : call) :
  reachable random no_import s ->
  no_import c = true ->
  exists s', step random c s s'.
Proof.
  intros Hreach Hc.
  destruct (reachable_scored random s Hreach) as (g & Hrep & Hscored).
  destruct c as [i n| | | | |st| |o]; try discriminate.
  - destruct (modifyPlayerName_represents i n s g Hrep) as (s' & Hrun & _).
    exists s'. now apply (step_modifyPlayerName random i n s (Returns tt)).
  - destruct (number_ltb (round g) (Int TOTAL_ROUNDS)) eqn:Hlt.
    + destruct (runRound_represents random s g Hrep Hlt) as (s' & Hrun & _).
      exists s'. now apply (step_runRound random s (Returns true)).
    + exists s. apply (step_runRound random s (Returns false)); [|exact I].
      apply runRound_stops. now rewrite (represents_round s g Hrep).
  - destruct (history g) as [|[ps r] rest] eqn:Hg.
    + exists s. apply (step_undoLastRound random s (Returns false)); [|exact I].
      apply undoLastRound_empty. now apply (represents_history s g).
    + destruct (undoLastRound_represents s g ps r rest Hrep Hg) as (s' & Hrun & _).
      exists s'. now apply (step_undoLastRound random s (Returns true)).
  - destruct Hscored as (n & Hn & Hle & _).
    destruct (runGameLoop_represents random (Z.to_nat (TOTAL_ROUNDS - n)) s g n
                (Z.to_nat (TOTAL_ROUNDS - n)) Hrep Hn)
      as (s' & news & Hloop & _); [lia | lia | lia |].
    exists s'. eapply step_runGameLoop; [exact Hloop | exact I].
  - destruct (getGameState_represents s g Hrep) as (Hrun & _).
    eexists. eapply step_getGameState; [exact Hrun | exact I].
  - destruct (resetGame_represents s) as (s' & Hrun & _).
    exists s'. now apply (step_resetGame random s (Returns tt)).
  - eexists. apply step_newObject.
Qed.

(** ** Counters below [-2^53] *)

(** Doubles below [-2^53] are even, and a sum with 1 goes to the nearest
    of them: from [-2^53 - 2] the counter goes to [-2^53], two up, and
    from [-2^54] it stays where it is. *)
Lemma counter_below_counted :
  number_add (Int (- 2 ^ 53 - 2)) (Int 1) = Int (- 2 ^ 53) /\
  number_add (Int (- 2 ^ 54)) (Int 1) = Int (- 2 ^ 54) /\
  number_add (Int (2 ^ 53)) (Int 1) = Int (2 ^ 53).
Proof. repeat split; vm_compute; reflexivity. Qed.

(** Where the counter does not move, the loop of [runGameLoop] does not
    end: on a roster of Player records with a counter below
    [TOTAL_ROUNDS] that a sum with 1 leaves as it is ([-Infinity], or an
    integer from [-2^54] down), no number of iterations is enough.
    Only [setGameState] and [createGameLogic] with a saved state can
    give the engine such a counter. *)
Lemma runGameLoop_stuck (random : nat -> random_number) (fuel : nat) (s : state)
    (ps : list Player) :
  roster_is s ps ->
  number_ltb (currentRound s) (Int TOTAL_ROUNDS) = true ->
  number_add (currentRound s) (Int 1) = currentRound s ->
  runGameLoop random fuel s = None.
Proof.
  revert s ps. induction fuel as [|fuel IH]; intros s ps Hroster Hlt Hsame;
    cbn [runGameLoop]; rewrite Hlt; [reflexivity|].
  destruct (runRound_typed random s _ ps (roster_is_inv s ps Hroster) Hlt)
    as (h' & Hrun & _).
  destruct (runRound_roster random s _ ps Hroster Hrun) as (_ & Hroster' & Hround).
  rewrite Hrun. eapply IH; [exact Hroster' | |]; cbn [currentRound]; now rewrite Hsame.
Qed.

Lemma runGameLoop_stuck_at_minus_infinity (random : nat -> random_number) (fuel : nat) :
  let s :=
    engine_after random
      [NewObject (Obj [("players", VRef 4%nat); ("currentRound", VNum (Inf true))]);
       SetGameState (VRef 5%nat)] in
  runGameLoop random fuel s = None.
Proof.
  cbv zeta. apply (runGameLoop_stuck random fuel _ initialRoster); reflexivity.
Qed.

(** ** The scoreboard *)

Section SortFacts.

Context {A : Type}.
Variable key : A -> Z.

Lemma insertDescending_permutation (x : A) (l : list A) :
  Permutation (x :: l) (insertDescending key x l).
Proof.
  induction l as [|y l IH]; cbn [insertDescending]; [reflexivity|].
  destruct (key x <? key y); [|reflexivity].
  rewrite perm_swap. now constructor.
Qed.

Lemma sortDescending_permutation (xs : list A) :
  Permutation xs (sortDescending key xs).
Proof.
  induction xs as [|x xs IH]; [constructor|].
  cbn [sortDescending fold_right]. fold (sortDescending key xs).
  rewrite <- insertDescending_permutation. now constructor.
Qed.

Lemma insertDescending_sorted (x : A) (l : list A) :
  StronglySorted (fun a b => key b <= key a) l ->
  StronglySorted (fun a b => key b <= key a) (insertDescending key x l).
Proof.
  induction 1 as [|y l Hl IH Hy]; cbn [insertDescending].
  - repeat constructor.
  - destruct (Z.ltb_spec (key x) (key y)).
    + constructor; [assumption|].
      rewrite <- insertDescending_permutation. constructor; [lia | assumption].
    + constructor; [now constructor|]. constructor; [assumption|].
      eapply Forall_impl; [exact Hy|]. cbn. intros; lia.
Qed.

Lemma sortDescending_sorted (xs : list A) :
  StronglySorted (fun a b => key b <= key a) (sortDescending key xs).
Proof.
  induction xs as [|x xs IH]; [constructor|]. now apply insertDescending_sorted.
Qed.

(** Among the elements of one key, insertion puts the new one first. *)
Lemma insertDescending_filter (z : Z) (x : A) (l : list A) :
  StronglySorted (fun a b => key b <= key a) l ->
  List.filter (fun a => key a =? z) (insertDescending key x l)
  = List.filter (fun a => key a =? z) (x :: l).
Proof.
  induction 1 as [|y l Hl IH Hy]; cbn [insertDescending]; [reflexivity|].
  destruct (Z.ltb_spec (key x) (key y)); [|reflexivity].
  cbn [List.filter] in *. rewrite IH.
  destruct (Z.eqb_spec (key y) z), (Z.eqb_spec (key x) z); try reflexivity. lia.
Qed.

Lemma sortDescending_stable (z : Z) (xs : list A) :
  List.filter (fun a => key a =? z) (sortDescending key xs)
  = List.filter (fun a => key a =? z) xs.
Proof.
  induction xs as [|x xs IH]; [reflexivity|].
  cbn [sortDescending fold_right]. fold (sortDescending key xs).
  rewrite insertDescending_filter by apply sortDescending_sorted.
  cbn [List.filter]. now rewrite IH.
Qed.

End SortFacts.

(** X1.  The players shown by [Scoreboard] are the players of the
    roster, each once, from the highest score to the lowest; players
    with the same score come in roster order. *)
Theorem sortedPlayers_ranked (ps : list Player) :
  Permutation ps (sortedPlayers ps) /\
  StronglySorted (fun a b => score b <= score a) (sortedPlayers ps) /\
  forall z : Z,
    List.filter (fun p => score p =? z) (sortedPlayers ps)
    = List.filter (fun p => score p =? z) ps.
Proof.
  split; [apply sortDescending_permutation|].
  split; [apply sortDescending_sorted|].
  intros z. apply sortDescending_stable.
Qed.

(** ** The first script *)

Lemma clearCards_length (ps : list Player) : length (clearCards ps) = length ps.
Proof. apply length_map. Qed.

Lemma clearCards_total (ps : list Player) : total (clearCards ps) = total ps.
Proof.
  induction ps as [|p ps IH]; [reflexivity|].
  change (total (clearCards (p :: ps))) with (score p + total (clearCards ps)).
  change (total (p :: ps)) with (score p + total ps). now rewrite IH.
Qed.

Lemma clearCards_names (ps : list Player) : map name (clearCards ps) = map name ps.
Proof. unfold clearCards. rewrite map_map. now apply map_ext. Qed.

Lemma clearCards_no_cards (ps : list Player) : no_cards (clearCards ps).
Proof. unfold no_cards, clearCards. apply Forall_map. now apply Forall_true. Qed.

Lemma clearCards_scores (ps : list Player) (P : Z -> Prop) :
  Forall (fun p => P (score p)) ps -> Forall (fun p => P (score p)) (clearCards ps).
Proof. intros H. unfold clearCards. apply Forall_map. exact H. Qed.

Lemma award_names (m : Z) (ps : list Player) : map name (award m ps) = map name ps.
Proof.
  unfold award. rewrite map_map. apply map_ext. intros p. now destruct (wins m p).
Qed.

Lemma award_scores (m b : Z) (ps : list Player) :
  b < 2 ^ 53 ->
  Forall (fun p => 0 <= score p <= b) ps ->
  Forall (fun p => 0 <= score p <= b + 1) (award m ps).
Proof.
  intros Hb H. unfold award. apply Forall_map. eapply Forall_impl; [exact H|].
  cbn. intros p Hp. destruct (wins m p); cbn [score]; [|lia].
  rewrite add_points_exact; unfold POINTS_PER_SCORE; lia.
Qed.

Section ScriptFacts.

Variable random : nat -> random_number.

Lemma deal_names (k : nat) (ps : list Player) :
  map name (deal random k ps) = map name ps.
Proof.
  revert k. induction ps as [|p ps IH]; intros k; [reflexivity|].
  cbn. now rewrite IH.
Qed.

Lemma clearCards_deal (r : nat -> random_number) (k : nat) (ps : list Player) :
  clearCards (deal r k ps) = clearCards ps.
Proof.
  revert k. induction ps as [|p ps IH]; intros k; [reflexivity|].
  cbn [deal clearCards map name score]. f_equal. apply (IH (S k)).
Qed.

Lemma scriptDraw_length (startOfDraw k : nat) (ps : list Player) :
  length (scriptDraw random startOfDraw k ps) = length ps.
Proof.
  unfold scriptDraw. rewrite clearCards_length.
  destruct (_ && _); [rewrite award_length|]; apply deal_length.
Qed.

Lemma scriptDraw_names (startOfDraw k : nat) (ps : list Player) :
  map name (scriptDraw random startOfDraw k ps) = map name ps.
Proof.
  unfold scriptDraw. rewrite clearCards_names.
  destruct (_ && _); [rewrite award_names|]; apply deal_names.
Qed.

Lemma scriptDraw_scores (startOfDraw k : nat) (b : Z) (ps : list Player) :
  b < 2 ^ 53 ->
  Forall (fun p => 0 <= score p <= b) ps ->
  Forall (fun p => 0 <= score p <= b + 1) (scriptDraw random startOfDraw k ps).
Proof.
  intros Hb H. unfold scriptDraw.
  apply (clearCards_scores _ (fun z => 0 <= z <= b + 1)).
  pose proof (deal_scores random k ps (fun z => 0 <= z <= b) H) as Hd.
  destruct (_ && _); [now apply award_scores|].
  eapply Forall_impl; [exact Hd|]. cbn. intros; lia.
Qed.

Lemma scriptDraw_total (startOfDraw k : nat) (b : Z) (ps : list Player) :
  b < 2 ^ 53 ->
  Forall (fun p => 0 <= score p <= b) ps ->
  total (scriptDraw random startOfDraw k ps)
  = total ps
    + (if negb (length ps =? 0)%nat && (startOfDraw mod length ps =? 0)%nat
       then leaders (playedRound random k ps) else 0).
Proof.
  intros Hb H. unfold scriptDraw. rewrite clearCards_total.
  destruct (_ && _).
  - fold (playedRound random k ps). rewrite playedRound_total.
    + unfold POINTS_PER_SCORE. lia.
    + eapply Forall_impl; [exact H|]. cbn. intros p Hp.
      change (2 ^ 53) with 9007199254740992 in *. lia.
  - rewrite deal_total. lia.
Qed.

Lemma scriptLoop_names (n startOfDraw k : nat) (ps : list Player) :
  map name (scriptLoop random n startOfDraw k ps) = map name ps.
Proof.
  revert startOfDraw k ps. induction n as [|n IH]; intros sod k ps; [reflexivity|].
  cbn [scriptLoop]. now rewrite IH, scriptDraw_names.
Qed.

Lemma scriptLoop_no_cards (n startOfDraw k : nat) (ps : list Player) :
  no_cards ps -> no_cards (scriptLoop random n startOfDraw k ps).
Proof.
  revert startOfDraw k ps. induction n as [|n IH]; intros sod k ps H; [assumption|].
  cbn [scriptLoop]. apply IH. unfold scriptDraw. apply clearCards_no_cards.
Qed.

Lemma scriptLoop_total (n startOfDraw k : nat) (b : Z) (ps : list Player) :
  b + Z.of_nat n <= 2 ^ 53 ->
  Forall (fun p => 0 <= score p <= b) ps ->
  total (scriptLoop random n startOfDraw k ps)
  = total ps + sumZ (map leaders (scriptRounds random n startOfDraw k ps)).
Proof.
  revert startOfDraw k b ps. induction n as [|n IH]; intros sod k b ps Hb H;
    cbn [scriptLoop scriptRounds]; [cbn; lia|].
  rewrite (IH _ _ (b + 1)); [| lia | apply scriptDraw_scores; [lia | exact H]].
  rewrite (scriptDraw_total _ _ b) by (lia || assumption).
  destruct (_ && _); cbn [map sumZ]; lia.
Qed.

(** The iterations that score are those whose number is a multiple of
    the number of players. *)
Lemma scriptRounds_length (n startOfDraw k : nat) (ps : list Player) :
  ps <> [] ->
  length (scriptRounds random n startOfDraw k ps)
  = length (List.filter (fun i => (i mod length ps =? 0)%nat) (seq startOfDraw n)).
Proof.
  revert startOfDraw k ps. induction n as [|n IH]; intros sod k ps Hne; [reflexivity|].
  cbn [scriptRounds seq List.filter].
  assert (Hlen : (length ps =? 0)%nat = false) by (destruct ps; [congruence | reflexivity]).
  rewrite Hlen. cbn [negb andb].
  assert (Hne' : scriptDraw random sod k ps <> []).
  { intros H. apply (f_equal (@length Player)) in H.
    rewrite scriptDraw_length in H. now destruct ps. }
  specialize (IH (S sod) (k + length ps)%nat _ Hne').
  rewrite scriptDraw_length in IH.
  destruct (sod mod length ps =? 0)%nat; cbn [length]; now rewrite IH.
Qed.

(** The draws of the iterations that do not score are thrown away. *)
Lemma deal_ext (random' : nat -> random_number) (k : nat) (ps : list Player) :
  (forall j : nat, (j < length ps)%nat ->
                   as_number (random (k + j)%nat) = as_number (random' (k + j)%nat)) ->
  deal random k ps = deal random' k ps.
Proof.
  revert k. induction ps as [|p ps IH]; intros k H; [reflexivity|].
  cbn [deal]. unfold card, card_number. rewrite <- (Nat.add_0_r k) at 1 3.
  rewrite (H 0%nat) by (cbn; lia). rewrite Nat.add_0_r. f_equal.
  apply IH. intros j Hj. replace (S k + j)%nat with (k + S j)%nat by lia.
  apply H. cbn. lia.
Qed.

Lemma scriptLoop_ext (random' : nat -> random_number) (n startOfDraw : nat)
    (ps : list Player) :
  (forall k : nat, ((k / 4) mod 4 = 0)%nat ->
                   as_number (random k) = as_number (random' k)) ->
  length ps = 4%nat ->
  scriptLoop random n startOfDraw (4 * startOfDraw)%nat ps
  = scriptLoop random' n startOfDraw (4 * startOfDraw)%nat ps.
Proof.
  intros Hagree. revert startOfDraw ps.
  induction n as [|n IH]; intros sod ps Hlen; [reflexivity|].
  cbn [scriptLoop].
  assert (Hdraw : scriptDraw random sod (4 * sod)%nat ps
                  = scriptDraw random' sod (4 * sod)%nat ps).
  { unfold scriptDraw. rewrite Hlen. cbn [Nat.eqb negb andb].
    destruct (Nat.eqb_spec (sod mod 4) 0) as [Hmod|Hmod].
    - rewrite (deal_ext random' (4 * sod)%nat ps); [reflexivity|].
      intros j Hj. apply Hagree. rewrite Hlen in Hj.
      replace ((4 * sod + j) / 4)%nat with sod; [assumption|].
      apply Nat.div_unique with (r := j); lia.
    - now rewrite !clearCards_deal. }
  rewrite Hdraw, Hlen.
  replace (4 * sod + 4)%nat with (4 * S sod)%nat by lia.
  apply IH. rewrite <- Hdraw. now rewrite scriptDraw_length.
Qed.

Lemma scriptRounds_leaders (n startOfDraw k : nat) (ps : list Player) :
  ps <> [] ->
  Forall (fun r => 1 <= leaders r <= Z.of_nat (length ps))
         (scriptRounds random n startOfDraw k ps).
Proof.
  revert startOfDraw k ps. induction n as [|n IH]; intros sod k ps Hne;
    cbn [scriptRounds]; [constructor|].
  assert (Hne' : scriptDraw random sod k ps <> []).
  { intros H. apply (f_equal (@length Player)) in H.
    rewrite scriptDraw_length in H. now destruct ps. }
  specialize (IH (S sod) (k + length ps)%nat _ Hne').
  rewrite scriptDraw_length in IH.
  destruct (_ && _); [|exact IH]. constructor; [|exact IH]. split.
  - now apply leaders_positive.
  - unfold leaders. etransitivity; [apply holders_le_length|].
    now rewrite playedRound_length.
Qed.

Lemma sumZ_bounds (lo hi : Z) (l : list Z) :
  Forall (fun x => lo <= x <= hi) l ->
  lo * Z.of_nat (length l) <= sumZ l <= hi * Z.of_nat (length l).
Proof.
  induction 1 as [|x l Hx _ IH]; [cbn; lia|]. cbn [sumZ length]. lia.
Qed.

(** X13.  The first script deals [deckOfCards] times to everybody and
    scores one deal in four: when its loop ends the four players have
    their names and no card, ten rounds have been scored, and the scores
    add up to the number of tied leaders of those ten rounds, between 10
    and 40. *)
Theorem scriptGame_scores :
  map name (scriptGame random) = ["bob"; "asd"; "dsa"; "bocxzb"] /\
  no_cards (scriptGame random) /\
  length (scriptRounds random deckOfCards 0 0 legacyPlayers) = 10%nat /\
  total (scriptGame random)
  = sumZ (map leaders (scriptRounds random deckOfCards 0 0 legacyPlayers)) /\
  10 <= total (scriptGame random) <= 40.
Proof.
  assert (Hne : legacyPlayers <> []) by discriminate.
  assert (Hlen : length (scriptRounds random deckOfCards 0 0 legacyPlayers) = 10%nat)
    by (rewrite scriptRounds_length by assumption; reflexivity).
  assert (Htotal : total (scriptGame random)
                   = sumZ (map leaders (scriptRounds random deckOfCards 0 0 legacyPlayers))).
  { unfold scriptGame. rewrite (scriptLoop_total _ _ _ 0); [reflexivity | |].
    - unfold deckOfCards. change (2 ^ 53) with 9007199254740992. lia.
    - repeat constructor; cbn; lia. }
  split; [unfold scriptGame; rewrite scriptLoop_names; reflexivity|].
  split.
  { unfold scriptGame. apply (scriptLoop_no_cards deckOfCards 0 0 legacyPlayers).
    repeat constructor. }
  split; [exact Hlen|]. split; [exact Htotal|].
  rewrite Htotal.
  pose proof (scriptRounds_leaders deckOfCards 0 0 legacyPlayers Hne) as Hall.
  assert (Hall' : Forall (fun x => 1 <= x <= Z.of_nat (length legacyPlayers))
                         (map leaders (scriptRounds random deckOfCards 0 0 legacyPlayers)))
    by (apply Forall_map; exact Hall).
  clear Hall. rename Hall' into Hall.
  apply (sumZ_bounds 1 (Z.of_nat (length legacyPlayers))) in Hall.
  rewrite length_map, Hlen in Hall.
  change (Z.of_nat (length legacyPlayers)) with 4 in Hall.
  change (Z.of_nat 10) with 10 in Hall. lia.
Qed.

End ScriptFacts.

(** X14.  Three deals in four of the first script have no effect: two
    generators that agree on the calls made in the iterations that
    score (the calls [k] with [(k / 4) mod 4 = 0]) give the same final
    roster. *)
Theorem scriptGame_discards (random random' : nat -> random_number) :
  (forall k : nat, ((k / 4) mod 4 = 0)%nat ->
                   as_number (random k) = as_number (random' k)) ->
  scriptGame random = scriptGame random'.
Proof.
  intros Hagree. unfold scriptGame.
  now apply (scriptLoop_ext random random' deckOfCards 0 legacyPlayers).
Qed.

(** X15.  The ranking printed by [displayHighestRank] lists the pair
    (name, score) of every player once, from the highest score to the
    lowest; players with the same score come in roster order. *)
Theorem ranking_ranked (ps : list Player) :
  Permutation (map (fun p => (name p, score p)) ps) (ranking ps) /\
  StronglySorted (fun a b => snd b <= snd a) (ranking ps) /\
  forall z : Z,
    List.filter (fun a => snd a =? z) (ranking ps)
    = map (fun p => (name p, score p)) (List.filter (fun p => score p =? z) ps).
Proof.
  split; [apply sortDescending_permutation|].
  split; [apply sortDescending_sorted|].
  intros z. unfold ranking. rewrite sortDescending_stable.
  induction ps as [|p ps IH]; [reflexivity|].
  cbn [map List.filter snd]. destruct (score p =? z); cbn [map]; now rewrite IH.
Qed.

(** ** Runs of calls *)

Section RunFacts.

Variable random : nat -> random_number.

Lemma perform_step (c : call) (s s' : state) :
  perform random c s = Some s' -> step random c s s'.
Proof.
  destruct c as [i n| | | | |st| |o]; cbn [perform].
  - destruct (modifyPlayerName i n s) as [[[]| |] s1] eqn:H; intros [= <-];
      now apply (step_modifyPlayerName random i n s _ _ H).
  - destruct (runRound random s) as [[b| |] s1] eqn:H; intros [= <-];
      now apply (step_runRound random s _ _ H).
  - destruct (undoLastRound s) as [[b| |] s1] eqn:H; intros [= <-];
      now apply (step_undoLastRound random s _ _ H).
  - destruct (runGameLoop random (Z.to_nat TOTAL_ROUNDS) s) as [[[v| |] s1]|] eqn:H;
      intros [= <-]; now apply (step_runGameLoop random _ s _ _ H).
  - destruct (getGameState s) as [[e| |] s1] eqn:H; intros [= <-];
      now apply (step_getGameState random s _ _ H).
  - destruct (setGameState st s) as [[b| |] s1] eqn:H; intros [= <-];
      now apply (step_setGameState random st s _ _ H).
  - destruct (resetGame s) as [[[]| |] s1] eqn:H; intros [= <-];
      now apply (step_resetGame random s _ _ H).
  - intros [= <-]. apply step_newObject.
Qed.

Lemma performs_steps (cs : list call) (s s' : state) :
  performs random cs s = Some s' -> steps random cs s s'.
Proof.
  revert s. induction cs as [|c cs IH]; intros s; cbn [performs].
  - intros [= <-]. apply steps_nil.
  - destruct (perform random c s) as [s1|] eqn:Hc; [|discriminate].
    intros H. eapply steps_cons; [apply perform_step; exact Hc | now apply IH].
Qed.

Lemma steps_reachable (allowed : call -> bool) (cs : list call) (s s' : state) :
  reachable random allowed s -> forallb allowed cs = true -> steps random cs s s' ->
  reachable random allowed s'.
Proof.
  intros Hs Hall Hsteps. induction Hsteps as [s | c cs s s1 s2 Hstep _ IH]; [assumption|].
  cbn [forallb] in Hall. apply andb_prop in Hall as [Hc Hcs].
  apply IH; [|assumption]. eapply reachable_step; eassumption.
Qed.

Lemma engine_after_reachable (allowed : call -> bool) (cs : list call) :
  forallb allowed cs = true ->
  performs random cs fresh_engine <> None ->
  reachable random allowed (engine_after random cs).
Proof.
  intros Hall Hsome. unfold engine_after.
  destruct (performs random cs fresh_engine) as [s|] eqn:Hp; [|contradiction].
  apply (steps_reachable allowed cs fresh_engine); [|assumption | now apply performs_steps].
  now apply (reachable_fresh random allowed [] 0%nat).
Qed.

End RunFacts.

Lemma fresh_engine_represents : represents fresh_engine (mkGame initialRoster (Int 0) []).
Proof. now apply (createGameLogic_represents [] 0%nat). Qed.

(** ** The fresh engine *)

(** States on which C1 applies: the fresh engine, where the round is
    played and the counter goes from 0 to 1, and the engine at the end
    of a game, where [runRound] returns false and changes nothing. *)
Lemma runRound_precondition_witness :
  (exists s', runRound four_doubles fresh_engine = (Returns true, s') /\
              currentRound s' = Int 1) /\
  runRound four_doubles (engine_after always_zero [RunGameLoop])
  = (Returns false, engine_after always_zero [RunGameLoop]).
Proof.
  assert (Hroster : roster_is fresh_engine initialRoster) by (vm_compute; reflexivity).
  destruct (runRound_precondition four_doubles fresh_engine initialRoster Hroster)
    as [Htrue Hfalse].
  split.
  - destruct (Htrue eq_refl) as (s' & Hrun & _ & Hn). exists s'.
    split; [exact Hrun|]. apply (Hn 0); [reflexivity|].
    change (2 ^ 53) with 9007199254740992. lia.
  - apply Hfalse. vm_compute. reflexivity.
Defined.

(** C1, as stated, fails.  After [setGameState({players: 5,
    currentRound: 0})], which returns true, the counter is below
    [TOTAL_ROUNDS] and [runRound] raises, after it has pushed a
    snapshot on the history.  After [setGameState] with the roster of
    the engine and the counter [-Infinity], [runRound] returns true and
    the counter is what it was. *)
Lemma runRound_outside_precondition :
  let number_roster :=
    engine_after always_zero
      [NewObject (Obj [("players", VNum (Int 5)); ("currentRound", VNum (Int 0))]);
       SetGameState (VRef 5%nat)] in
  let minus_infinity :=
    engine_after always_zero
      [NewObject (Obj [("players", VRef 4%nat); ("currentRound", VNum (Inf true))]);
       SetGameState (VRef 5%nat)] in
  (reachable always_zero any_call number_roster /\
   number_ltb (currentRound number_roster) (Int TOTAL_ROUNDS) = true /\
   fst (runRound always_zero number_roster) = Throws /\
   stateHistory number_roster = [] /\
   length (stateHistory (snd (runRound always_zero number_roster))) = 1%nat) /\
  (reachable always_zero any_call minus_infinity /\
   number_ltb (currentRound minus_infinity) (Int TOTAL_ROUNDS) = true /\
   fst (runRound always_zero minus_infinity) = Returns true /\
   currentRound (snd (runRound always_zero minus_infinity))
   = currentRound minus_infinity).
Proof.
  cbv zeta. split.
  - split; [apply engine_after_reachable; [reflexivity | vm_compute; discriminate]|].
    repeat split; vm_compute; reflexivity.
  - split; [apply engine_after_reachable; [reflexivity | vm_compute; discriminate]|].
    repeat split; vm_compute; reflexivity.
Qed.

(** A round on which C2 applies: the first round of the fresh engine
    with the cards 12, 5, 1 and 7.  The first player scores and the
    three others do not. *)
Lemma runRound_scores_witness :
  roster_is (engine_after four_doubles [RunRound])
            [mkPlayer "Player 1" (Some 12) 1; mkPlayer "Player 2" (Some 5) 0;
             mkPlayer "Player 3" (Some 1) 0; mkPlayer "Player 4" (Some 7) 0] /\
  exists ps',
    roster_is (engine_after four_doubles [RunRound]) ps' /\
    length ps' = length initialRoster /\
    (initialRoster <> [] -> exists maxCard, maximum maxCard ps') /\
    forall maxCard : Z,
      maximum maxCard ps' ->
      (forall (i : nat) (p p' : Player),
          initialRoster !! i = Some p -> ps' !! i = Some p' ->
          name p' = name p /\
          (cardHeld p' = Some maxCard ->
           score p' = add_points (score p) /\
           (score p < 2 ^ 53 -> score p' = score p + POINTS_PER_SCORE) /\
           (score p = 2 ^ 53 -> score p' = score p)) /\
          (cardHeld p' <> Some maxCard -> score p' = score p)) /\
      (can_score initialRoster -> total ps' - total initialRoster = holders maxCard ps').
Proof.
  split; [vm_compute; reflexivity|].
  apply (runRound_scores four_doubles fresh_engine (engine_after four_doubles [RunRound])
           initialRoster); vm_compute; reflexivity.
Defined.

(** C2, as stated, fails.  The engine has adopted a player whose score
    is [2^53], which is a number; the round succeeds, the player holds
    the highest card, and its score is [2^53] still: it has gained
    nothing, where one player holds the highest card. *)
Lemma runRound_score_not_counted :
  let s :=
    engine_after always_zero
      [NewObject (player_object (mkPlayer "A" None (2 ^ 53)));
       NewObject (Arr [VRef 5%nat]);
       NewObject (Obj [("players", VRef 6%nat); ("currentRound", VNum (Int 0))]);
       SetGameState (VRef 7%nat)] in
  let ps := [mkPlayer "A" None (2 ^ 53)] in
  let ps' := [mkPlayer "A" (Some 1) (2 ^ 53)] in
  reachable always_zero any_call s /\
  roster_is s ps /\
  fst (runRound always_zero s) = Returns true /\
  roster_is (snd (runRound always_zero s)) ps' /\
  maximum 1 ps' /\
  holders 1 ps' = 1 /\
  total ps' - total ps = 0.
Proof.
  cbv zeta.
  split; [apply engine_after_reachable; [reflexivity | vm_compute; discriminate]|].
  split; [vm_compute; reflexivity|]. split; [vm_compute; reflexivity|].
  split; [vm_compute; reflexivity|]. split; [|split; vm_compute; reflexivity].
  split.
  - eexists. split; [now left | reflexivity].
  - intros p c [<- | []] [= <-]. lia.
Qed.

(** A round on which C3 applies: the first round of the fresh
    engine. *)
Lemma undoLastRound_restores_witness :
  (exists s2,
      undoLastRound (engine_after four_doubles [RunRound]) = (Returns true, s2) /\
      roster_is s2 initialRoster /\
      currentRound s2 = currentRound fresh_engine /\
      stateHistory s2 = stateHistory fresh_engine /\
      (forall l : loc, (l < length (heap fresh_engine))%nat ->
                       ~ In l (player_cells (heap fresh_engine) (players fresh_engine)) ->
                       heap s2 !! l = heap fresh_engine !! l) /\
      (forall g : game, represents fresh_engine g -> represents s2 g)) /\
  (forall s0 : state,
      stateHistory s0 = [] -> undoLastRound s0 = (Returns false, s0)).
Proof.
  apply (undoLastRound_restores four_doubles fresh_engine
           (engine_after four_doubles [RunRound]) initialRoster);
    vm_compute; reflexivity.
Defined.

(** C3, as stated, fails.  The engine has adopted a player without a
    score and played a round, which makes the score NaN.  The next
    round succeeds, and the undo that follows returns true and leaves
    the score [null], which is what JSON makes of NaN in the
    snapshot. *)
Lemma undoLastRound_null_score :
  let s :=
    engine_after always_zero
      [NewObject (Obj [("name", VStr "A"); ("cardHeld", VNull)]);
       NewObject (Arr [VRef 5%nat]);
       NewObject (Obj [("players", VRef 6%nat); ("currentRound", VNum (Int 0))]);
       SetGameState (VRef 7%nat);
       RunRound] in
  reachable always_zero any_call s /\
  player_field s 0 "score" = Returns (VNum NaN) /\
  fst (runRound always_zero s) = Returns true /\
  fst (undoLastRound (snd (runRound always_zero s))) = Returns true /\
  player_field (snd (undoLastRound (snd (runRound always_zero s)))) 0 "score"
  = Returns VNull.
Proof.
  cbv zeta.
  split; [apply engine_after_reachable; [reflexivity | vm_compute; discriminate]|].
  repeat split; vm_compute; reflexivity.
Qed.

(** ** Import *)

(** Inputs on which C4 applies.  The state that the fresh engine
    exports is accepted.  A state whose [players] is a function passes
    the check, and [setGameState] raises. *)
Lemma setGameState_validation_witness :
  (let s := engine_after always_zero [GetGameState] in
   exists s', setGameState (VRef 10%nat) s = (Returns true, s') /\
              roster_is s' initialRoster /\ currentRound s' = Int 0) /\
  (let s :=
     engine_after always_zero
       [NewObject Fun;
        NewObject (Obj [("players", VRef 5%nat); ("currentRound", VNum (Int 0))])] in
   well_formed (heap s) (VRef 6%nat) = true /\
   setGameState (VRef 6%nat) s = (Throws, s)).
Proof.
  cbv zeta. split.
  - set (s := engine_after always_zero [GetGameState]).
    assert (Hin : in_store (heap s) (VRef 10%nat)) by (vm_compute; lia).
    destruct (setGameState_validation (VRef 10%nat) s Hin) as (_ & Haccepts & _).
    destruct Haccepts as (n & Hn & H); [vm_compute; reflexivity|].
    destruct (adopted (heap s) (field (heap s) (VRef 10%nat) "players"))
      as [[copy h']| |] eqn:Had; try (vm_compute in Had; discriminate).
    destruct H as (Hset & _ & _ & Hroster & _).
    eexists. split; [exact Hset|]. split.
    + apply (Hroster (player_cells (heap s) (field (heap s) (VRef 10%nat) "players"))
               initialRoster).
      apply read_roster_inv. vm_compute. reflexivity.
    + cbn [currentRound]. vm_compute in Hn. now injection Hn as <-.
  - set (s := engine_after always_zero _).
    assert (Hin : in_store (heap s) (VRef 6%nat)) by (vm_compute; lia).
    destruct (setGameState_validation (VRef 6%nat) s Hin) as (_ & Haccepts & _).
    assert (Hwf : well_formed (heap s) (VRef 6%nat) = true) by (vm_compute; reflexivity).
    split; [exact Hwf|].
    destruct (Haccepts Hwf) as (n & _ & H).
    destruct (adopted (heap s) (field (heap s) (VRef 6%nat) "players"))
      as [[copy h']| |] eqn:Had; try (vm_compute in Had; discriminate).
    exact H.
Defined.

(** C4, as stated, fails: [{players: 0, currentRound: 0}] is not null,
    has a [players] field and a numeric [currentRound], and is
    rejected. *)
Lemma setGameState_falsy_players_rejected :
  let s :=
    engine_after always_zero
      [NewObject (Obj [("players", VNum (Int 0)); ("currentRound", VNum (Int 0))])] in
  reachable always_zero any_call s /\
  VRef 5%nat <> VNull /\
  has_field (heap s) (VRef 5%nat) "players" /\
  is_number (field (heap s) (VRef 5%nat) "currentRound") = true /\
  setGameState (VRef 5%nat) s = (Returns false, s).
Proof.
  cbv zeta.
  split; [apply engine_after_reachable; [reflexivity | vm_compute; discriminate]|].
  split; [discriminate|]. split; [|split; vm_compute; reflexivity].
  exists 5%nat, [("players", VNum (Int 0)); ("currentRound", VNum (Int 0))], (VNum (Int 0)).
  split; [reflexivity|]. split; vm_compute; reflexivity.
Qed.

(** Inputs on which C10 applies: a string as the roster. *)
Lemma setGameState_truthy_roster_witness :
  let s :=
    engine_after always_zero
      [NewObject (Obj [("players", VStr "abc"); ("currentRound", VNum (Int 3))])] in
  exists s',
    setGameState (VRef 5%nat) s = (Returns true, s') /\
    getPlayers s' = VStr "abc" /\ heap s' = heap s /\
    stringify (heap s') (getPlayers s') = Returns (Some (JStr "abc")) /\
    currentRound s' = Int 3 /\
    stateHistory s' = stateHistory s.
Proof.
  cbv zeta. set (s := engine_after always_zero _).
  destruct (setGameState_truthy_roster s 5%nat (VStr "abc") (Int 3) (JStr "abc"))
    as (s' & Hset & _ & Htext & Hplain & Hround & Hhist);
    try (vm_compute; reflexivity).
  destruct (Hplain eq_refl) as [Hp Hh]. exists s'.
  split; [exact Hset|]. split; [exact Hp|]. split; [exact Hh|].
  split; [exact (Htext eq_refl)|]. split; [exact Hround | exact Hhist].
Defined.

(** ** The history and the cards *)

(** A state on which C5 applies: the fresh engine after a round, an
    export and another round. *)
Lemma history_length_is_round_witness :
  exists n : Z,
    currentRound (engine_after four_doubles [RunRound; GetGameState; RunRound]) = Int n /\
    Z.of_nat (length (stateHistory
                        (engine_after four_doubles [RunRound; GetGameState; RunRound])))
    = n.
Proof.
  apply (history_length_is_round four_doubles).
  apply engine_after_reachable; [reflexivity | vm_compute; discriminate].
Defined.

(** C5, as stated, fails: play a round, export the state, play another
    round, import the exported state.  The counter is back at 1 and the
    history still holds two entries; the engine was not reset, and it
    was made by [createGameLogic()]. *)
Lemma history_length_after_import :
  let s := engine_after always_zero [RunRound; GetGameState; RunRound] in
  let reimported :=
    engine_after always_zero [RunRound; GetGameState; RunRound;
                              SetGameState (VRef 16%nat)] in
  fst (getGameState (engine_after always_zero [RunRound])) = Returns (VRef 16%nat) /\
  setGameState (VRef 16%nat) s = (Returns true, reimported) /\
  reachable always_zero any_call reimported /\
  currentRound reimported = Int 1 /\
  length (stateHistory reimported) = 2%nat.
Proof.
  cbv zeta. split; [vm_compute; reflexivity|]. split; [vm_compute; reflexivity|].
  split; [apply engine_after_reachable; [reflexivity | vm_compute; discriminate]|].
  split; vm_compute; reflexivity.
Qed.

(** A state on which C9 applies: the fresh engine after a round and its
    undo. *)
Lemma round_zero_no_cards_witness :
  exists ps : list Player,
    roster_is (engine_after four_doubles [RunRound; UndoLastRound]) ps /\ no_cards ps.
Proof.
  apply (round_zero_no_cards four_doubles).
  - apply engine_after_reachable; [reflexivity | vm_compute; discriminate].
  - vm_compute. reflexivity.
Defined.

(** C9, as stated, fails: [setGameState] with a state at round 0 in
    which a player holds card 5 is accepted, and leaves the engine at
    round 0 with that card held. *)
Lemma round_zero_card_after_import :
  let s :=
    engine_after always_zero
      [NewObject (player_object (mkPlayer "Player 1" (Some 5) 0));
       NewObject (Arr [VRef 5%nat]);
       NewObject (snapshot_object (VRef 6%nat) (Int 0))] in
  let imported := snd (setGameState (VRef 7%nat) s) in
  fst (setGameState (VRef 7%nat) s) = Returns true /\
  reachable always_zero any_call imported /\
  currentRound imported = Int 0 /\
  roster_is imported [mkPlayer "Player 1" (Some 5) 0] /\
  ~ no_cards [mkPlayer "Player 1" (Some 5) 0].
Proof.
  cbv zeta. split; [vm_compute; reflexivity|]. split.
  - apply (engine_after_reachable always_zero any_call
             [NewObject (player_object (mkPlayer "Player 1" (Some 5) 0));
              NewObject (Arr [VRef 5%nat]);
              NewObject (snapshot_object (VRef 6%nat) (Int 0));
              SetGameState (VRef 7%nat)]);
      [reflexivity | vm_compute; discriminate].
  - split; [vm_compute; reflexivity|]. split; [vm_compute; reflexivity|].
    intros H. inversion H as [|? ? Hp _]. discriminate.
Qed.

(** ** The game loop *)


(** ** Export and accessors *)

(** A state on which C7 applies: the fresh engine after a round.  The
    object exported holds the roster and the round; the caller then
    replaces the first player of the exported state and empties the
    exported array, and the engine is in the game state it was in. *)
Lemma getGameState_independent_witness :
  let s := engine_after four_doubles [RunRound] in
  let g := nextGame four_doubles 0 (mkGame initialRoster (Int 0) []) in
  exists (e : value) (s' : state),
    getGameState s = (Returns e, s') /\
    e = VRef 16%nat /\
    read_snapshot (heap s') e = Some (roster g, round g) /\
    represents (writes [(11%nat, Obj [("name", VStr "Eve")]); (15%nat, Arr [])] s') g.
Proof.
  cbv zeta.
  destruct (getGameState_independent (engine_after four_doubles [RunRound]))
    as [Htyped _].
  destruct (Htyped (nextGame four_doubles 0 (mkGame initialRoster (Int 0) [])))
    as (e & s' & Hget & Hread & Hwrites); [vm_compute; reflexivity|].
  assert (He : e = VRef 16%nat).
  { apply (f_equal fst) in Hget. vm_compute in Hget. now injection Hget. }
  assert (Hs : heap s' = heap (snd (getGameState (engine_after four_doubles [RunRound]))))
    by (now rewrite Hget).
  exists e, s'. split; [exact Hget|]. split; [exact He|]. split; [exact Hread|].
  apply Hwrites. subst e. rewrite Hs.
  assert (H15 : reach (heap (snd (getGameState (engine_after four_doubles [RunRound]))))
                      (VRef 15%nat) 11%nat).
  { apply (reach_step _ 15%nat
             (Arr [VRef 11%nat; VRef 12%nat; VRef 13%nat; VRef 14%nat]) (VRef 11%nat));
      [vm_compute; reflexivity | now left | apply reach_here; vm_compute; lia]. }
  constructor; [|constructor; [|constructor]]; cbn [fst].
  - apply (reach_step _ 16%nat (snapshot_object (VRef 15%nat) (Int 1)) (VRef 15%nat));
      [vm_compute; reflexivity | now left | exact H15].
  - apply (reach_step _ 16%nat (snapshot_object (VRef 15%nat) (Int 1)) (VRef 15%nat));
      [vm_compute; reflexivity | now left | apply reach_here; vm_compute; lia].
Defined.

(** C7, as stated, fails on the equality.  The engine has adopted a
    player without a score and played a round, which makes the score
    NaN; the state exported then holds [null] for that score. *)
Lemma getGameState_exports_null :
  let s :=
    engine_after always_zero
      [NewObject (Obj [("name", VStr "A"); ("cardHeld", VNull)]);
       NewObject (Arr [VRef 5%nat]);
       NewObject (Obj [("players", VRef 6%nat); ("currentRound", VNum (Int 0))]);
       SetGameState (VRef 7%nat);
       RunRound] in
  reachable always_zero any_call s /\
  player_field s 0 "score" = Returns (VNum NaN) /\
  fst (getGameState s) = Returns (VRef 15%nat) /\
  exported_field (heap (snd (getGameState s))) (VRef 15%nat) 0 "score" = Returns VNull.
Proof.
  cbv zeta.
  split; [apply engine_after_reachable; [reflexivity | vm_compute; discriminate]|].
  repeat split; vm_compute; reflexivity.
Qed.

(** A state on which C8 applies: the fresh engine after a round. *)
Lemma accessors_are_live_witness :
  let s := engine_after four_doubles [RunRound] in
  (forall g : game,
      represents s g ->
      read_roster (heap s) (getPlayers s) = Some (roster g) /\
      getCurrentRound s = round g) /\
  getTotalRounds s = Int TOTAL_ROUNDS /\
  getPlayers (write 4%nat (Arr []) s) = VRef 4%nat /\
  heap (write 4%nat (Arr []) s) !! 4%nat = Some (Arr []) /\
  roster_is (write 4%nat (Arr []) s) [] /\
  roster_is (write 0%nat (player_object (mkPlayer "Player 1" (Some 12) 99)) s)
            (<[0%nat := mkPlayer "Player 1" (Some 12) 99]>
               [mkPlayer "Player 1" (Some 12) 1; mkPlayer "Player 2" (Some 5) 0;
                mkPlayer "Player 3" (Some 1) 0; mkPlayer "Player 4" (Some 7) 0]).
Proof.
  cbv zeta. set (s := engine_after four_doubles [RunRound]).
  destruct (accessors_are_live s 4%nat (Arr []))
    as (Hgame & Htotal & Hp & Hl & Harray & Hplayer);
    [vm_compute; reflexivity | vm_compute; lia |].
  split; [exact Hgame|]. split; [exact Htotal|]. split; [exact Hp|]. split; [exact Hl|].
  split.
  - apply (Harray [] []); [reflexivity | constructor | intros [] | constructor].
  - apply (Hplayer (player_cells (heap s) (getPlayers s)) _ 0%nat 0%nat
             (mkPlayer "Player 1" (Some 12) 99)).
    + apply read_roster_inv. vm_compute. reflexivity.
    + reflexivity.
    + vm_compute. reflexivity.
Defined.

(** C8, as stated, fails: on the fresh engine, setting the score of the
    first player to 99 in the array returned by [getPlayers] changes the
    roster of the engine, and the state it exports next. *)
Lemma getPlayers_is_not_a_copy :
  let rigged_roster := <[0%nat := mkPlayer "Player 1" None 99]> initialRoster in
  let rigged_engine :=
    match index (heap fresh_engine) (getPlayers fresh_engine) 0 with
    | Returns player => snd (put player "score" (VNum (Int 99)) fresh_engine)
    | _ => fresh_engine
    end in
  roster_is fresh_engine initialRoster /\
  roster_is rigged_engine rigged_roster /\
  rigged_roster <> initialRoster /\
  fst (getGameState rigged_engine) = Returns (VRef 10%nat) /\
  read_snapshot (heap (snd (getGameState rigged_engine))) (VRef 10%nat)
  = Some (rigged_roster, Int 0).
Proof.
  cbv zeta. split; [vm_compute; reflexivity|]. split; [vm_compute; reflexivity|].
  split; [intros H; vm_compute in H; discriminate|].
  split; vm_compute; reflexivity.
Qed.

(** ** Sample runs *)

(** A run on which X2 applies: after a round and an export, another
    round, an import of [{players: 5, currentRound: 0}], a round that
    raises after it has pushed its snapshot, and a reset. *)
Lemma exported_state_is_kept_witness :
  let s := engine_after four_doubles [RunRound] in
  let s1 := engine_after four_doubles [RunRound; GetGameState] in
  let cs := [RunRound;
             NewObject (Obj [("players", VNum (Int 5)); ("currentRound", VNum (Int 0))]);
             SetGameState (VRef 23%nat);
             RunRound;
             ResetGame] in
  let s2 := engine_after four_doubles ([RunRound; GetGameState] ++ cs) in
  fst (runRound four_doubles
         (engine_after four_doubles
            [RunRound; GetGameState; RunRound;
             NewObject (Obj [("players", VNum (Int 5)); ("currentRound", VNum (Int 0))]);
             SetGameState (VRef 23%nat)])) = Throws /\
  (exists x : loc, VRef 16%nat = VRef x /\ reach (heap s1) (VRef 16%nat) x) /\
  forall l : loc,
    reach (heap s1) (VRef 16%nat) l ->
    (length (heap s) <= l < length (heap s1))%nat /\
    heap s2 !! l = heap s1 !! l /\
    ~ In l (roster_cells (heap s2) (players s2)).
Proof.
  cbv zeta. split; [vm_compute; reflexivity|].
  apply (exported_state_is_kept four_doubles
           [RunRound;
            NewObject (Obj [("players", VNum (Int 5)); ("currentRound", VNum (Int 0))]);
            SetGameState (VRef 23%nat);
            RunRound;
            ResetGame]).
  - vm_compute. reflexivity.
  - apply performs_steps. vm_compute. reflexivity.
Defined.

(** Calls on which X3 applies: the second player of the fresh engine. *)
Lemma modifyPlayerName_renames_witness :
  (forall p : Player,
      0 <= 1 -> initialRoster !! Z.to_nat 1 = Some p -> "Ann" <> EmptyString ->
      exists s',
        modifyPlayerName 1 "Ann" fresh_engine = (Returns tt, s') /\
        roster_is s' (<[Z.to_nat 1 := mkPlayer "Ann" (cardHeld p) (score p)]> initialRoster) /\
        getPlayers s' = getPlayers fresh_engine /\
        currentRound s' = currentRound fresh_engine /\
        stateHistory s' = stateHistory fresh_engine /\
        (forall x : loc,
            player_cells (heap fresh_engine) (players fresh_engine) !! Z.to_nat 1 <> Some x ->
            heap s' !! x = heap fresh_engine !! x) /\
        leaves_others fresh_engine s') /\
  (1 < 0 \/ initialRoster !! Z.to_nat 1 = None \/ "Ann" = EmptyString ->
   modifyPlayerName 1 "Ann" fresh_engine = (Returns tt, fresh_engine)).
Proof.
  apply (modifyPlayerName_renames 1 "Ann" fresh_engine initialRoster).
  vm_compute. reflexivity.
Defined.

(** A call on which X4 applies: the first round of the fresh engine,
    where [Math.random()] returns the largest double below 1, the
    double nearest to 1/3, 0 and 1/2. *)
Lemma runRound_card_range_witness :
  exists ps',
    roster_is (engine_after four_doubles [RunRound]) ps' /\
    Forall (fun p => exists c, cardHeld p = Some c /\ 1 <= c <= MAX_CARD_VALUE) ps'.
Proof.
  apply (runRound_card_range four_doubles fresh_engine
           (engine_after four_doubles [RunRound]) initialRoster);
    vm_compute; reflexivity.
Defined.

(** Saved states on which X6 applies: the state that the fresh engine
    exports, and a state whose [players] is a function. *)
Lemma createGameLogic_savedState_witness :
  (let h := heap (engine_after always_zero [GetGameState]) in
   exists engine,
     createGameLogic (VRef 10%nat) h 0 = Returns engine /\
     represents engine (mkGame initialRoster (Int 0) [])) /\
  (let h := [Fun; Obj [("players", VRef 0%nat); ("currentRound", VNum (Int 0))]] in
   well_formed h (VRef 1%nat) = true /\
   createGameLogic (VRef 1%nat) h 0 = Throws).
Proof.
  cbv zeta. split.
  - set (h := heap (engine_after always_zero [GetGameState])).
    assert (Hin : in_store h (VRef 10%nat)) by (vm_compute; lia).
    destruct (createGameLogic_savedState (VRef 10%nat) h 0 Hin) as (_ & Haccepts).
    destruct Haccepts as (n & Hn & H); [vm_compute; reflexivity|].
    destruct (adopted h (field h (VRef 10%nat) "players"))
      as [[copy h']| |] eqn:Had; try (vm_compute in Had; discriminate).
    destruct H as (Hcreate & _ & _ & Hrep & _).
    vm_compute in Hn. injection Hn as <-.
    eexists. split; [exact Hcreate|].
    apply (Hrep (player_cells h (field h (VRef 10%nat) "players")) initialRoster).
    apply read_roster_inv. vm_compute. reflexivity.
  - set (h := [Fun; Obj [("players", VRef 0%nat); ("currentRound", VNum (Int 0))]]).
    assert (Hin : in_store h (VRef 1%nat)) by (vm_compute; lia).
    destruct (createGameLogic_savedState (VRef 1%nat) h 0 Hin) as (_ & Haccepts).
    assert (Hwf : well_formed h (VRef 1%nat) = true) by (vm_compute; reflexivity).
    split; [exact Hwf|].
    destruct (Haccepts Hwf) as (n & _ & H).
    destruct (adopted h (field h (VRef 1%nat) "players"))
      as [[copy h']| |] eqn:Had; try (vm_compute in Had; discriminate).
    exact H.
Defined.

(** A state on which X7 applies: the fresh engine after a round. *)
Lemma export_import_round_trip_witness :
  let s := engine_after four_doubles [RunRound] in
  let g := nextGame four_doubles 0 (mkGame initialRoster (Int 0) []) in
  exists (e : value) (s1 : state),
    getGameState s = (Returns e, s1) /\
    (exists s2, setGameState e s1 = (Returns true, s2) /\ represents s2 g) /\
    (forall (news : list object) (calls : nat),
        exists engine,
          createGameLogic e (heap s1 ++ news) calls = Returns engine /\
          represents engine (mkGame (roster g) (round g) [])).
Proof.
  cbv zeta.
  apply (export_import_round_trip (engine_after four_doubles [RunRound])
           (nextGame four_doubles 0 (mkGame initialRoster (Int 0) []))).
  vm_compute. reflexivity.
Defined.

(** Rounds on which X8 applies: three rounds of the fresh engine. *)
Lemma undo_all_rounds_witness :
  (exists s1, runRounds four_doubles 3 fresh_engine = (Returns (repeat true 3), s1)) /\
  exists s2,
    undoRounds 3 (engine_after four_doubles [RunRound; RunRound; RunRound])
    = (Returns (repeat true 3), s2) /\
    represents s2 (mkGame initialRoster (Int 0) []) /\
    undoRounds (3 + 1) (engine_after four_doubles [RunRound; RunRound; RunRound])
    = (Returns (repeat true 3 ++ [false]), s2).
Proof.
  destruct (undo_all_rounds four_doubles 3 fresh_engine (mkGame initialRoster (Int 0) [])
              fresh_engine_represents) as [Hrounds Hundos].
  split.
  - apply (Hrounds 0); [reflexivity | |].
    + change (2 ^ 53) with 9007199254740992. lia.
    + rewrite TOTAL_ROUNDS_value. cbn. lia.
  - destruct (Hundos (engine_after four_doubles [RunRound; RunRound; RunRound]))
      as (s2 & Hundo & Hrep & Hmore); [vm_compute; reflexivity|].
    exists s2. split; [exact Hundo|]. split; [exact Hrep|]. now apply Hmore.
Defined.

(** A run on which X9 applies: the whole game of the fresh engine. *)
Lemma runGameLoop_is_final_witness :
  let s' := engine_after four_doubles [RunGameLoop] in
  VRef 4%nat = getPlayers s' /\
  runRound four_doubles s' = (Returns false, s') /\
  runGameLoop four_doubles 0 s' = Some (Returns (VRef 4%nat), s').
Proof.
  cbv zeta.
  apply (runGameLoop_is_final four_doubles 10 0 fresh_engine
           (engine_after four_doubles [RunGameLoop]) (VRef 4%nat)).
  vm_compute. reflexivity.
Defined.

(** A state on which X10 applies: the fresh engine after a round. *)
Lemma roster_reference_witness :
  let s := engine_after four_doubles [RunRound] in
  let g := nextGame four_doubles 0 (mkGame initialRoster (Int 0) []) in
  (forall b s', runRound four_doubles s = (Returns b, s') -> getPlayers s' = getPlayers s) /\
  (forall i n s',
      modifyPlayerName i n s = (Returns tt, s') -> getPlayers s' = getPlayers s) /\
  (forall s',
      history g <> [] -> undoLastRound s = (Returns true, s') ->
      getPlayers s' <> getPlayers s /\
      forall x : loc, In x (roster_cells (heap s) (getPlayers s)) ->
                      heap s' !! x = heap s !! x) /\
  (forall s',
      resetGame s = (Returns tt, s') ->
      getPlayers s' <> getPlayers s /\
      forall x : loc, In x (roster_cells (heap s) (getPlayers s)) ->
                      heap s' !! x = heap s !! x) /\
  (forall st s',
      setGameState st s = (Returns true, s') ->
      getPlayers s' <> getPlayers s /\
      forall x : loc, In x (roster_cells (heap s) (getPlayers s)) ->
                      heap s' !! x = heap s !! x).
Proof.
  cbv zeta.
  apply (roster_reference four_doubles (engine_after four_doubles [RunRound])
           (nextGame four_doubles 0 (mkGame initialRoster (Int 0) []))).
  vm_compute. reflexivity.
Defined.

(** A state on which X11 applies: the fresh engine after a round, an
    export and another round. *)
Lemma scores_follow_rounds_witness :
  let s := engine_after four_doubles [RunRound; GetGameState; RunRound] in
  exists (ps : list Player) (n : Z),
    roster_is s ps /\
    currentRound s = Int n /\
    0 <= n <= TOTAL_ROUNDS /\
    Z.of_nat (length ps) = NUM_PLAYERS /\
    Forall (fun p => 0 <= score p <= n) ps /\
    n <= total ps <= NUM_PLAYERS * n /\
    Forall (fun p => forall c, cardHeld p = Some c -> 1 <= c <= MAX_CARD_VALUE) ps /\
    (0 < n -> Forall (fun p => cardHeld p <> None) ps).
Proof.
  cbv zeta. apply (scores_follow_rounds four_doubles).
  apply engine_after_reachable; [reflexivity | vm_compute; discriminate].
Defined.

(** A state on which X12 applies: the fresh engine after a round. *)
Lemma syncState_follows_engine_witness :
  let s := engine_after four_doubles [RunRound] in
  (syncState s = "finished" <-> runRound four_doubles s = (Returns false, s)) /\
  (getCurrentRound s = Int 0 <-> undoLastRound s = (Returns false, s)) /\
  (syncState s = "ready" <-> getCurrentRound s = Int 0).
Proof.
  cbv zeta. apply (syncState_follows_engine four_doubles).
  apply engine_after_reachable; [reflexivity | vm_compute; discriminate].
Defined.

(** Generators on which X14 applies: they differ in every iteration
    that does not score. *)
Lemma scriptGame_discards_witness :
  scriptGame always_zero = scriptGame half_when_discarded.
Proof.
  apply (scriptGame_discards always_zero half_when_discarded).
  intros k Hk. unfold always_zero, half_when_discarded. now rewrite Hk.
Defined.

(** A run on which X16 applies: play a round, export, play another
    round, import the exported state. *)
Lemma undo_after_import_witness :
  let reimported :=
    engine_after always_zero [RunRound; GetGameState; RunRound;
                              SetGameState (VRef 16%nat)] in
  exists s2,
    undoLastRound reimported = (Returns true, s2) /\
    represents s2 (mkGame (playedRound always_zero 0 initialRoster) (Int 1)
                          [(initialRoster, Int 0)]).
Proof.
  cbv zeta.
  apply (undo_after_import (VRef 16%nat)
           (engine_after always_zero [RunRound; GetGameState; RunRound])
           (engine_after always_zero [RunRound; GetGameState; RunRound;
                                      SetGameState (VRef 16%nat)])
           (nextGame always_zero 4
              (nextGame always_zero 0 (mkGame initialRoster (Int 0) [])))
           (playedRound always_zero 0 initialRoster) (Int 1) [(initialRoster, Int 0)]).
  - vm_compute. reflexivity.
  - vm_compute. reflexivity.
  - vm_compute. reflexivity.
Defined.
